(** * fix-colors.py: the colour rewriting script, embedded and verified

    The script [scripts/fix-colors.py] rewrites hard-coded purple colours of
    a set of stylesheets into CSS variables with [re.sub], one rule after the
    other, and writes a file back when its text changed.  This development
    embeds

    - the fragment of Python's [re] the script relies on (literals, [\s],
      [[^x]], [\b], greedy [*] and [+] on one-character atoms, leftmost
      backtracking search, [re.sub] and [re.findall]);
    - the rule table [color_replacements], as the pattern and replacement
      strings of the source;
    - [fix_colors_in_file] and [main] as computations over a file system
      with exceptions and a report log: paths may lead to the same file,
      a directory may refuse its listing, a file may be unreadable,
      read-only or no text, reading in text mode translates the line ends,
      a write may break off after the file was emptied, and the standard
      output may refuse a line.

    Text is a list of Unicode code points, as a Python [str] is. *)

From Stdlib Require Import NArith List String Ascii Bool Lia.
From stdpp Require Import base option list gmap.

Local Open Scope N_scope.

(** ** Text *)

Abbreviation char := N (only parsing).
Abbreviation text := (list N) (only parsing).

Definition ch (a : ascii) : char := N_of_ascii a.

(** A string literal of the source, as text.  Only ASCII literals are
    written this way. *)
Definition txt (s : string) : text := map N_of_ascii (list_ascii_of_string s).
Arguments txt s%_string.
Arguments ch a%_char.

Definition between (lo hi c : char) : bool := (lo <=? c) && (c <=? hi).

Section FixColors.

(** Python's [str] patterns are Unicode aware: [\s] is [str.isspace] and
    [\w] is [str.isalnum] or an underscore.  Below 128 both are written
    out; above, the Unicode database decides, and it is a parameter here:
    every result holds whatever the database says. *)
Variable uni_space : char -> bool.
Variable uni_alnum : char -> bool.

Definition is_space (c : char) : bool :=
  if c <? 128 then between 9 13 c || between 28 32 c else uni_space c.

Definition is_word (c : char) : bool :=
  if c <? 128
  then between 48 57 c || between 65 90 c || between 97 122 c || (c =? 95)
  else uni_alnum c.

(** ** Patterns

    The compiled form of the patterns the script uses: a sequence of
    one-character atoms, each taken once or under a greedy [*] or [+], and
    the zero-width assertion [\b]. *)
Inductive atom :=
| Lit (c : char)        (* a literal character *)
| NotLit (c : char)     (* [^c] *)
| Space.                (* \s *)

Inductive item :=
| One (a : atom)
| Star (a : atom)
| Plus (a : atom)
| WordB.                (* \b *)

Definition regex := list item.

Definition accepts (a : atom) (c : char) : bool :=
  match a with
  | Lit x => c =? x
  | NotLit x => negb (c =? x)
  | Space => is_space c
  end.

(** *** Parsing a pattern string *)
Inductive token :=
| TAtom (a : atom)
| TBoundary
| TStar
| TPlus.

(** Characters that are special when they stand unescaped.  All but the
    ones handled by [tokenize] put a pattern outside the fragment. *)
Definition special (c : char) : bool :=
  existsb (N.eqb c) (txt ".^$*+?{}[]\|()").

(** What a one-character class may hold here. *)
Definition class_plain (c : char) : bool :=
  negb (existsb (N.eqb c) (txt "\[]^-")).

Definition ascii_alnum (c : char) : bool :=
  between 48 57 c || between 65 90 c || between 97 122 c.

Fixpoint tokenize (p : text) : option (list token) :=
  match p with
  | [] => Some []
  | c :: p1 =>
    if c =? ch "\" then
      match p1 with
      | [] => None
      | e :: p2 =>
        if e =? ch "s" then cons (TAtom Space) <$> tokenize p2
        else if e =? ch "b" then cons TBoundary <$> tokenize p2
        else if ascii_alnum e then None
        else cons (TAtom (Lit e)) <$> tokenize p2
      end
    else if c =? ch "[" then
      match p1 with
      | n :: x :: k :: p4 =>
        if (n =? ch "^") && (k =? ch "]") && class_plain x then cons (TAtom (NotLit x)) <$> tokenize p4
        else None
      | _ => None
      end
    else if c =? ch "*" then cons TStar <$> tokenize p1
    else if c =? ch "+" then cons TPlus <$> tokenize p1
    else if special c then None
    else cons (TAtom (Lit c)) <$> tokenize p1
  end.

Fixpoint assemble (ts : list token) : option regex :=
  match ts with
  | [] => Some []
  | TAtom a :: ts1 =>
    match ts1 with
    | TStar :: ts2 => cons (Star a) <$> assemble ts2
    | TPlus :: ts2 => cons (Plus a) <$> assemble ts2
    | _ => cons (One a) <$> assemble ts1
    end
  | TBoundary :: ts1 => cons WordB <$> assemble ts1
  | TStar :: _ | TPlus :: _ => None
  end.

(** [re.compile], on the fragment: [None] for a pattern outside of it. *)
Definition re_compile (p : text) : option regex :=
  tokenize p ≫= assemble.

(** ** Matching

    [re_match r need pw s] runs [r] at the head of [s], as the
    backtracking engine does: a greedy repeat first takes as many
    characters as it can and gives them back one by one until the rest of
    the pattern matches.  [pw] tells whether the character before [s] is a
    word character ([false] at the start of the text); [need] is the
    engine's [must_advance]: an empty match does not count.  The result is
    the length of the match. *)
Definition next_word (s : text) : bool :=
  match s with
  | [] => false
  | c :: _ => is_word c
  end.

Fixpoint repeat_max (a : atom) (k : bool -> bool -> text -> option nat)
    (need pw : bool) (s : text) : option nat :=
  match s with
  | c :: s' =>
    if accepts a c then
      match repeat_max a k false (is_word c) s' with
      | Some n => Some (S n)
      | None => k need pw s
      end
    else k need pw s
  | [] => k need pw s
  end.

Fixpoint re_match (r : regex) (need pw : bool) (s : text) : option nat :=
  match r with
  | [] => if need then None else Some 0%nat
  | One a :: r' =>
    match s with
    | c :: s' => if accepts a c then S <$> re_match r' false (is_word c) s' else None
    | [] => None
    end
  | Star a :: r' => repeat_max a (re_match r') need pw s
  | Plus a :: r' =>
    match s with
    | c :: s' =>
      if accepts a c then S <$> repeat_max a (re_match r') false (is_word c) s' else None
    | [] => None
    end
  | WordB :: r' =>
    if xorb pw (next_word s) then re_match r' need pw s else None
  end.

(** ** Searching

    [scan r pw s skip] is the loop shared by [re.sub] and [re.findall]:
    the text is cut into the characters no match covers and the matches,
    leftmost first, never overlapping.  [skip] counts the characters of the
    current match still to pass.  After an empty match the engine looks
    again at the same place for a non-empty one. *)
Inductive piece :=
| Keep (c : char)
| Hit (w : text).

Fixpoint scan (r : regex) (pw : bool) (s : text) (skip : nat) : list piece :=
  match s with
  | [] =>
    match skip, re_match r false pw [] with
    | O, Some _ => [Hit []]
    | _, _ => []
    end
  | c :: s' =>
    match skip with
    | S k => scan r (is_word c) s' k
    | O =>
      match re_match r false pw s with
      | Some (S n) => Hit (take (S n) s) :: scan r (is_word c) s' n
      | Some O =>
        Hit [] ::
        match re_match r true pw s with
        | Some (S n) => Hit (take (S n) s) :: scan r (is_word c) s' n
        | _ => Keep c :: scan r (is_word c) s' 0
        end
      | None => Keep c :: scan r (is_word c) s' 0
      end
    end
  end.

Definition emit (repl : text) (p : piece) : text :=
  match p with
  | Keep c => [c]
  | Hit _ => repl
  end.

Definition hit_text (p : piece) : option text :=
  match p with
  | Keep _ => None
  | Hit w => Some w
  end.

(** [re.sub] and [re.findall] of a compiled pattern.  The replacement is
    taken literally: no replacement of the script holds a backslash. *)
Definition sub (r : regex) (repl s : text) : text :=
  flat_map (emit repl) (scan r false s 0).

Definition findall (r : regex) (s : text) : list text :=
  omap hit_text (scan r false s 0).

(** ** The rule table

    [color_replacements] of the source: pattern and replacement, in the
    order the dictionary literal lists them (a Python dict iterates in
    insertion order, and no key is written twice). *)
Definition color_replacements : list (string * string) :=
  [ (* Gradient *)
    ("linear-gradient\(135deg,\s*#a855f7\s+0%,\s*#9333ea\s+100%\)", "var(--primary-gradient)");
    (* Hex colors *)
    ("#9333ea\b", "var(--primary)");
    ("#a855f7\b", "var(--primary-light)");
    ("#c084fc\b", "var(--primary-lighter)");
    ("#7c3aed\b", "var(--primary-dark)");
    ("#f3e8ff\b", "var(--primary-bg-light)");
    ("#faf5ff\b", "var(--primary-bg-lighter)");
    ("#e9d5ff\b", "var(--primary-border)");
    (* rgba colors with color-mix (modern CSS) *)
    ("rgba\(\s*243,\s*232,\s*255,\s*0\.4\)", "color-mix(in srgb, var(--primary-bg-light) 40%, transparent)");
    ("rgba\(\s*233,\s*213,\s*255,\s*0\.6\)", "color-mix(in srgb, var(--primary-border) 60%, transparent)");
    ("rgba\(\s*168,\s*85,\s*247,\s*0\.05\)", "color-mix(in srgb, var(--primary-light) 5%, transparent)");
    ("rgba\(\s*168,\s*85,\s*247,\s*0\.1\)", "color-mix(in srgb, var(--primary) 10%, transparent)");
    ("rgba\(\s*168,\s*85,\s*247,\s*0\.15\)", "color-mix(in srgb, var(--primary-light) 15%, transparent)");
    ("rgba\(\s*168,\s*85,\s*247,\s*0\.2\)", "color-mix(in srgb, var(--primary-light) 20%, transparent)");
    ("rgba\(\s*168,\s*85,\s*247,\s*0\.3\)", "color-mix(in srgb, var(--primary) 30%, transparent)");
    ("rgba\(\s*147,\s*51,\s*234,\s*0\.02\)", "color-mix(in srgb, var(--primary) 2%, transparent)");
    ("rgba\(\s*147,\s*51,\s*234,\s*0\.05\)", "color-mix(in srgb, var(--primary) 5%, transparent)");
    ("rgba\(\s*147,\s*51,\s*234,\s*0\.1\)", "color-mix(in srgb, var(--primary) 10%, transparent)");
    ("rgba\(\s*147,\s*51,\s*234,\s*0\.15\)", "color-mix(in srgb, var(--primary) 15%, transparent)");
    (* Standard shadows (keep as variables) *)
    ("rgba\(\s*147,\s*51,\s*234,\s*0\.2\)", "var(--primary-shadow)");
    ("rgba\(\s*147,\s*51,\s*234,\s*0\.3\)", "var(--primary-shadow-hover)")
  ]%string.

(** The pattern and the replacement of the special case of [main]; the
    replacement is written in the source with a newline escape. *)
Definition spinner_pattern : string :=
  "\.app-loading-spinner \{[^}]+color:\s*#9333ea;".

Definition spinner_replacement : text :=
  txt ".app-loading-spinner {" ++ [10] ++ txt "  color: var(--primary);".

Definition spinner_rule : option (regex * text) :=
  r ← re_compile (txt spinner_pattern); Some (r, spinner_replacement).

(** ** Files, exceptions and the report

    A path names a file or a directory.  A file holds text ([None] when
    its bytes are not valid UTF-8), may be unreadable or read-only, and
    counts how often it was written: its modification state.  A write may
    break off on the way, after the file was opened and emptied (the device
    is full, say): [cut f t] is [None] when the device takes the text [t]
    in full, and [Some d] when the write breaks off and leaves [d] in the
    file. *)
Record file := File {
  data : option text;
  readable : bool;
  writable : bool;
  cut : text -> option (option text);
  writes : nat
}.

(** A directory has a listing, and may refuse to give it. *)
Inductive node :=
| IsFile (f : file)
| IsDir (names : list text) (listable : bool).

Inductive exn :=
| FileNotFoundError (p : text)
| PermissionError (p : text)
| IsADirectoryError (p : text)
| NotADirectoryError (p : text)
| UnicodeDecodeError (p : text)
| UnicodeEncodeError
| OSError (p : text)
| ReError (pattern : text).

(** The lines the script prints.  [Changed p n] is
    ["✅ p: n changes made"], [Unchanged p] is ["⏭️  p: No changes needed"],
    [Failed p e] is ["❌ p: Error - e"], [SpinnerFixed p] is
    ["✅ p: Loading spinner fixed"]; [Started] and [Completed] are the two
    banners. *)
Inductive report :=
| Started
| Changed (p : text) (n : nat)
| Unchanged (p : text)
| Failed (p : text) (e : exn)
| SpinnerFixed (p : text)
| Completed.

(** The surroundings of a run, which the script has no means to change.

    [realpath p] is the place the path [p] leads to once the links on the
    way are followed, as [os.path.realpath] tells it: the system calls
    behind [open], [os.listdir] and [os.path.exists] look there, so two
    paths that lead to the same place name the same file.

    [console l r] tells whether the standard output, having printed the
    lines [l], takes the line [r]: it does not when its encoding lacks a
    character of the line (each line of the script starts with a mark
    outside ASCII) or when the stream is gone. *)
Variable realpath : text -> text.
Variable console : list report -> report -> bool.

(** The file system, by the places the paths lead to, and the lines
    printed so far. *)
Record world := World {
  fs : gmap (list N) node;
  out : list report
}.

(** Computations: a state over the world, with exceptions.  What a
    computation did before it raised stays done. *)
Definition M (A : Type) : Type := world -> (exn + A) * world.

#[global] Instance M_ret : MRet M := fun A a w => (inr a, w).

#[global] Instance M_bind : MBind M := fun A B f m w =>
  match m w with
  | (inr a, w') => f a w'
  | (inl e, w') => (inl e, w')
  end.

Definition raise {A} (e : exn) : M A := fun w => (inl e, w).

(** [try: body except Exception as e: handler e]: every exception of the
    model is an [Exception]. *)
Definition try_except {A} (body : M A) (handler : exn -> M A) : M A :=
  fun w =>
    match body w with
    | (inl e, w') => handler e w'
    | r => r
    end.

(** [print]: the line joins the report, or the standard output refuses it
    and [print] raises with nothing printed.  The exception goes by the
    name [UnicodeEncodeError] whatever made the stream refuse the line: the
    handler of [fix_colors_in_file] catches every [Exception], and nothing
    else in the script looks at it. *)
Definition print (r : report) : M unit :=
  fun w =>
    if console (out w) r then (inr tt, World (fs w) (out w ++ [r]))
    else (inl UnicodeEncodeError, w).

(** [os.path.exists] *)
Definition path_exists (p : text) : M bool :=
  fun w => (inr (bool_decide (is_Some (fs w !! realpath p))), w).

(** [os.listdir] *)
Definition listdir (p : text) : M (list text) :=
  fun w =>
    match fs w !! realpath p with
    | Some (IsDir names listable) =>
      if listable then (inr names, w) else (inl (PermissionError p), w)
    | Some (IsFile _) => (inl (NotADirectoryError p), w)
    | None => (inl (FileNotFoundError p), w)
    end.

(** What reading in text mode makes of the line ends: with [newline] left
    at its default, [\r\n] and a lone [\r] both come out as [\n]. *)
Fixpoint universal_newlines (s : text) : text :=
  match s with
  | [] => []
  | c :: s' =>
    if c =? 13 then
      10 :: match s' with
            | d :: s'' => if d =? 10 then universal_newlines s'' else universal_newlines s'
            | [] => []
            end
    else c :: universal_newlines s'
  end.

(** [with open(p, 'r', encoding='utf-8') as f: f.read()] *)
Definition read_text (p : text) : M text :=
  fun w =>
    match fs w !! realpath p with
    | Some (IsFile f) =>
      if readable f then
        match data f with
        | Some t => (inr (universal_newlines t), w)
        | None => (inl (UnicodeDecodeError p), w)
        end
      else (inl (PermissionError p), w)
    | Some (IsDir _ _) => (inl (IsADirectoryError p), w)
    | None => (inl (FileNotFoundError p), w)
    end.

(** The file a write of the text [t] leaves: with [t] when the write went
    through, with what the device left when it broke off.  On POSIX, whose
    path separator [path_join] takes below, a [\n] is written as it is. *)
Definition store (f : file) (t : text) : file :=
  File (match cut f t with None => Some t | Some d => d end)
       (readable f) (writable f) (cut f) (S (writes f)).

(** [with open(p, 'w', encoding='utf-8') as f: f.write(t)]: opening the
    file for writing empties it, or creates it, before anything is
    written. *)
Definition write_text (p : text) (t : text) : M unit :=
  fun w =>
    match fs w !! realpath p with
    | Some (IsFile f) =>
      if writable f then
        let w' := World (<[realpath p := IsFile (store f t)]> (fs w)) (out w) in
        match cut f t with
        | None => (inr tt, w')
        | Some _ => (inl (OSError p), w')
        end
      else (inl (PermissionError p), w)
    | Some (IsDir _ _) => (inl (IsADirectoryError p), w)
    | None =>
      (inr tt, World (<[realpath p := IsFile (File (Some t) true true (fun _ => None) 1)]> (fs w))
                     (out w))
    end.

(** [os.path.join], with the separator of POSIX *)
Definition path_join (a b : text) : text :=
  match b with
  | c :: _ => if c =? ch "/" then b
              else match last a with
                   | None => b
                   | Some d => if d =? ch "/" then a ++ b else a ++ ch "/" :: b
                   end
  | [] => match last a with
          | None => b
          | Some d => if d =? ch "/" then a ++ b else a ++ ch "/" :: b
          end
  end.

(** [str.endswith] *)
Definition endswith (s suffix : text) : bool :=
  bool_decide (drop (length s - length suffix) s = suffix).

(** [re.sub] and [re.findall] on a pattern string: the pattern is compiled
    first, and a pattern that does not compile raises. *)
Definition re_sub (pattern : string) (repl s : text) : M text :=
  match re_compile (txt pattern) with
  | Some r => mret (sub r repl s)
  | None => raise (ReError (txt pattern))
  end.

Definition re_findall (pattern : string) (s : text) : M (list text) :=
  match re_compile (txt pattern) with
  | Some r => mret (findall r s)
  | None => raise (ReError (txt pattern))
  end.

(** [for x in l: body], the loop variables threaded as [acc] *)
Fixpoint for_each {A S} (l : list A) (body : A -> S -> M S) (acc : S) : M S :=
  match l with
  | [] => mret acc
  | x :: l' => acc' ← body x acc; for_each l' body acc'
  end.

(** ** The script *)

(** The body of the loop of [fix_colors_in_file] over the rules. *)
Definition apply_rule (rule : string * string) (st : text * nat) : M (text * nat) :=
  let '(pattern, replacement) := rule in
  let '(content, changes_made) := st in
  new_content ← re_sub pattern (txt replacement) content;
  if bool_decide (new_content <> content) then
    found ← re_findall pattern content;
    let changes_count := length found in
    mret (new_content, (changes_made + changes_count)%nat)
  else mret (content, changes_made).

Definition fix_colors_in_file (filepath : text) : M bool :=
  try_except
    (content ← read_text filepath;
     let original_content := content in
     st ← for_each color_replacements apply_rule (content, 0%nat);
     let '(content, changes_made) := st in
     if bool_decide (content <> original_content) then
       write_text filepath content;;
       print (Changed filepath changes_made);;
       mret true
     else
       print (Unchanged filepath);;
       mret false)
    (fun e =>
       print (Failed filepath e);;
       mret false).

Definition component_dir : text := txt "src/components".
Definition dark_mode_file : text := txt "src/styles/dark-mode.css".
Definition app_css_file : text := txt "src/styles/App.css".

(** The body of the loop of [main] over the component directory. *)
Definition process_component (filename : text) (_ : unit) : M unit :=
  if endswith filename (txt ".css") then
    let filepath := path_join component_dir filename in
    fix_colors_in_file filepath;; mret tt
  else mret tt.

(** The three phases of [main]. *)
Definition process_components : M unit :=
  found ← path_exists component_dir;
  if (found : bool) then
    names ← listdir component_dir;
    for_each names process_component tt
  else mret tt.

Definition process_dark_mode : M unit :=
  found ← path_exists dark_mode_file;
  if (found : bool) then fix_colors_in_file dark_mode_file;; mret tt
  else mret tt.

Definition process_app_css : M unit :=
  found ← path_exists app_css_file;
  if (found : bool) then
    content ← read_text app_css_file;
    content ← re_sub spinner_pattern spinner_replacement content;
    write_text app_css_file content;;
    print (SpinnerFixed app_css_file)
  else mret tt.

Definition main : M unit :=
  print Started;;
  process_components;;
  process_dark_mode;;
  process_app_css;;
  print Completed.


(** * Matching, declaratively

    [Matches r pw s n]: the pattern [r] can match the first [n] characters
    of [s].  The engine returns the first such match in its order of
    preference; for the rules of the table there is only one. *)
Inductive Matches : regex -> bool -> text -> nat -> Prop :=
| M_nil pw s : Matches [] pw s 0
| M_one a r pw c s n :
    accepts a c = true -> Matches r (is_word c) s n ->
    Matches (One a :: r) pw (c :: s) (S n)
| M_wordb r pw s n :
    xorb pw (next_word s) = true -> Matches r pw s n ->
    Matches (WordB :: r) pw s n
| M_star_stop a r pw s n :
    Matches r pw s n -> Matches (Star a :: r) pw s n
| M_star_step a r pw c s n :
    accepts a c = true -> Matches (Star a :: r) (is_word c) s n ->
    Matches (Star a :: r) pw (c :: s) (S n)
| M_plus a r pw c s n :
    accepts a c = true -> Matches (Star a :: r) (is_word c) s n ->
    Matches (Plus a :: r) pw (c :: s) (S n).

Lemma repeat_max_sound a r :
  (forall need pw s n, re_match r need pw s = Some n ->
     Matches r pw s n /\ (need = true -> n <> 0%nat)) ->
  forall s need pw n, repeat_max a (re_match r) need pw s = Some n ->
    Matches (Star a :: r) pw s n /\ (need = true -> n <> 0%nat).
Proof.
  intros IH s. induction s as [|c s IHs]; intros need pw n; simpl.
  - intros H. apply IH in H as [H1 H2]. split; [by apply M_star_stop | done].
  - destruct (accepts a c) eqn:Ha.
    + destruct (repeat_max a (re_match r) false (is_word c) s) as [m|] eqn:Hr.
      * intros [= <-]. apply IHs in Hr as [H1 _].
        split; [by apply M_star_step | done].
      * intros H. apply IH in H as [H1 H2]. split; [by apply M_star_stop | done].
    + intros H. apply IH in H as [H1 H2]. split; [by apply M_star_stop | done].
Qed.

Lemma re_match_sound r : forall need pw s n,
  re_match r need pw s = Some n ->
  Matches r pw s n /\ (need = true -> n <> 0%nat).
Proof.
  induction r as [|[a|a|a|] r IH]; intros need pw s n; simpl.
  - destruct need; [done|]. intros [= <-]. split; [constructor | done].
  - destruct s as [|c s]; [done|]. destruct (accepts a c) eqn:Ha; [|done].
    destruct (re_match r false (is_word c) s) as [m|] eqn:Hr; [|done].
    intros [= <-]. apply IH in Hr as [H1 _]. split; [by constructor | done].
  - by apply repeat_max_sound.
  - destruct s as [|c s]; [done|]. destruct (accepts a c) eqn:Ha; [|done].
    destruct (repeat_max a (re_match r) false (is_word c) s) as [m|] eqn:Hr; [|done].
    intros [= <-]. apply (repeat_max_sound a r IH) in Hr as [H1 _].
    split; [by constructor | done].
  - destruct (xorb pw (next_word s)) eqn:Hx; [|done].
    intros H. apply IH in H as [H1 H2]. split; [by constructor | done].
Qed.

Lemma re_match_complete r pw s n :
  Matches r pw s n ->
  forall need, need = false \/ n <> 0%nat ->
  is_Some (re_match r need pw s).
Proof.
  induction 1 as [pw s|a r pw c s n Ha _ IH|r pw s n Hx _ IH|a r pw s n _ IH
                 |a r pw c s n Ha _ IH|a r pw c s n Ha _ IH]; intros need Hn; simpl.
  - destruct Hn as [->|]; [by eexists | done].
  - rewrite Ha. destruct (IH false) as [m ->]; [by left | by eexists].
  - rewrite Hx. by apply IH.
  - destruct s as [|c s]; simpl; [by apply IH|].
    destruct (accepts a c); [|by apply IH].
    destruct (repeat_max a (re_match r) false (is_word c) s); [by eexists | by apply IH].
  - rewrite Ha. simpl in IH. destruct (IH false) as [m ->]; [by left | by eexists].
  - rewrite Ha. simpl in IH. destruct (IH false) as [m ->]; [by left | by eexists].
Qed.

Lemma Matches_length r pw s n : Matches r pw s n -> (n <= length s)%nat.
Proof. induction 1; simpl; lia. Qed.

(** A match depends on the characters it covers and on whether a word
    character follows them. *)
Lemma Matches_local r pw s n :
  Matches r pw s n ->
  forall s', take n s = take n s' ->
    next_word (drop n s) = next_word (drop n s') ->
    Matches r pw s' n.
Proof.
  induction 1 as [pw s|a r pw c s n Ha _ IH|r pw s n Hx Hm IH|a r pw s n _ IH
                 |a r pw c s n Ha _ IH|a r pw c s n Ha _ IH]; intros s' Ht Hd.
  - constructor.
  - destruct s' as [|c' s']; [done|]. simpl in Ht. injection Ht as <- Ht.
    constructor; [done|]. by apply IH.
  - constructor; [|by apply IH].
    destruct n as [|n]; [rewrite !drop_0 in Hd; by rewrite <- Hd|].
    apply Matches_length in Hm. destruct s as [|c s]; [simpl in Hm; lia|].
    destruct s' as [|c' s']; [done|]. simpl in Ht. by injection Ht as <- _.
  - apply M_star_stop. by apply IH.
  - destruct s' as [|c' s']; [done|]. simpl in Ht. injection Ht as <- Ht.
    apply M_star_step; [done|]. by apply IH.
  - destruct s' as [|c' s']; [done|]. simpl in Ht. injection Ht as <- Ht.
    apply M_plus; [done|]. by apply IH.
Qed.

(** ** Patterns that start with a literal

    Every pattern of the script starts with a literal character: such a
    pattern never matches the empty text and does not look at what stands
    before the match. *)
Definition headed (r : regex) : bool :=
  match r with
  | One (Lit _) :: _ => true
  | _ => false
  end.

Lemma headed_match r need pw s :
  headed r = true -> re_match r need pw s = re_match r false false s.
Proof. destruct r as [|[[c|c|]|a|a|] r]; done. Qed.

Lemma headed_nonempty r need pw s :
  headed r = true -> re_match r need pw s <> Some 0%nat.
Proof.
  destruct r as [|[[c|c|]|a|a|] r]; try done. intros _. simpl.
  destruct s as [|d s]; [done|]. destruct (d =? c); [|done].
  by destruct (re_match r false (is_word d) s).
Qed.

Lemma headed_miss r need pw c d s :
  (d =? c) = false -> re_match (One (Lit c) :: r) need pw (d :: s) = None.
Proof. intros H. simpl. by rewrite H. Qed.

Lemma scan_headed r pw s k :
  headed r = true -> scan r pw s k = scan r false s k.
Proof.
  intros Hr. revert pw k. induction s as [|c s IH]; intros pw k; simpl.
  - by rewrite (headed_match r false pw).
  - destruct k as [|k]; [|by rewrite IH].
    rewrite (headed_match r false pw), (headed_match r true pw) by done.
    rewrite (headed_match r true false) by done.
    destruct (re_match r false false (c :: s)) as [[|n]|]; by rewrite !(IH (is_word c)).
Qed.

Lemma scan_nil r k : headed r = true -> scan r false [] k = [].
Proof. destruct r as [|[[c|c|]|a|a|] r]; try done. by destruct k. Qed.

Lemma scan_skip r c s k :
  headed r = true -> scan r false (c :: s) (S k) = scan r false s k.
Proof. intros Hr. simpl. by apply scan_headed. Qed.

Lemma scan_try r c s :
  headed r = true ->
  scan r false (c :: s) 0 =
    match re_match r false false (c :: s) with
    | Some (S n) => Hit (take (S n) (c :: s)) :: scan r false s n
    | _ => Keep c :: scan r false s 0
    end.
Proof.
  intros Hr. cbn [scan].
  pose proof (headed_nonempty r false false (c :: s) Hr) as Hne.
  destruct (re_match r false false (c :: s)) as [[|n]|]; [done| |];
    by rewrite (scan_headed r (is_word c)).
Qed.

Lemma scan_pass r w s :
  headed r = true -> scan r false (w ++ s) (length w) = scan r false s 0.
Proof.
  intros Hr. induction w as [|c w IH]; [done|]. simpl app. simpl length.
  by rewrite scan_skip.
Qed.

Lemma scan_hit r w s :
  headed r = true -> w <> [] ->
  re_match r false false (w ++ s) = Some (length w) ->
  scan r false (w ++ s) 0 = Hit w :: scan r false s 0.
Proof.
  intros Hr Hw Hm. destruct w as [|c w]; [done|].
  change ((c :: w) ++ s) with (c :: w ++ s) in *. simpl length in Hm.
  rewrite scan_try, Hm by done.
  rewrite scan_pass by done. f_equal. f_equal.
  change (S (length w)) with (length (c :: w)).
  change (c :: w ++ s) with ((c :: w) ++ s).
  by rewrite take_app_length.
Qed.

Lemma scan_miss r c s :
  headed r = true -> re_match r false false (c :: s) = None ->
  scan r false (c :: s) 0 = Keep c :: scan r false s 0.
Proof. intros Hr Hm. by rewrite scan_try, Hm. Qed.

(** The junction of two texts: when what follows [a] changes no match
    that starts in [a], the two texts are scanned one after the other. *)
Lemma scan_app r a b k :
  headed r = true ->
  (forall a1 a2, a = a1 ++ a2 -> a2 <> [] ->
     re_match r false false (a2 ++ b) = re_match r false false a2) ->
  (k <= length a)%nat ->
  scan r false (a ++ b) k = scan r false a k ++ scan r false b 0.
Proof.
  intros Hr. revert k. induction a as [|c a IH]; intros k Hj Hk.
  - simpl in Hk. replace k with 0%nat by lia. by rewrite scan_nil.
  - assert (Hj' : forall a1 a2, a = a1 ++ a2 -> a2 <> [] ->
              re_match r false false (a2 ++ b) = re_match r false false a2).
    { intros a1 a2 -> Ha2. by apply (Hj (c :: a1)). }
    change ((c :: a) ++ b) with (c :: a ++ b). destruct k as [|k].
    + rewrite (scan_try r c (a ++ b)), (scan_try r c a) by done.
      specialize (Hj [] (c :: a) eq_refl ltac:(done)).
      change ((c :: a) ++ b) with (c :: a ++ b) in Hj. rewrite Hj.
      destruct (re_match r false false (c :: a)) as [[|n]|] eqn:Hm.
      * rewrite (IH 0%nat Hj') by lia. done.
      * apply re_match_sound in Hm as [Hm _]. apply Matches_length in Hm.
        simpl in Hm. rewrite (IH n Hj') by lia.
        change (c :: a ++ b) with ((c :: a) ++ b).
        by rewrite take_app_le by (simpl; lia).
      * rewrite (IH 0%nat Hj') by lia. done.
    + rewrite !scan_skip by done. simpl in Hk. apply IH; [done | lia].
Qed.

(** ** Patterns with one way to match

    After a repeat comes a literal the repeat does not accept: where the
    repeat stops is forced. *)
Fixpoint det (r : regex) : bool :=
  match r with
  | [] => true
  | One _ :: r' => det r'
  | WordB :: r' => det r'
  | Star a :: r' | Plus a :: r' =>
    match r' with
    | One (Lit c) :: _ => negb (accepts a c) && det r'
    | _ => false
    end
  end.

Lemma det_unique r pw s n :
  Matches r pw s n -> det r = true ->
  forall m, Matches r pw s m -> n = m.
Proof.
  induction 1 as [pw s|a r pw c s n Ha _ IH|r pw s n Hx Hm IH|a r pw s n Hs IH
                 |a r pw c s n Ha _ IH|a r pw c s n Ha _ IH]; intros Hd m Hm'.
  - by inversion Hm'.
  - inversion Hm'; subst. f_equal. by apply IH.
  - inversion Hm'; subst. by apply IH.
  - simpl in Hd. destruct r as [|[[x| |]| | |] r]; try done.
    apply andb_prop in Hd as [Hx Hd].
    inversion Hm'; subst; [by apply IH|].
    inversion Hs; subst. simpl in *.
    match goal with H : (c =? x) = true |- _ => apply N.eqb_eq in H; subst end.
    by destruct (accepts a x).
  - pose proof Hd as Hd0. simpl in Hd. destruct r as [|[[x| |]| | |] r]; try done.
    apply andb_prop in Hd as [Hx Hd].
    inversion Hm'; subst; [|f_equal; by apply IH].
    match goal with H : Matches (One (Lit x) :: r) _ _ _ |- _ => inversion H; subst end.
    simpl in *.
    match goal with H : (c =? x) = true |- _ => apply N.eqb_eq in H; subst end.
    by destruct (accepts a x).
  - inversion Hm'; subst. f_equal. by apply IH.
Qed.

Lemma re_match_iff r need pw s n :
  det r = true ->
  re_match r need pw s = Some n <->
  Matches r pw s n /\ (need = true -> n <> 0%nat).
Proof.
  intros Hd. split; [apply re_match_sound|].
  intros [Hm Hn].
  destruct (re_match_complete r pw s n Hm need) as [m Hr].
  { destruct need; [right; by apply Hn | by left]. }
  rewrite Hr. f_equal. apply re_match_sound in Hr as [Hr _].
  by apply (det_unique r pw s m Hr Hd).
Qed.

(** ** Text no match can cover

    [alive r need pw z] over-approximates "[r] can match at the head of
    [z ++ y] for some continuation [y]": it follows the pattern through [z]
    and answers [true] as soon as [z] is used up.  [after r] lists the
    states a match can be in once it has taken a character.  A text [z] is
    a [barrier] for [r] when, whatever surrounds it, no match of [r] that
    starts before [z] runs into it and none starts inside it. *)
Fixpoint alive_rep (a : atom) (k : bool -> bool -> text -> bool)
    (need pw : bool) (z : text) : bool :=
  match z with
  | [] => true
  | c :: z' =>
    if k need pw z then true
    else if accepts a c then alive_rep a k false (is_word c) z' else false
  end.

Fixpoint alive (r : regex) (need pw : bool) (z : text) : bool :=
  match r with
  | [] => negb need
  | One a :: r' =>
    match z with
    | [] => true
    | c :: z' => if accepts a c then alive r' false (is_word c) z' else false
    end
  | Star a :: r' => alive_rep a (alive r') need pw z
  | Plus a :: r' =>
    match z with
    | [] => true
    | c :: z' => if accepts a c then alive_rep a (alive r') false (is_word c) z' else false
    end
  | WordB :: r' =>
    match z with
    | [] => alive r' need pw []
    | c :: _ => if xorb pw (is_word c) then alive r' need pw z else false
    end
  end.

Fixpoint after (r : regex) : list regex :=
  match r with
  | [] => []
  | One _ :: r' => r' :: after r'
  | Star a :: r' => (Star a :: r') :: after r'
  | Plus a :: r' => (Star a :: r') :: after r'
  | WordB :: r' => after r'
  end.

Definition begins (r : regex) (z : text) : bool :=
  if alive r true true z then true else alive r true false z.

Definition enters (r : regex) (z : text) : bool :=
  existsb (fun q => begins q z) (after r).

Definition barrier (r : regex) (z : text) : bool :=
  negb (enters r z) &&
  forallb (fun d => negb (begins r (drop d z))) (seq 0 (length z)).

Lemma alive_sound r pw s n :
  Matches r pw s n ->
  forall need z y, s = z ++ y -> need = false \/ n <> 0%nat ->
  alive r need pw z = true.
Proof.
  induction 1 as [pw s|a r pw c s n Ha _ IH|r pw s n Hx Hm IH|a r pw s n _ IH
                 |a r pw c s n Ha _ IH|a r pw c s n Ha _ IH]; intros need z y Hs Hn.
  - destruct Hn as [->|]; done.
  - destruct z as [|d z]; [done|]. simpl in Hs. injection Hs as <- ->.
    simpl. rewrite Ha. apply (IH false z y); [done | by left].
  - destruct z as [|d z]; simpl.
    + by apply (IH need [] y).
    + subst s. simpl in Hx. rewrite Hx. by apply (IH need (d :: z) y).
  - destruct z as [|d z]; [done|]. simpl. by rewrite (IH need (d :: z) y Hs Hn).
  - destruct z as [|d z]; [done|]. simpl in Hs. injection Hs as <- ->.
    simpl. rewrite Ha.
    specialize (IH false z y eq_refl (or_introl eq_refl)). simpl in IH. rewrite IH.
    by destruct (alive r need pw (c :: z)).
  - destruct z as [|d z]; [done|]. simpl in Hs. injection Hs as <- ->.
    simpl. rewrite Ha.
    specialize (IH false z y eq_refl (or_introl eq_refl)). by simpl in IH.
Qed.

(** A match that runs from [x] into [z] is, at the junction, in one of
    the states of [after]. *)
Lemma Matches_split r pw s n :
  Matches r pw s n ->
  forall x z, s = x ++ z -> x <> [] -> (length x <= n)%nat ->
  exists q pw', q ∈ after r /\ Matches q pw' z (n - length x).
Proof.
  induction 1 as [pw s|a r pw c s n Ha Hm IH|r pw s n Hx Hm IH|a r pw s n Hm IH
                 |a r pw c s n Ha Hm IH|a r pw c s n Ha Hm IH]; intros x z Hs Hx0 Hl.
  - destruct x; [done | simpl in Hl; lia].
  - destruct x as [|d x]; [done|]. simpl in Hs. injection Hs as <- ->.
    simpl in Hl. simpl. destruct x as [|e x].
    + exists r, (is_word c). split; [by left|]. simpl. by rewrite Nat.sub_0_r.
    + destruct (IH (e :: x) z eq_refl ltac:(done) ltac:(lia)) as (q & pw' & Hq & Hq').
      exists q, pw'. split; [by right | done].
  - simpl. by apply (IH x z).
  - destruct (IH x z Hs Hx0 Hl) as (q & pw' & Hq & Hq').
    exists q, pw'. split; [by right | done].
  - destruct x as [|d x]; [done|]. simpl in Hs. injection Hs as <- ->.
    simpl in Hl. simpl. destruct x as [|e x].
    + exists (Star a :: r), (is_word c). split; [by left|]. simpl. by rewrite Nat.sub_0_r.
    + by apply (IH (e :: x) z eq_refl ltac:(done) ltac:(lia)).
  - destruct x as [|d x]; [done|]. simpl in Hs. injection Hs as <- ->.
    simpl in Hl. simpl. destruct x as [|e x].
    + exists (Star a :: r), (is_word c). split; [by left|]. simpl. by rewrite Nat.sub_0_r.
    + by apply (IH (e :: x) z eq_refl ltac:(done) ltac:(lia)).
Qed.

Lemma begins_sound r pw z y n :
  Matches r pw (z ++ y) n -> n <> 0%nat -> begins r z = true.
Proof.
  intros Hm Hn. unfold begins.
  pose proof (alive_sound r pw (z ++ y) n Hm true z y eq_refl (or_intror Hn)) as Ha.
  destruct pw; rewrite Ha; [done | by destruct (alive r true true z)].
Qed.

Lemma no_enter r pw x z y n :
  enters r z = false -> x <> [] ->
  Matches r pw (x ++ z ++ y) n -> (n <= length x)%nat.
Proof.
  intros He Hx Hm. destruct (decide (n <= length x)%nat) as [|Hgt]; [done|].
  destruct (Matches_split r pw _ n Hm x (z ++ y) eq_refl Hx ltac:(lia))
    as (q & pw' & Hq & Hq').
  apply begins_sound in Hq'; [|lia].
  assert (enters r z = true); [|congruence].
  apply existsb_exists. exists q. split; [by apply list_elem_of_In | done].
Qed.

Lemma barrier_enters r z : barrier r z = true -> enters r z = false.
Proof. intros [H _]%andb_prop. by apply negb_true_iff. Qed.

Lemma barrier_begins r z z1 z2 :
  barrier r z = true -> z = z1 ++ z2 -> z2 <> [] -> begins r z2 = false.
Proof.
  intros [_ H]%andb_prop -> Hz2. rewrite forallb_forall in H.
  specialize (H (length z1)). rewrite drop_app_length in H.
  apply negb_true_iff, H, in_seq. rewrite length_app.
  destruct z2; [done | simpl; lia].
Qed.

Lemma headed_Matches_pos r pw s n :
  headed r = true -> Matches r pw s n -> n <> 0%nat.
Proof. destruct r as [|[[c|c|]|a|a|] r]; try done. intros _ H. by inversion H. Qed.

Lemma barrier_miss r z z1 z2 y :
  headed r = true -> barrier r z = true -> z = z1 ++ z2 -> z2 <> [] ->
  re_match r false false (z2 ++ y) = None.
Proof.
  intros Hr Hb Hz Hz2.
  destruct (re_match r false false (z2 ++ y)) as [n|] eqn:Hm; [|done].
  apply re_match_sound in Hm as [Hm _].
  pose proof (headed_Matches_pos _ _ _ _ Hr Hm) as Hn.
  apply begins_sound in Hm; [|done].
  by rewrite (barrier_begins r z z1 z2) in Hm.
Qed.

(** Scanning text in which no match starts. *)
Lemma scan_quiet r z y :
  headed r = true ->
  (forall z1 z2, z = z1 ++ z2 -> z2 <> [] -> re_match r false false (z2 ++ y) = None) ->
  scan r false (z ++ y) 0 = map Keep z ++ scan r false y 0.
Proof.
  intros Hr. induction z as [|c z IH]; intros Hq; [done|].
  change ((c :: z) ++ y) with (c :: z ++ y).
  rewrite scan_miss; [|done|by apply (Hq [] (c :: z))].
  simpl. f_equal. apply IH. intros z1 z2 -> Hz2. by apply (Hq (c :: z1)).
Qed.

Lemma next_word_app (x y : list N) : x <> [] -> next_word (x ++ y) = next_word x.
Proof. by destruct x. Qed.

(** What stands before a barrier is scanned as if the text ended with the
    barrier, and the barrier itself is kept. *)
Lemma scan_before_barrier r z a k :
  headed r = true -> barrier r z = true -> (k <= length a)%nat ->
  exists ps, scan r false (a ++ z) k = ps ++ map Keep z.
Proof.
  intros Hr Hb. revert k. induction a as [|c a IH]; intros k Hk.
  - simpl in Hk. replace k with 0%nat by lia. exists [].
    change (scan r false z 0 = map Keep z).
    assert (Hq : scan r false (z ++ []) 0 = map Keep z ++ scan r false [] 0).
    { apply scan_quiet; [done|].
      intros z1 z2 Hz Hz2. by apply (barrier_miss r z z1 z2). }
    by rewrite scan_nil, !app_nil_r in Hq.
  - change ((c :: a) ++ z) with (c :: a ++ z). destruct k as [|k].
    + rewrite scan_try by done.
      destruct (re_match r false false (c :: a ++ z)) as [[|n]|] eqn:Hm.
      * destruct (IH 0%nat ltac:(lia)) as [ps ->]. by exists (Keep c :: ps).
      * apply re_match_sound in Hm as [Hm _].
        rewrite <- (app_nil_r z) in Hm.
        apply (no_enter r false (c :: a) z []) in Hm; [|by apply barrier_enters | done].
        simpl in Hm. destruct (IH n ltac:(lia)) as [ps ->].
        by eexists (Hit _ :: ps).
      * destruct (IH 0%nat ltac:(lia)) as [ps ->]. by exists (Keep c :: ps).
    + rewrite scan_skip by done. simpl in Hk. apply IH. lia.
Qed.

Lemma barrier_junction r z (a2 b : list N) :
  headed r = true -> det r = true -> barrier r z = true -> z <> [] ->
  a2 <> [] ->
  re_match r false false ((a2 ++ z) ++ b) = re_match r false false (a2 ++ z).
Proof.
  intros Hr Hd Hb Hz Ha2.
  assert (Hloc : forall y y' n, Matches r false (a2 ++ z ++ y) n ->
            Matches r false (a2 ++ z ++ y') n).
  { intros y y' n Hm.
    pose proof (no_enter r false a2 z y n (barrier_enters r z Hb) Ha2 Hm) as Hn.
    apply (Matches_local _ _ _ _ Hm).
    - by rewrite !take_app_le by done.
    - rewrite !drop_app_le by done. rewrite !app_assoc.
      rewrite !(next_word_app (drop n a2 ++ z)); [done|by destruct (drop n a2), z..]. }
  destruct (re_match r false false (a2 ++ z)) as [n|] eqn:Hm.
  - apply re_match_iff; [done|]. apply re_match_sound in Hm as [Hm _].
    split; [|done]. rewrite <- app_assoc.
    apply (Hloc [] b). by rewrite app_nil_r.
  - destruct (re_match r false false ((a2 ++ z) ++ b)) as [n|] eqn:Hm'; [|done].
    apply re_match_sound in Hm' as [Hm' _]. rewrite <- app_assoc in Hm'.
    apply (Hloc b []) in Hm'. rewrite app_nil_r in Hm'.
    assert (re_match r false false (a2 ++ z) = Some n); [|congruence].
    by apply re_match_iff.
Qed.

Lemma scan_barrier r z a b :
  headed r = true -> det r = true -> barrier r z = true -> z <> [] ->
  scan r false (a ++ z ++ b) 0 = scan r false (a ++ z) 0 ++ scan r false b 0.
Proof.
  intros Hr Hd Hb Hz. rewrite app_assoc. apply scan_app; [done| |lia].
  intros x1 x2 Hx Hx2.
  destruct (decide (length x1 < length a)%nat) as [Hlt|Hge].
  - (* the match starts in [a] *)
    assert (exists a2, a2 <> [] /\ x2 = a2 ++ z) as (a2 & Ha2 & ->).
    { exists (drop (length x1) a). split.
      - intros Hnil. apply (f_equal length) in Hnil. rewrite length_drop in Hnil.
        simpl in Hnil. lia.
      - apply (f_equal (drop (length x1))) in Hx.
        rewrite drop_app_length, drop_app_le in Hx by lia. done. }
    by apply barrier_junction.
  - (* the match starts in the barrier *)
    assert (exists z1, z = z1 ++ x2) as [z1 Hz1].
    { exists (drop (length a) x1).
      apply (f_equal (drop (length a))) in Hx.
      rewrite drop_app_length in Hx. rewrite Hx.
      by rewrite drop_app_le by lia. }
    rewrite (barrier_miss r z z1 x2 b) by done.
    rewrite <- (app_nil_r x2) at 1. by rewrite (barrier_miss r z z1 x2 []).
Qed.

(** ** Text without a match *)
Definition NoHit (r : regex) (s : text) : Prop :=
  forall s1 s2, s = s1 ++ s2 -> re_match r false false s2 = None.

Lemma NoHit_suffix r (s1 s2 : list N) : NoHit r (s1 ++ s2) -> NoHit r s2.
Proof. intros H t1 t2 ->. apply (H (s1 ++ t1)). by rewrite app_assoc. Qed.

Lemma NoHit_scan r s : headed r = true -> NoHit r s -> scan r false s 0 = map Keep s.
Proof.
  intros Hr Hn.
  assert (Hq : scan r false (s ++ []) 0 = map Keep s ++ scan r false [] 0).
  { apply scan_quiet; [done|]. intros z1 z2 Hz _. rewrite app_nil_r. by apply (Hn z1). }
  by rewrite scan_nil, !app_nil_r in Hq.
Qed.

Lemma emit_keep repl (s : list N) : flat_map (emit repl) (map Keep s) = s.
Proof. induction s as [|c s IH]; [done|]. simpl. by rewrite IH. Qed.

Lemma hits_keep (s : list N) : omap hit_text (map Keep s) = [].
Proof. by induction s. Qed.

Lemma NoHit_sub r repl s : headed r = true -> NoHit r s -> sub r repl s = s.
Proof. intros Hr Hn. unfold sub. by rewrite NoHit_scan, emit_keep. Qed.

Lemma NoHit_findall r s : headed r = true -> NoHit r s -> findall r s = [].
Proof. intros Hr Hn. unfold findall. by rewrite NoHit_scan, hits_keep. Qed.

(** The first match of a text, if it has one. *)
Lemma first_hit r s :
  headed r = true ->
  NoHit r s \/
  exists u w s', s = u ++ w ++ s' /\ w <> [] /\
    (forall u1 u2, u = u1 ++ u2 -> u2 <> [] ->
       re_match r false false (u2 ++ w ++ s') = None) /\
    re_match r false false (w ++ s') = Some (length w).
Proof.
  intros Hr. induction s as [|c s IH].
  - left. intros s1 s2 Hs. symmetry in Hs. apply app_eq_nil in Hs as [_ ->].
    destruct (re_match r false false []) as [n|] eqn:Hm; [|done].
    apply re_match_sound in Hm as [Hm _]. pose proof (Matches_length _ _ _ _ Hm) as Hl.
    apply (headed_Matches_pos _ _ _ _ Hr) in Hm. simpl in Hl. lia.
  - destruct (re_match r false false (c :: s)) as [n|] eqn:Hm.
    + right. exists [], (take n (c :: s)), (drop n (c :: s)).
      pose proof Hm as Hm'. apply re_match_sound in Hm' as [Hm' _].
      pose proof (Matches_length _ _ _ _ Hm') as Hl.
      apply (headed_Matches_pos _ _ _ _ Hr) in Hm'.
      rewrite take_drop. split_and!; [done| |by intros [ | ? ?] [ | ? ?] |].
      * destruct n; [done|]. done.
      * rewrite Hm. f_equal. rewrite length_take. lia.
    + destruct IH as [Hn|(u & w & s' & -> & Hw & Hu & Hm')].
      * left. intros [|d s1] s2 Hs; simpl in Hs.
        { by subst s2. }
        { injection Hs as _ ->. by apply (Hn s1). }
      * right. exists (c :: u), w, s'. split_and!; [done..| |done].
        intros [|d u1] u2 Hu12 Hu2; simpl in Hu12.
        { by subst u2. }
        { injection Hu12 as _ ->. by apply (Hu u1). }
Qed.

Lemma scan_first_hit r u w s' :
  headed r = true -> w <> [] ->
  (forall u1 u2, u = u1 ++ u2 -> u2 <> [] ->
     re_match r false false (u2 ++ w ++ s') = None) ->
  re_match r false false (w ++ s') = Some (length w) ->
  scan r false (u ++ w ++ s') 0 = map Keep u ++ Hit w :: scan r false s' 0.
Proof. intros Hr Hw Hu Hm. by rewrite scan_quiet, scan_hit. Qed.

(** ** Looking past the end of a match

    A pattern without [\b] does not look at what follows the match; a
    pattern of literals closed by [\b] after a word character needs a
    character that is no word character, or the end of the text. *)
Definition is_wordb (i : item) : bool :=
  match i with
  | WordB => true
  | _ => false
  end.

Fixpoint closes (r : regex) (known : bool) : bool :=
  match r with
  | [] => false
  | WordB :: r' => known && match r' with [] => true | _ => false end
  | One (Lit c) :: r' => closes r' (is_word c)
  | _ => false
  end.

Definition la_ok (r : regex) : bool :=
  forallb (fun i => negb (is_wordb i)) r || closes r false.

Lemma Matches_local_free r pw s n :
  Matches r pw s n -> forallb (fun i => negb (is_wordb i)) r = true ->
  forall s', take n s = take n s' -> Matches r pw s' n.
Proof.
  induction 1 as [pw s|a r pw c s n Ha _ IH|r pw s n Hx Hm IH|a r pw s n _ IH
                 |a r pw c s n Ha _ IH|a r pw c s n Ha _ IH]; intros Hf s' Ht;
    simpl in Hf; try done.
  - constructor.
  - destruct s' as [|c' s']; [done|]. simpl in Ht. injection Ht as <- Ht.
    constructor; [done|]. by apply IH.
  - apply M_star_stop. by apply IH.
  - destruct s' as [|c' s']; [done|]. simpl in Ht. injection Ht as <- Ht.
    apply M_star_step; [done|]. by apply IH.
  - destruct s' as [|c' s']; [done|]. simpl in Ht. injection Ht as <- Ht.
    apply M_plus; [done|]. by apply IH.
Qed.

Lemma closes_sound r : forall known pw s n,
  closes r known = true -> (known = true -> pw = true) ->
  Matches r pw s n -> next_word (drop n s) = false.
Proof.
  induction r as [|[[c|c|]|a|a|] r IH]; intros known pw s n Hc Hk Hm; try done.
  - simpl in Hc. inversion Hm; subst. simpl in *.
    match goal with H : (_ =? c) = true |- _ => apply N.eqb_eq in H; subst end.
    by apply (IH (is_word c) (is_word c)).
  - simpl in Hc. apply andb_prop in Hc as [-> Hr]. destruct r; [|done].
    inversion Hm; subst.
    match goal with H : Matches [] _ _ _ |- _ => inversion H; subst end.
    rewrite Hk in * by done. rewrite drop_0. by destruct (next_word s).
Qed.

Lemma la_ok_sound r pw s n s' :
  la_ok r = true -> Matches r pw s n ->
  take n s = take n s' -> next_word (drop n s) = true ->
  Matches r pw s' n.
Proof.
  intros [Hf|Hc]%orb_prop Hm Ht Hd.
  - by apply (Matches_local_free r pw s n).
  - by rewrite (closes_sound r false pw s n) in Hd.
Qed.

(** ** One rule after another keeps texts without matches

    When the replacement of a rule is a barrier for the pattern [r], starts
    with a word character, and [r] is of one of the two kinds above, a run
    of the rule creates no match of [r]: and it leaves none of its own. *)
Lemma stable_step r rk repl :
  headed r = true -> headed rk = true -> det r = true -> la_ok r = true ->
  barrier r repl = true -> next_word repl = true ->
  forall s, NoHit r s \/ r = rk -> NoHit r (sub rk repl s).
Proof.
  intros Hr Hrk Hd Hla Hb Hw s.
  assert (Hrepl : repl <> []) by (by destruct repl).
  remember (length s) as m eqn:Hlen. revert s Hlen.
  induction m as [m IH] using lt_wf_ind. intros s -> Hs.
  destruct (first_hit rk s Hrk) as [Hn|(u & w & s' & -> & Hw0 & Hu & Hm)].
  { rewrite NoHit_sub by done. by destruct Hs as [ | -> ]. }
  assert (Hsub : sub rk repl (u ++ w ++ s') = u ++ repl ++ sub rk repl s').
  { unfold sub. rewrite scan_first_hit by done.
    rewrite flat_map_app, emit_keep. done. }
  rewrite Hsub.
  assert (Htail : NoHit r (sub rk repl s')).
  { apply (IH (length s')); [rewrite !length_app; destruct w; [done|simpl; lia] | done |].
    destruct Hs as [Hs | -> ]; [left | by right].
    rewrite app_assoc in Hs. by apply NoHit_suffix in Hs. }
  assert (Hfront : forall u1 u2, u = u1 ++ u2 -> u2 <> [] ->
            re_match r false false (u2 ++ w ++ s') = None).
  { destruct Hs as [Hs | -> ]; [|done].
    intros u1 u2 -> _. apply (Hs u1). by rewrite <- app_assoc. }
  intros t1 t2 Ht.
  apply app_eq_app in Ht as [l [[-> ->]|[-> Ht]]].
  - (* the suffix starts in [u] *)
    destruct l as [|c l]; [by (simpl; apply (barrier_miss r repl [] repl)) |].
    destruct (re_match r false false ((c :: l) ++ repl ++ sub rk repl s')) as [n|] eqn:Hm'; [|done].
    apply re_match_sound in Hm' as [Hm' _].
    pose proof (no_enter r false (c :: l) repl _ n (barrier_enters r repl Hb) ltac:(done) Hm') as Hn.
    assert (Hm2 : Matches r false ((c :: l) ++ w ++ s') n).
    { destruct (decide (n = length (c :: l))) as [->|Hne].
      - apply (la_ok_sound r false _ _ _ Hla Hm').
        + by rewrite !take_app_length.
        + rewrite drop_app_length. by rewrite next_word_app.
      - apply (Matches_local _ _ _ _ Hm').
        + by rewrite !take_app_le by done.
        + rewrite !drop_app_le by done.
          assert (drop n (c :: l) <> []).
          { intros Hnil. apply (f_equal length) in Hnil.
            rewrite length_drop in Hnil. simpl in Hnil, Hn, Hne. lia. }
          by rewrite !next_word_app. }
    destruct (re_match_complete r false _ n Hm2 false (or_introl eq_refl)) as [n' Hn'].
    by rewrite (Hfront t1 (c :: l) eq_refl) in Hn'.
  - (* the suffix starts in the replacement or behind it *)
    apply app_eq_app in Ht as [l' [[-> ->]|[-> Ht]]].
    + destruct l' as [|c l']; [simpl; by apply (Htail [])|].
      by apply (barrier_miss r (l ++ c :: l') l (c :: l')).
    + by apply (Htail l').
Qed.

(** ** Cutting a text at a junction or at a barrier *)
Lemma sub_of_scan r repl (a b : list N) :
  scan r false (a ++ b) 0 = scan r false a 0 ++ scan r false b 0 ->
  sub r repl (a ++ b) = sub r repl a ++ sub r repl b /\
  findall r (a ++ b) = findall r a ++ findall r b.
Proof. intros H. unfold sub, findall. by rewrite H, flat_map_app, omap_app. Qed.

(** What follows [a2] does not change the match at the head of [a2] when
    no match runs from [a2] into it and either the pattern does not look
    ahead or it sees no word character there, as at the end of a text. *)
Lemma junction r (b a2 y : list N) :
  headed r = true -> det r = true -> enters r b = false ->
  forallb (fun i => negb (is_wordb i)) r = true \/ (b <> [] /\ next_word b = false) ->
  a2 <> [] ->
  re_match r false false (a2 ++ b ++ y) = re_match r false false a2.
Proof.
  intros Hr Hd He Hla Ha2.
  assert (Hto : forall n, Matches r false (a2 ++ b ++ y) n -> Matches r false a2 n).
  { intros n Hm. pose proof (no_enter r false a2 b y n He Ha2 Hm) as Hn.
    destruct Hla as [Hf|[Hb Hw]].
    - apply (Matches_local_free _ _ _ _ Hm Hf). by rewrite take_app_le.
    - apply (Matches_local _ _ _ _ Hm); [by rewrite take_app_le|].
      rewrite drop_app_le by done.
      destruct (drop n a2) as [|c l] eqn:Hdr; [|done].
      simpl. by rewrite next_word_app. }
  assert (Hfrom : forall n, Matches r false a2 n -> Matches r false (a2 ++ b ++ y) n).
  { intros n Hm. pose proof (Matches_length _ _ _ _ Hm) as Hn.
    destruct Hla as [Hf|[Hb Hw]].
    - apply (Matches_local_free _ _ _ _ Hm Hf). by rewrite take_app_le.
    - apply (Matches_local _ _ _ _ Hm); [by rewrite take_app_le|].
      rewrite drop_app_le by done.
      destruct (drop n a2) as [|c l] eqn:Hdr; [|done].
      simpl. by rewrite next_word_app. }
  destruct (re_match r false false a2) as [n|] eqn:Hm.
  - apply re_match_iff; [done|]. apply re_match_sound in Hm as [Hm _]. split; [|done].
    by apply Hfrom.
  - destruct (re_match r false false (a2 ++ b ++ y)) as [n|] eqn:Hm'; [|done].
    apply re_match_sound in Hm' as [Hm' _]. apply Hto in Hm'.
    assert (re_match r false false a2 = Some n); [|congruence].
    by apply re_match_iff.
Qed.

Lemma scan_junction r (a b y : list N) :
  headed r = true -> det r = true -> enters r b = false ->
  forallb (fun i => negb (is_wordb i)) r = true \/ (b <> [] /\ next_word b = false) ->
  scan r false (a ++ b ++ y) 0 = scan r false a 0 ++ scan r false (b ++ y) 0.
Proof.
  intros Hr Hd He Hla. apply scan_app; [done| |lia].
  intros a1 a2 _ Ha2. by apply junction.
Qed.

Lemma barrier_NoHit r z : headed r = true -> barrier r z = true -> NoHit r z.
Proof.
  intros Hr Hb z1 z2 Hz.
  destruct z2 as [|c z2].
  - destruct (re_match r false false []) as [n|] eqn:Hm; [|done].
    apply re_match_sound in Hm as [Hm _]. pose proof (Matches_length _ _ _ _ Hm) as Hl.
    apply (headed_Matches_pos _ _ _ _ Hr) in Hm. simpl in Hl. lia.
  - rewrite <- (app_nil_r (c :: z2)). by apply (barrier_miss r z z1).
Qed.

(** A barrier cuts the work of a rule in two: what stands before the
    barrier is rewritten as if the text ended with the barrier, the barrier
    stays, and what follows is rewritten on its own. *)
Lemma sub_barrier r repl z (a b : list N) :
  headed r = true -> det r = true -> barrier r z = true -> z <> [] ->
  sub r repl (a ++ z ++ b) = sub r repl (a ++ z) ++ sub r repl b /\
  findall r (a ++ z ++ b) = findall r (a ++ z) ++ findall r b /\
  exists a', sub r repl (a ++ z) = a' ++ z.
Proof.
  intros Hr Hd Hb Hz.
  pose proof (scan_barrier r z a b Hr Hd Hb Hz) as Hs.
  rewrite app_assoc in Hs |- *. destruct (sub_of_scan r repl _ _ Hs) as [-> ->].
  split_and!; [done..|].
  destruct (scan_before_barrier r z a 0 Hr Hb ltac:(lia)) as [ps Hps].
  exists (flat_map (emit repl) ps). unfold sub.
  by rewrite Hps, flat_map_app, emit_keep.
Qed.

(** * The rule table, compiled *)
Definition compile_rule (rule : string * string) : option (regex * text) :=
  r ← re_compile (txt rule.1); Some (r, txt rule.2).

Definition rules : list (regex * text) := omap compile_rule color_replacements.

(** The loop body and the loop of [fix_colors_in_file], on compiled rules. *)
Definition step (rule : regex * text) (st : text * nat) : text * nat :=
  let new_content := sub rule.1 rule.2 st.1 in
  if bool_decide (new_content <> st.1)
  then (new_content, (st.2 + length (findall rule.1 st.1))%nat)
  else st.

Definition run_rules (rs : list (regex * text)) (st : text * nat) : text * nat :=
  foldl (fun st rule => step rule st) st rs.

(** The text the rules make of [s], and the number of matches they count:
    each rule works on the text the rules before it left. *)
Fixpoint subs (rs : list (regex * text)) (s : text) : text :=
  match rs with
  | [] => s
  | rule :: rs' => subs rs' (sub rule.1 rule.2 s)
  end.

Fixpoint match_total (rs : list (regex * text)) (s : text) : nat :=
  match rs with
  | [] => 0%nat
  | rule :: rs' => (length (findall rule.1 s) + match_total rs' (sub rule.1 rule.2 s))%nat
  end.

Definition head_differs (r : regex) (repl : text) : bool :=
  match r, repl with
  | One (Lit c) :: _, d :: _ => negb (c =? d)
  | _, _ => false
  end.

Definition good_rule (rule : regex * text) : bool :=
  headed rule.1 && det rule.1 && la_ok rule.1 && next_word rule.2 &&
  head_differs rule.1 rule.2.

Lemma rules_compile : length rules = length color_replacements.
Proof. vm_compute. reflexivity. Qed.

Lemma rules_good : forallb good_rule rules = true.
Proof. vm_compute. reflexivity. Qed.

Lemma rules_barrier :
  forallb (fun rj => forallb (fun rk => barrier rj.1 rk.2) rules) rules = true.
Proof. vm_compute. reflexivity. Qed.

Lemma good_rule_spec rule :
  good_rule rule = true ->
  headed rule.1 = true /\ det rule.1 = true /\ la_ok rule.1 = true /\
  next_word rule.2 = true /\ head_differs rule.1 rule.2 = true.
Proof. unfold good_rule. rewrite !andb_true_iff. tauto. Qed.

Lemma rules_good_in rule : rule ∈ rules -> good_rule rule = true.
Proof.
  intros Hin. pose proof rules_good as H. rewrite forallb_forall in H.
  by apply H, list_elem_of_In.
Qed.

Lemma rules_barrier_in rj rk :
  rj ∈ rules -> rk ∈ rules -> barrier rj.1 rk.2 = true.
Proof.
  intros Hj Hk. pose proof rules_barrier as H. rewrite forallb_forall in H.
  apply list_elem_of_In, H in Hj. rewrite forallb_forall in Hj.
  by apply Hj, list_elem_of_In.
Qed.

(** A rule that leaves the text as it is found no match. *)
Lemma sub_fixed_NoHit r repl s :
  headed r = true -> head_differs r repl = true ->
  sub r repl s = s -> NoHit r s.
Proof.
  intros Hr Hh Hs. destruct (first_hit r s Hr) as [|(u & w & s' & -> & Hw & Hu & Hm)]; [done|].
  exfalso. unfold sub in Hs. rewrite scan_first_hit in Hs by done.
  rewrite flat_map_app, emit_keep in Hs. apply app_inv_head in Hs. simpl in Hs.
  destruct r as [|[[c| |]| | |] r]; try done.
  destruct repl as [|d repl]; [done|]. simpl in Hh.
  destruct w as [|e w]; [done|]. simpl in Hs, Hm. injection Hs as -> _.
  destruct (e =? c) eqn:He; [|done]. apply N.eqb_eq in He as ->.
  by rewrite N.eqb_refl in Hh.
Qed.

Lemma step_good rule s n :
  good_rule rule = true ->
  step rule (s, n) = (sub rule.1 rule.2 s, (n + length (findall rule.1 s))%nat).
Proof.
  intros (Hr & _ & _ & _ & Hh)%good_rule_spec. unfold step. simpl.
  case_bool_decide as Hs; [done|].
  rewrite Hs.
  apply sub_fixed_NoHit in Hs; [|done..].
  rewrite NoHit_findall by done. simpl. by rewrite Nat.add_0_r.
Qed.

Lemma run_rules_good rs : forall s n,
  forallb good_rule rs = true ->
  run_rules rs (s, n) = (subs rs s, (n + match_total rs s)%nat).
Proof.
  induction rs as [|rule rs IH]; intros s n Hg; simpl.
  - by rewrite Nat.add_0_r.
  - apply andb_prop in Hg as [Hg Hgs]. unfold run_rules in *. simpl.
    rewrite step_good, IH by done. f_equal. lia.
Qed.

(** ** Idempotence of the table *)
Lemma subs_keeps_NoHit r rs :
  r ∈ rules -> Forall (fun rule => rule ∈ rules) rs ->
  forall s, NoHit r.1 s -> NoHit r.1 (subs rs s).
Proof.
  intros Hr Hrs. induction Hrs as [|rk rs Hk _ IH]; intros s Hs; [done|].
  simpl. apply IH.
  destruct (good_rule_spec _ (rules_good_in r Hr)) as (? & ? & ? & _).
  destruct (good_rule_spec _ (rules_good_in rk Hk)) as (? & _ & _ & ? & _).
  apply stable_step; [done..| by apply rules_barrier_in | done | by left].
Qed.

Lemma subs_quiet rs :
  Forall (fun rule => rule ∈ rules) rs ->
  forall s, Forall (fun rule => NoHit rule.1 (subs rs s)) rs.
Proof.
  intros Hrs. induction Hrs as [|rk rs Hk Hrs IH]; intros s; [done|].
  simpl. constructor; [|by apply IH].
  apply subs_keeps_NoHit; [done..|].
  destruct (good_rule_spec _ (rules_good_in rk Hk)) as (? & ? & ? & ? & _).
  apply stable_step; [done..| by apply rules_barrier_in | done | by right].
Qed.

Lemma subs_fixed rs s :
  Forall (fun rule => headed rule.1 = true) rs ->
  Forall (fun rule => NoHit rule.1 s) rs ->
  subs rs s = s /\ match_total rs s = 0%nat.
Proof.
  intros Hh Hn. induction Hn as [|rule rs Hr _ IH]; [done|].
  apply Forall_cons in Hh as [Hh Hhs]. simpl.
  rewrite NoHit_sub, NoHit_findall by done. by apply IH.
Qed.

Lemma rules_in : Forall (fun rule => rule ∈ rules) rules.
Proof. by apply Forall_forall. Qed.

Lemma rules_headed : Forall (fun rule => headed rule.1 = true) rules.
Proof.
  apply Forall_forall. intros rule Hin.
  by destruct (good_rule_spec _ (rules_good_in rule Hin)) as (? & _).
Qed.

Lemma subs_idempotent s :
  subs rules (subs rules s) = subs rules s /\
  match_total rules (subs rules s) = 0%nat.
Proof. apply subs_fixed; [apply rules_headed | apply subs_quiet, rules_in]. Qed.

(** ** Barriers and the whole table *)
Definition walled (z : text) (rule : regex * text) : Prop :=
  headed rule.1 = true /\ det rule.1 = true /\ barrier rule.1 z = true.

Lemma subs_barrier rs z :
  Forall (walled z) rs -> z <> [] ->
  forall a b,
    subs rs (a ++ z ++ b) = subs rs (a ++ z) ++ subs rs b /\
    match_total rs (a ++ z ++ b) = (match_total rs (a ++ z) + match_total rs b)%nat /\
    exists a', subs rs (a ++ z) = a' ++ z.
Proof.
  intros Hrs Hz. induction Hrs as [|rule rs (Hr & Hd & Hb) _ IH]; intros a b.
  - simpl. split_and!; [by rewrite app_assoc | done | by exists a].
  - simpl.
    destruct (sub_barrier rule.1 rule.2 z a b Hr Hd Hb Hz) as (-> & -> & a' & Ha').
    rewrite Ha'. rewrite <- app_assoc.
    destruct (IH a' (sub rule.1 rule.2 b)) as (-> & -> & a'' & Ha'').
    split_and!; [done| |by exists a''].
    rewrite length_app. lia.
Qed.

Lemma subs_behind_barrier rs z b :
  Forall (walled z) rs -> z <> [] ->
  subs rs (z ++ b) = z ++ subs rs b /\
  match_total rs (z ++ b) = match_total rs b.
Proof.
  intros Hrs Hz.
  destruct (subs_barrier rs z Hrs Hz [] b) as (H1 & H2 & _). simpl in H1, H2.
  assert (Hq : subs rs z = z /\ match_total rs z = 0%nat).
  { apply subs_fixed.
    - eapply Forall_impl; [exact Hrs|]. by intros rule (? & _).
    - eapply Forall_impl; [exact Hrs|]. intros rule (? & _ & ?). by apply barrier_NoHit. }
  destruct Hq as [Hq1 Hq2]. by rewrite H1, H2, Hq1, Hq2.
Qed.

Lemma walled_check z rs :
  forallb (fun rule => headed rule.1 && det rule.1 && barrier rule.1 z) rs = true ->
  Forall (walled z) rs.
Proof.
  rewrite forallb_forall. intros H. apply Forall_forall. intros rule Hin.
  apply list_elem_of_In, H in Hin. by apply andb_prop in Hin as [[? ?]%andb_prop ?].
Qed.

(** ** Bare tokens: literals closed by a word boundary *)
Fixpoint literal_of (r : regex) : text :=
  match r with
  | One (Lit c) :: r' => c :: literal_of r'
  | _ => []
  end.

Definition bare_ok (r : regex) : bool :=
  let tok := literal_of r in
  headed r && det r && closes r false && negb (enters r tok) &&
  negb (next_word tok) &&
  forallb (fun d => negb (begins r (drop d tok))) (seq 1 (length tok - 1)) &&
  bool_decide (re_match r false false tok = Some (length tok)) &&
  bool_decide (S (length tok) = length r).

Lemma closes_length r : forall known pw s n,
  closes r known = true -> Matches r pw s n -> S n = length r.
Proof.
  induction r as [|[[c|c|]|a|a|] r IH]; intros known pw s n Hc Hm; try done.
  - simpl in Hc. inversion Hm; subst. simpl. f_equal. by eapply IH.
  - simpl in Hc. apply andb_prop in Hc as [_ Hr]. destruct r; [|done].
    inversion Hm; subst.
    by match goal with H : Matches [] _ _ _ |- _ => inversion H; subst end.
Qed.

Lemma bare_match r post :
  bare_ok r = true ->
  re_match r false false (literal_of r ++ post) =
    if next_word post then None else Some (length (literal_of r)).
Proof.
  unfold bare_ok. rewrite !andb_true_iff, !bool_decide_eq_true.
  intros (((((((Hr & Hd) & Hc) & He) & Hw) & Hb) & Hm) & Hl).
  destruct (next_word post) eqn:Hp.
  - destruct (re_match r false false (literal_of r ++ post)) as [n|] eqn:Hm'; [|done].
    apply re_match_sound in Hm' as [Hm' _].
    pose proof (closes_length _ _ _ _ _ Hc Hm') as Hn.
    pose proof (closes_sound r false false _ n Hc ltac:(done) Hm') as Hla.
    assert (n = length (literal_of r)) as -> by lia.
    rewrite drop_app_length in Hla. congruence.
  - apply re_match_iff; [done|]. split; [|done].
    apply re_match_sound in Hm as [Hm _].
    apply (Matches_local _ _ _ _ Hm).
    + by rewrite take_app_length, take_ge.
    + by rewrite drop_app_length, drop_ge.
Qed.

Lemma bare_scan r pre post :
  bare_ok r = true ->
  scan r false (pre ++ literal_of r ++ post) 0 =
    scan r false pre 0 ++
    (if next_word post then map Keep (literal_of r) else [Hit (literal_of r)]) ++
    scan r false post 0.
Proof.
  intros Hok. pose proof (bare_match r post Hok) as Hmatch. revert Hok.
  unfold bare_ok. rewrite !andb_true_iff, !bool_decide_eq_true, !negb_true_iff.
  intros (((((((Hr & Hd) & Hc) & He) & Hw) & Hb) & Hm) & Hl).
  assert (Htok : literal_of r <> []).
  { intros Hnil. rewrite Hnil in Hm. simpl in Hm.
    by apply (headed_nonempty r false false []) in Hm. }
  rewrite scan_junction; [|done..|right; by split]. f_equal.
  destruct (next_word post) eqn:Hp.
  - apply scan_quiet; [done|]. intros z1 z2 Hz Hz2.
    destruct z1 as [|c z1]; [simpl in Hz; by subst z2|].
    destruct (re_match r false false (z2 ++ post)) as [n|] eqn:Hm'; [|done].
    apply re_match_sound in Hm' as [Hm' _].
    pose proof (headed_Matches_pos _ _ _ _ Hr Hm') as Hn.
    apply begins_sound in Hm'; [|done].
    rewrite forallb_forall in Hb. specialize (Hb (length (c :: z1))).
    rewrite Hz, drop_app_length, Hm' in Hb.
    assert (negb true = true); [|done]. apply Hb, in_seq.
    rewrite length_app. destruct z2; [done | simpl; lia].
  - by apply scan_hit.
Qed.

Definition is_hex (c : char) : bool :=
  between 48 57 c || between 97 102 c || between 65 70 c.

Lemma hex_is_word c : is_hex c = true -> is_word c = true.
Proof.
  unfold is_hex, is_word, between.
  rewrite !orb_true_iff, !andb_true_iff, !N.leb_le. intros H.
  destruct (c <? 128) eqn:Hc; [|apply N.ltb_ge in Hc; lia].
  rewrite !orb_true_iff, !andb_true_iff, !N.leb_le. lia.
Qed.

(** The rules of the table that are bare tokens, by their tokens. *)
Definition bare_rules : list (regex * text) :=
  filter (fun rule => closes rule.1 false = true) rules.

Lemma bare_rules_ok : forallb (fun rule => bare_ok rule.1) bare_rules = true.
Proof. vm_compute. reflexivity. Qed.

Lemma bare_rules_tokens :
  map (fun rule => (literal_of rule.1, rule.2)) bare_rules =
    [ (txt "#9333ea", txt "var(--primary)");
      (txt "#a855f7", txt "var(--primary-light)");
      (txt "#c084fc", txt "var(--primary-lighter)");
      (txt "#7c3aed", txt "var(--primary-dark)");
      (txt "#f3e8ff", txt "var(--primary-bg-light)");
      (txt "#faf5ff", txt "var(--primary-bg-lighter)");
      (txt "#e9d5ff", txt "var(--primary-border)") ].
Proof. vm_compute. reflexivity. Qed.

(** C4, as amended.  For every bare-token rule of the table (a 6-digit
    colour closed by a word boundary) and every text around an occurrence
    of the token: when a word character follows the token (a letter, a
    digit or an underscore, so also a further hex digit), the rule does not
    match there and the token stays; when the text ends after the token or
    a character that is no word character follows, the rule matches there
    and the replacement stands in the place of the token.  The text before
    and the text after are rewritten on their own in both cases. *)
Theorem bare_token_boundary rule pre post :
  rule ∈ bare_rules ->
  let r := rule.1 in
  let tok := literal_of rule.1 in
  (next_word post = true ->
     re_match r false false (tok ++ post) = None /\
     sub r rule.2 (pre ++ tok ++ post) = sub r rule.2 pre ++ tok ++ sub r rule.2 post) /\
  (next_word post = false ->
     re_match r false false (tok ++ post) = Some (length tok) /\
     sub r rule.2 (pre ++ tok ++ post) = sub r rule.2 pre ++ rule.2 ++ sub r rule.2 post) /\
  (forall c post', post = c :: post' -> is_hex c = true -> next_word post = true).
Proof.
  intros Hin r tok. subst r tok.
  assert (Hok : bare_ok rule.1 = true).
  { pose proof bare_rules_ok as H. rewrite forallb_forall in H.
    by apply (H rule), list_elem_of_In. }
  pose proof (bare_match rule.1 post Hok) as Hm.
  pose proof (bare_scan rule.1 pre post Hok) as Hs.
  split_and!.
  - intros Hp. rewrite Hp in Hm, Hs. split; [done|].
    unfold sub. rewrite Hs, !flat_map_app. by rewrite emit_keep.
  - intros Hp. rewrite Hp in Hm, Hs. split; [done|].
    unfold sub. rewrite Hs, !flat_map_app. simpl. by rewrite app_nil_r.
  - intros c post' -> Hc. simpl. by apply hex_is_word.
Qed.

(** ** Two scenarios on the whole table *)
Definition rule_at (i : nat) : regex * text := default ([], []) (rules !! i).

Definition gradient_rule : regex * text := rule_at 0.
Definition primary_rule : regex * text := rule_at 1.

Definition gradient_text : text :=
  txt "linear-gradient(135deg, #a855f7 0%, #9333ea 100%)".
Definition gradient_var : text := txt "var(--primary-gradient)".

Definition later_rules : list (regex * text) := drop 1 rules.
Definition rest_rules : list (regex * text) := drop 2 rules.

Lemma rules_first : rules = gradient_rule :: later_rules.
Proof. vm_compute. reflexivity. Qed.

Lemma rules_second : later_rules = primary_rule :: rest_rules.
Proof. vm_compute. reflexivity. Qed.

#[local] Opaque later_rules rest_rules.

Lemma subs_cons rule rs s : subs (rule :: rs) s = subs rs (sub rule.1 rule.2 s).
Proof. done. Qed.

Lemma match_total_cons rule rs s :
  match_total (rule :: rs) s =
    (length (findall rule.1 s) + match_total rs (sub rule.1 rule.2 s))%nat.
Proof. done. Qed.

Lemma gradient_rule_source :
  compile_rule
    ("linear-gradient\(135deg,\s*#a855f7\s+0%,\s*#9333ea\s+100%\)"%string,
     "var(--primary-gradient)"%string) = Some gradient_rule.
Proof. vm_compute. reflexivity. Qed.

Lemma primary_rule_source :
  compile_rule ("#9333ea\b"%string, "var(--primary)"%string) = Some primary_rule.
Proof. vm_compute. reflexivity. Qed.

Lemma gradient_facts :
  headed gradient_rule.1 = true /\ det gradient_rule.1 = true /\
  forallb (fun i => negb (is_wordb i)) gradient_rule.1 = true /\
  enters gradient_rule.1 gradient_text = false /\
  re_match gradient_rule.1 false false gradient_text = Some (length gradient_text) /\
  gradient_rule.2 = gradient_var /\
  forallb (fun rule => headed rule.1 && det rule.1 && barrier rule.1 gradient_var)
    later_rules = true /\
  subs later_rules gradient_var = gradient_var.
Proof. split_and!; vm_compute; reflexivity. Qed.

(** A text that holds the gradient expression
    [linear-gradient(135deg, #a855f7 0%, #9333ea 100%)]: the first rule of
    the table finds the whole expression as one match, between the matches
    of the text before and of the text after, and puts
    [var(--primary-gradient)] in its place; the rules that follow leave
    that replacement alone. *)
Lemma gradient_in_text pre post :
  scan gradient_rule.1 false (pre ++ gradient_text ++ post) 0 =
    scan gradient_rule.1 false pre 0 ++
    Hit gradient_text :: scan gradient_rule.1 false post 0 /\
  sub gradient_rule.1 gradient_rule.2 (pre ++ gradient_text ++ post) =
    sub gradient_rule.1 gradient_rule.2 pre ++ gradient_var ++
    sub gradient_rule.1 gradient_rule.2 post /\
  subs rules (pre ++ gradient_text ++ post) =
    subs rules (pre ++ gradient_text) ++ subs rules post /\
  (exists pre', subs rules (pre ++ gradient_text) = pre' ++ gradient_var) /\
  subs rules (gradient_text ++ post) = gradient_var ++ subs rules post.
Proof.
  destruct gradient_facts as (Hr & Hd & Hf & He & Hm & Hrepl & Hrest & Hfix).
  apply walled_check in Hrest.
  assert (Hvar : gradient_var <> []) by done.
  assert (Hscan : forall a b,
    scan gradient_rule.1 false (a ++ gradient_text ++ b) 0 =
      scan gradient_rule.1 false a 0 ++
      Hit gradient_text :: scan gradient_rule.1 false b 0).
  { intros a b. rewrite scan_junction; [|done..|by left].
    rewrite (scan_hit gradient_rule.1 gradient_text b Hr); [done|done|].
    apply re_match_iff; [done|]. split; [|done].
    apply re_match_sound in Hm as [Hm _].
    apply (Matches_local_free _ _ _ _ Hm Hf).
    by rewrite take_app_length, take_ge. }
  assert (Hsub : forall a b,
    sub gradient_rule.1 gradient_rule.2 (a ++ gradient_text ++ b) =
      sub gradient_rule.1 gradient_rule.2 a ++ gradient_var ++
      sub gradient_rule.1 gradient_rule.2 b).
  { intros a b. unfold sub. rewrite Hscan, flat_map_app, Hrepl. reflexivity. }
  assert (Hone : forall s, subs rules s =
            subs later_rules (sub gradient_rule.1 gradient_rule.2 s)).
  { intros s. rewrite rules_first, subs_cons. reflexivity. }
  assert (Hsub0 : sub gradient_rule.1 gradient_rule.2 [] = []).
  { vm_compute. reflexivity. }
  assert (Hend : forall a, subs rules (a ++ gradient_text) =
            subs later_rules (sub gradient_rule.1 gradient_rule.2 a ++ gradient_var)).
  { intros a. rewrite Hone. pose proof (Hsub a []) as H.
    rewrite Hsub0, !app_nil_r in H. rewrite H. reflexivity. }
  split_and!; [done..| | |].
  - rewrite Hend, (Hone (pre ++ gradient_text ++ post)), (Hone post), Hsub, app_assoc.
    rewrite <- (app_assoc _ gradient_var).
    by destruct (subs_barrier _ _ Hrest Hvar (sub gradient_rule.1 gradient_rule.2 pre)
                   (sub gradient_rule.1 gradient_rule.2 post)) as (-> & _).
  - rewrite Hend.
    by destruct (subs_barrier _ _ Hrest Hvar (sub gradient_rule.1 gradient_rule.2 pre) [])
      as (_ & _ & ?).
  - rewrite (Hone (gradient_text ++ post)), (Hone post). pose proof (Hsub [] post) as H.
    rewrite Hsub0 in H. rewrite !app_nil_l in H. rewrite H.
    destruct (subs_behind_barrier _ _ (sub gradient_rule.1 gradient_rule.2 post)
                Hrest Hvar) as [-> _]. done.
Qed.

Lemma sub_behind_barrier r repl z (b : list N) :
  headed r = true -> det r = true -> barrier r z = true -> z <> [] ->
  sub r repl (z ++ b) = z ++ sub r repl b /\
  findall r (z ++ b) = findall r b.
Proof.
  intros Hr Hd Hb Hz.
  destruct (sub_barrier r repl z [] b Hr Hd Hb Hz) as (H1 & H2 & _).
  simpl in H1, H2. pose proof (barrier_NoHit r z Hr Hb) as Hn.
  by rewrite H1, H2, NoHit_sub, NoHit_findall.
Qed.

Lemma sub_of_hit r repl w (s y : list N) :
  scan r false s 0 = Hit w :: scan r false y 0 ->
  sub r repl s = repl ++ sub r repl y /\ findall r s = w :: findall r y.
Proof. intros H. unfold sub, findall. by rewrite H. Qed.

Lemma primary_facts :
  forallb (fun rule => headed rule.1 && det rule.1 && barrier rule.1 (txt "color: "))
    rules = true /\
  headed gradient_rule.1 && det gradient_rule.1 &&
    barrier gradient_rule.1 (txt "#9333ea;") = true /\
  bare_ok primary_rule.1 = true /\
  literal_of primary_rule.1 = txt "#9333ea" /\
  primary_rule.2 = txt "var(--primary)" /\
  headed primary_rule.1 && det primary_rule.1 && barrier primary_rule.1 (txt ";") = true /\
  forallb (fun rule => headed rule.1 && det rule.1 && barrier rule.1 (txt "var(--primary);"))
    rest_rules = true.
Proof. split_and!; vm_compute; reflexivity. Qed.

(** Behind the declaration: the token, the semicolon and the rest. *)
Lemma primary_token_rewritten post :
  subs rules (txt "#9333ea;" ++ post) = txt "var(--primary);" ++ subs rules post /\
  match_total rules (txt "#9333ea;" ++ post) = S (match_total rules post).
Proof.
  destruct primary_facts as (_ & Hg & Hok & Htok & Hrepl & Hsemi & Hrest).
  apply andb_prop in Hg as [[Hg1 Hg2]%andb_prop Hg3].
  apply andb_prop in Hsemi as [[Hs1 Hs2]%andb_prop Hs3].
  apply walled_check in Hrest.
  rewrite rules_first, !subs_cons, !match_total_cons.
  rewrite rules_second, !subs_cons, !match_total_cons.
  destruct (sub_behind_barrier gradient_rule.1 gradient_rule.2 (txt "#9333ea;") post)
    as [-> ->]; [done..|].
  set (p1 := sub gradient_rule.1 gradient_rule.2 post).
  assert (Hscan : scan primary_rule.1 false (txt "#9333ea;" ++ p1) 0 =
            Hit (txt "#9333ea") :: scan primary_rule.1 false (txt ";" ++ p1) 0).
  { pose proof (bare_scan primary_rule.1 [] (txt ";" ++ p1) Hok) as H.
    rewrite Htok in H. rewrite scan_nil in H by done. exact H. }
  assert (H2 : sub primary_rule.1 primary_rule.2 (txt "#9333ea;" ++ p1) =
            txt "var(--primary);" ++ sub primary_rule.1 primary_rule.2 p1 /\
          findall primary_rule.1 (txt "#9333ea;" ++ p1) =
            txt "#9333ea" :: findall primary_rule.1 p1).
  { destruct (sub_of_hit primary_rule.1 primary_rule.2 _ _ _ Hscan) as [-> ->].
    destruct (sub_behind_barrier primary_rule.1 primary_rule.2 (txt ";") p1)
      as [-> ->]; [done..|].
    rewrite Hrepl. split; reflexivity. }
  destruct H2 as [-> ->].
  destruct (subs_behind_barrier rest_rules (txt "var(--primary);")
              (sub primary_rule.1 primary_rule.2 p1) Hrest) as [-> ->]; [done|].
  split; [done|]. simpl length. lia.
Qed.

(** A text that holds the declaration [color: #9333ea;]: in the text the
    table produces, [color: var(--primary);] stands in its place, between
    the rewritten text before it and the rewritten text after it, and the
    declaration adds exactly 1 to the count. *)
Lemma declaration_in_text pre post :
  (exists pre',
     subs rules (pre ++ txt "color: ") = pre' ++ txt "color: " /\
     subs rules (pre ++ txt "color: #9333ea;" ++ post) =
       pre' ++ txt "color: var(--primary);" ++ subs rules post) /\
  match_total rules (pre ++ txt "color: #9333ea;" ++ post) =
    (match_total rules (pre ++ txt "color: ") + 1 + match_total rules post)%nat /\
  subs rules (txt "color: #9333ea;") = txt "color: var(--primary);" /\
  match_total rules (txt "color: #9333ea;") = 1%nat.
Proof.
  destruct primary_facts as (Hwall & _). apply walled_check in Hwall.
  change (txt "color: #9333ea;") with (txt "color: " ++ txt "#9333ea;").
  change (txt "color: var(--primary);") with (txt "color: " ++ txt "var(--primary);").
  destruct (subs_barrier rules (txt "color: ") Hwall ltac:(done) pre (txt "#9333ea;" ++ post))
    as (H1 & H2 & pre' & Hpre).
  destruct (primary_token_rewritten post) as [H3 H4].
  rewrite <- !app_assoc. split_and!.
  - exists pre'. split; [done|]. by rewrite H1, Hpre, H3, <- !app_assoc.
  - rewrite H2, H4. lia.
  - vm_compute. reflexivity.
  - vm_compute. reflexivity.
Qed.

(** * The special case: the spinner rule

    The pattern of the special case holds [[^}]+], which matches in more
    than one way, and its replacement is no barrier for it.  That a second
    run finds nothing to do rests on the greedy choice: a match runs to the
    last colour declaration before the next closing brace. *)
#[global] Instance atom_eq_dec : EqDecision atom.
Proof. solve_decision. Defined.

#[global] Instance item_eq_dec : EqDecision item.
Proof. solve_decision. Defined.

(** The states a pattern can be in after it has taken the character [c],
    and after it has taken the text [x]. *)
Fixpoint advance (r : regex) (c : char) : list regex :=
  match r with
  | [] => []
  | One a :: r' => if accepts a c then [r'] else []
  | Star a :: r' => (if accepts a c then [Star a :: r'] else []) ++ advance r' c
  | Plus a :: r' => if accepts a c then [Star a :: r'] else []
  | WordB :: r' => advance r' c
  end.

Fixpoint reach (r : regex) (x : text) : list regex :=
  match x with
  | [] => [r]
  | c :: x' => flat_map (fun q => reach q x') (advance r c)
  end.

Definition nullable (r : regex) : bool :=
  forallb (fun i => match i with Star _ | WordB => true | _ => false end) r.

Definition finishes (r : regex) (x : text) : bool :=
  existsb (fun k => existsb nullable (reach r (take k x))) (seq 1 (length x)).

Definition rejects (r : regex) (c : char) : bool :=
  forallb (fun i => match i with
                    | One a | Star a | Plus a => negb (accepts a c)
                    | WordB => true
                    end) r.

Lemma advance_sound r pw s n :
  Matches r pw s n ->
  forall c s' n', s = c :: s' -> n = S n' ->
  exists q pw', q ∈ advance r c /\ Matches q pw' s' n'.
Proof.
  induction 1 as [pw s|a r pw d s n Ha Hm IH|r pw s n Hx Hm IH|a r pw s n Hm IH
                 |a r pw d s n Ha Hm IH|a r pw d s n Ha Hm IH]; intros c s' n' Hs Hn.
  - done.
  - injection Hs as -> ->. injection Hn as ->. exists r, (is_word c).
    simpl. rewrite Ha. split; [apply list_elem_of_here | done].
  - destruct (IH c s' n' Hs Hn) as (q & pw' & Hq & Hq'). by exists q, pw'.
  - destruct (IH c s' n' Hs Hn) as (q & pw' & Hq & Hq'). exists q, pw'.
    split; [|done]. simpl. apply elem_of_app. by right.
  - injection Hs as -> ->. injection Hn as ->. exists (Star a :: r), (is_word c).
    split; [|done]. simpl. rewrite Ha. apply elem_of_app. left. apply list_elem_of_here.
  - injection Hs as -> ->. injection Hn as ->. exists (Star a :: r), (is_word c).
    split; [|done]. simpl. rewrite Ha. apply list_elem_of_here.
Qed.

Lemma reach_sound x : forall r pw z n,
  Matches r pw (x ++ z) n -> (length x <= n)%nat ->
  exists q pw', q ∈ reach r x /\ Matches q pw' z (n - length x).
Proof.
  induction x as [|c x IH]; intros r pw z n Hm Hl.
  - exists r, pw. rewrite Nat.sub_0_r. split; [apply list_elem_of_here | done].
  - simpl in Hl. destruct n as [|n]; [lia|].
    destruct (advance_sound _ _ _ _ Hm c (x ++ z) n eq_refl eq_refl) as (q1 & pw1 & Hq1 & Hm1).
    destruct (IH q1 pw1 z n Hm1 ltac:(lia)) as (q & pw' & Hq & Hm').
    exists q, pw'. split; [|done]. simpl.
    apply list_elem_of_In, in_flat_map. exists q1. by rewrite <- !list_elem_of_In.
Qed.

Lemma Matches_zero_nullable r pw s : Matches r pw s 0 -> nullable r = true.
Proof.
  remember 0%nat as n eqn:Hn. induction 1; try done; simpl; by apply IHMatches.
Qed.

Lemma finishes_sound q pw (x z : list N) m :
  Matches q pw (x ++ z) m -> (0 < m <= length x)%nat -> finishes q x = true.
Proof.
  intros Hm [Hm0 Hmx]. rewrite <- (take_drop m x), <- app_assoc in Hm.
  destruct (reach_sound _ _ _ _ _ Hm) as (q' & pw' & Hq & Hm').
  { rewrite length_take. lia. }
  rewrite length_take, Nat.min_l, Nat.sub_diag in Hm' by done.
  apply Matches_zero_nullable in Hm'.
  apply existsb_exists. exists m. split; [apply in_seq; lia|].
  apply existsb_exists. exists q'. by rewrite <- list_elem_of_In.
Qed.

Lemma Matches_split0 r pw (x z : list N) n :
  Matches r pw (x ++ z) n -> (length x <= n)%nat ->
  exists q pw', q ∈ r :: after r /\ Matches q pw' z (n - length x).
Proof.
  intros Hm Hl. destruct x as [|c x].
  - exists r, pw. rewrite Nat.sub_0_r. split; [apply list_elem_of_here | done].
  - destruct (Matches_split _ _ _ _ Hm (c :: x) z eq_refl ltac:(done) Hl)
      as (q & pw' & Hq & Hm').
    exists q, pw'. split; [by apply list_elem_of_further | done].
Qed.

Lemma rejects_window r pw s n c :
  Matches r pw s n -> rejects r c = true -> c ∉ take n s.
Proof.
  induction 1 as [pw s|a r pw d s n Ha Hm IH|r pw s n Hx Hm IH|a r pw s n Hm IH
                 |a r pw d s n Ha Hm IH|a r pw d s n Ha Hm IH]; intros Hr; simpl in Hr.
  - simpl. apply not_elem_of_nil.
  - apply andb_prop in Hr as [Hc Hr]. simpl. apply not_elem_of_cons. split; [|by apply IH].
    intros ->. by rewrite Ha in Hc.
  - by apply IH.
  - apply andb_prop in Hr as [Hc Hr]. by apply IH.
  - pose proof Hr as Hr'. apply andb_prop in Hr as [Hc Hr]. simpl.
    apply not_elem_of_cons. split; [|by apply IH].
    intros ->. by rewrite Ha in Hc.
  - apply andb_prop in Hr as [Hc Hr]. simpl. apply not_elem_of_cons.
    split; [|apply IH; simpl; by rewrite Hc, Hr].
    intros ->. by rewrite Ha in Hc.
Qed.

Lemma Matches_pw_free r pw s n :
  Matches r pw s n -> forallb (fun i => negb (is_wordb i)) r = true ->
  forall pw', Matches r pw' s n.
Proof.
  induction 1; intros Hf pw'; simpl in Hf; try done.
  - constructor.
  - constructor; [done|]. by apply IHMatches.
  - apply M_star_stop. by apply IHMatches.
  - apply M_star_step; [done|]. by apply IHMatches.
  - apply M_plus; [done|]. by apply IHMatches.
Qed.

Lemma star_prefix a r (x y : list N) pw m :
  Forall (fun c => accepts a c = true) x ->
  forallb (fun i => negb (is_wordb i)) (Star a :: r) = true ->
  Matches (Star a :: r) pw y m ->
  Matches (Star a :: r) pw (x ++ y) (length x + m).
Proof.
  intros Hx Hf Hm. induction Hx as [|c x Hc _ IH]; [done|].
  simpl. apply M_star_step; [done|]. by apply (Matches_pw_free _ _ _ _ IH).
Qed.

Lemma star_inv a r pw y m :
  Matches (Star a :: r) pw y m ->
  exists g y2 pw', y = g ++ y2 /\ Forall (fun c => accepts a c = true) g /\
    (length g <= m)%nat /\ Matches r pw' y2 (m - length g).
Proof.
  remember (Star a :: r) as q eqn:Hq.
  induction 1 as [pw s|? ? pw d s n Ha Hm IH|? pw s n Hx Hm IH|b r0 pw s n Hm IH
                 |b r0 pw d s n Ha Hm IH|? ? pw d s n Ha Hm IH]; try done.
  - injection Hq as -> ->. exists [], s, pw. rewrite Nat.sub_0_r.
    split_and!; [done|constructor|simpl; lia|done].
  - pose proof Hq as Hq'. injection Hq' as -> ->.
    destruct (IH Hq) as (g & y2 & pw' & -> & Hg & Hl & Hm').
    exists (d :: g), y2, pw'. split_and!; [done|by constructor|simpl; lia|done].
Qed.

(** The greedy repeat: when it succeeds it has taken the longest run of
    accepted characters after which the rest of the pattern matches. *)
Lemma repeat_max_none a k s : forall need pw,
  (forall nd p t, k nd p t = k false false t) ->
  repeat_max a k need pw s = None ->
  forall g rest, s = g ++ rest -> Forall (fun c => accepts a c = true) g ->
    k false false rest = None.
Proof.
  intros need pw Hk. revert need pw.
  induction s as [|c s IH]; intros need pw Hn g rest Hs Hg; simpl in Hn.
  - symmetry in Hs. apply app_eq_nil in Hs as [-> ->]. by rewrite Hk in Hn.
  - destruct g as [|d g].
    + simpl in Hs. subst rest. destruct (accepts a c); [|by rewrite Hk in Hn].
      destruct (repeat_max a k false (is_word c) s); [done|]. by rewrite Hk in Hn.
    + injection Hs as <- ->. apply Forall_cons in Hg as [Hd Hg]. rewrite Hd in Hn.
      destruct (repeat_max a k false (is_word c) (g ++ rest)) eqn:Hin; [done|].
      by apply (IH _ _ Hin g rest).
Qed.

Lemma repeat_max_last a k s : forall need pw n,
  (forall nd p t, k nd p t = k false false t) ->
  repeat_max a k need pw s = Some n ->
  exists g rest m, s = g ++ rest /\ Forall (fun c => accepts a c = true) g /\
    k false false rest = Some m /\ n = (length g + m)%nat /\
    forall g' rest', s = g' ++ rest' -> (length g < length g')%nat ->
      Forall (fun c => accepts a c = true) g' -> k false false rest' = None.
Proof.
  intros need pw n Hk. revert need pw n.
  induction s as [|c s IH]; intros need pw n Hn; simpl in Hn.
  - exists [], [], n. rewrite Hk in Hn. split_and!; [done..|].
    intros g' rest' Hs Hl. symmetry in Hs. apply app_eq_nil in Hs as [-> _].
    simpl in Hl. lia.
  - destruct (accepts a c) eqn:Hc.
    + destruct (repeat_max a k false (is_word c) s) as [n'|] eqn:Hin.
      * injection Hn as <-.
        destruct (IH _ _ _ Hin) as (g & rest & m & -> & Hg & Hm & -> & Hmax).
        exists (c :: g), rest, m. split_and!; [done|by constructor|done|done|].
        intros [|d g'] rest' Hs Hl Hg'; [simpl in Hl; lia|].
        injection Hs as <- Hs. apply Forall_cons in Hg' as [_ Hg'].
        apply (Hmax g' rest' Hs); [simpl in Hl; lia | done].
      * rewrite Hk in Hn. exists [], (c :: s), n. split_and!; [done..|].
        intros [|d g'] rest' Hs Hl Hg'; [simpl in Hl; lia|].
        injection Hs as <- Hs. apply Forall_cons in Hg' as [_ Hg'].
        by apply (repeat_max_none a k s _ _ Hk Hin g' rest').
    + rewrite Hk in Hn. exists [], (c :: s), n. split_and!; [done..|].
      intros [|d g'] rest' Hs Hl Hg'; [simpl in Hl; lia|].
      injection Hs as <- Hs. apply Forall_cons in Hg' as [Hd _]. congruence.
Qed.

Lemma re_match_lits l : forall r need pw s n,
  l <> [] ->
  re_match (map (fun c => One (Lit c)) l ++ r) need pw s = Some n ->
  exists s' n' pw', s = l ++ s' /\ re_match r false pw' s' = Some n' /\
    n = (length l + n')%nat.
Proof.
  induction l as [|c l IH]; intros r need pw s n Hl Hm; [done|].
  simpl in Hm. destruct s as [|d s]; [done|].
  destruct (d =? c) eqn:Hd; [|done]. apply N.eqb_eq in Hd as ->.
  destruct (re_match (map (fun c => One (Lit c)) l ++ r) false (is_word c) s)
    as [n0|] eqn:Hm0; [|done].
  injection Hm as <-. destruct l as [|e l].
  - exists s, n0, (is_word c). by split_and!.
  - destruct (IH _ _ _ _ _ ltac:(done) Hm0) as (s' & n' & pw' & -> & Hm' & ->).
    exists s', n', pw'. by split_and!.
Qed.

(** ** The spinner pattern *)
Definition spinner_regex : regex := default [] (fst <$> spinner_rule).
Definition spinner_head : text := txt ".app-loading-spinner {".
Definition spinner_tail : regex := drop 23 spinner_regex.
Definition spinner_open : regex := Star (NotLit 125) :: spinner_tail.

Lemma spinner_compiles : spinner_rule = Some (spinner_regex, spinner_replacement).
Proof. vm_compute. reflexivity. Qed.

Lemma spinner_shape :
  spinner_regex =
    map (fun c => One (Lit c)) spinner_head ++ Plus (NotLit 125) :: spinner_tail.
Proof. vm_compute. reflexivity. Qed.

Definition free (r : regex) : bool := forallb (fun i => negb (is_wordb i)) r.

Lemma spinner_facts :
  headed spinner_regex = true /\ headed spinner_tail = true /\
  free spinner_regex = true /\ free spinner_open = true /\
  rejects spinner_regex 125 = true /\ rejects spinner_open 125 = true /\
  rejects spinner_tail 125 = true /\
  forallb (fun q => negb (finishes q spinner_replacement))
    (spinner_regex :: after spinner_regex) = true /\
  forallb (fun q => forallb (fun q' => bool_decide (q' = spinner_open))
                      (reach q spinner_replacement))
    (spinner_regex :: after spinner_regex) = true /\
  forallb (fun d => negb (begins spinner_regex (drop d spinner_replacement)))
    (seq 1 (length spinner_replacement - 1)) = true /\
  forallb (fun q => bool_decide (q ∈ spinner_regex :: after spinner_regex))
    (spinner_open :: after spinner_open) = true.
Proof. split_and!; vm_compute; reflexivity. Qed.

Lemma spinner_open_eq : spinner_open = Star (NotLit 125) :: spinner_tail.
Proof. done. Qed.

#[local] Opaque spinner_regex spinner_tail spinner_open.

Lemma not_brace (l : list N) :
  125 ∉ l -> Forall (fun c => accepts (NotLit 125) c = true) l.
Proof.
  intros Hn. apply Forall_forall. intros d Hd. simpl.
  destruct (d =? 125) eqn:E; [|done]. apply N.eqb_eq in E as ->. done.
Qed.

(** A match of the spinner rule, or of a later state of it, that runs
    into the replacement runs through it, and is then in the state
    [spinner_open]: looking for a colour declaration before the next
    closing brace. *)
Lemma spinner_cross q pw (t : list N) m :
  q ∈ spinner_regex :: after spinner_regex ->
  Matches q pw (spinner_replacement ++ t) m -> m <> 0%nat ->
  exists pw' m', Matches spinner_open pw' t m'.
Proof.
  intros Hq Hm Hm0.
  destruct spinner_facts as (_ & _ & _ & _ & _ & _ & _ & Hfin & Hreach & _).
  rewrite forallb_forall in Hfin, Hreach.
  apply list_elem_of_In in Hq. specialize (Hfin q Hq). specialize (Hreach q Hq).
  destruct (decide (m <= length spinner_replacement)%nat) as [Hle|Hgt].
  - rewrite (finishes_sound q pw _ t m Hm) in Hfin by lia. done.
  - destruct (reach_sound _ _ _ _ _ Hm ltac:(lia)) as (q' & pw' & Hq' & Hm').
    rewrite forallb_forall in Hreach.
    apply list_elem_of_In, Hreach, bool_decide_eq_true in Hq'. subst q'. eauto.
Qed.

(** The greedy choice: behind a match of the spinner rule no further
    colour declaration stands before the next closing brace. *)
Lemma spinner_maximal (t : list N) n :
  re_match spinner_regex false false t = Some n ->
  forall pw m, ~ Matches spinner_open pw (drop n t) m.
Proof.
  intros Hm pw m Hopen.
  destruct spinner_facts as (_ & Ht & _ & _ & _ & _ & Hrej & _).
  rewrite spinner_shape in Hm.
  apply re_match_lits in Hm as (s1 & n1 & pw1 & -> & Hm & ->); [|done].
  simpl in Hm. destruct s1 as [|c t1]; [done|].
  destruct (negb (c =? 125)) eqn:Hc; [|done].
  destruct (repeat_max (NotLit 125) (re_match spinner_tail) false (is_word c) t1)
    as [n2|] eqn:Hrep; [|done].
  injection Hm as <-.
  apply repeat_max_last in Hrep
      as (g & rest & m0 & -> & Hg & Hk & -> & Hmax);
    [|intros; by apply headed_match].
  replace (spinner_head ++ c :: g ++ rest) with ((spinner_head ++ c :: g) ++ rest)
    in Hopen by (by rewrite <- app_assoc).
  replace (length spinner_head + S (length g + m0))%nat
    with (length (spinner_head ++ c :: g) + m0)%nat in Hopen
    by (rewrite length_app; simpl; lia).
  rewrite drop_app_add, spinner_open_eq in Hopen.
  apply star_inv in Hopen as (g2 & y2 & pw' & Hy & Hg2 & _ & Hy2).
  apply re_match_sound in Hk as [Hk _].
  pose proof (Matches_length _ _ _ _ Hk) as Hl.
  pose proof (headed_Matches_pos _ _ _ _ Ht Hk) as Hpos.
  pose proof (rejects_window _ _ _ _ 125 Hk Hrej) as Hwin. apply not_brace in Hwin.
  assert (Hnone : re_match spinner_tail false false y2 = None).
  { apply (Hmax (g ++ take m0 rest ++ g2) y2).
    - rewrite <- !app_assoc. f_equal. rewrite <- Hy. by rewrite take_drop.
    - rewrite !length_app, length_take. lia.
    - by rewrite !Forall_app. }
  destruct (re_match_complete _ _ _ _ Hy2 false (or_introl eq_refl)) as [x Hx].
  rewrite headed_match in Hx by done. congruence.
Qed.

Lemma spinner_sub_hit (u w s' : list N) :
  w <> [] ->
  (forall u1 u2, u = u1 ++ u2 -> u2 <> [] ->
     re_match spinner_regex false false (u2 ++ w ++ s') = None) ->
  re_match spinner_regex false false (w ++ s') = Some (length w) ->
  sub spinner_regex spinner_replacement (u ++ w ++ s') =
    u ++ spinner_replacement ++ sub spinner_regex spinner_replacement s'.
Proof.
  intros Hw Hu Hm. destruct spinner_facts as (Hr & _).
  unfold sub. rewrite scan_first_hit by done.
  by rewrite flat_map_app, emit_keep.
Qed.

Lemma length_hit (u w s' : list N) :
  w <> [] -> (length s' < length (u ++ w ++ s'))%nat.
Proof. intros Hw. rewrite !length_app. destruct w; [done|simpl; lia]. Qed.

(** If the rewritten text is open (a colour declaration comes before the
    next closing brace), so was the text. *)
Lemma open_transfer s : forall pw n,
  Matches spinner_open pw (sub spinner_regex spinner_replacement s) n ->
  exists pw' n', Matches spinner_open pw' s n'.
Proof.
  remember (length s) as k eqn:Hk. revert s Hk.
  induction k as [k IH] using lt_wf_ind. intros s -> pw n Hm.
  destruct spinner_facts as (Hr & _ & Hfr & Hfo & Hrejr & Hrejo & _ & _ & _ & _ & Hsub).
  destruct (first_hit spinner_regex s Hr) as [Hn|(u & w & s' & -> & Hw & Hu & Hhit)].
  { rewrite NoHit_sub in Hm by done. eauto. }
  rewrite spinner_sub_hit in Hm by done.
  destruct (decide (n <= length u)%nat) as [Hle|Hgt].
  - exists pw, n. apply (Matches_local_free _ _ _ _ Hm Hfo).
    by rewrite !take_app_le.
  - assert (Hu125 : Forall (fun c => accepts (NotLit 125) c = true) u).
    { apply not_brace. intros Hin.
      apply (rejects_window _ _ _ _ 125 Hm Hrejo).
      rewrite take_app_ge by lia. apply elem_of_app. by left. }
    assert (Hw125 : Forall (fun c => accepts (NotLit 125) c = true) w).
    { apply not_brace. apply re_match_sound in Hhit as [Hhit _].
      pose proof (rejects_window _ _ _ _ 125 Hhit Hrejr) as Hnot.
      by rewrite take_app_length in Hnot. }
    destruct (Matches_split0 _ _ _ _ _ Hm ltac:(lia)) as (q & pw' & Hq & Hq').
    assert (Hq0 : q ∈ spinner_regex :: after spinner_regex).
    { rewrite forallb_forall in Hsub. apply list_elem_of_In, Hsub in Hq.
      by apply bool_decide_eq_true in Hq. }
    destruct (spinner_cross q pw' _ _ Hq0 Hq' ltac:(lia)) as (pw2 & m2 & Hopen).
    destruct (IH (length s') (length_hit u w s' Hw) s' eq_refl pw2 m2 Hopen)
      as (pw3 & m3 & H3).
    exists pw3, (length (u ++ w) + m3)%nat. rewrite app_assoc.
    rewrite spinner_open_eq in Hfo, H3 |- *.
    apply (star_prefix (NotLit 125) spinner_tail (u ++ w) s' pw3 m3);
      [apply Forall_app; by split | exact Hfo | exact H3].
Qed.

(** The special case leaves no match of its own rule behind. *)
Lemma spinner_NoHit s :
  NoHit spinner_regex (sub spinner_regex spinner_replacement s).
Proof.
  remember (length s) as k eqn:Hk. revert s Hk.
  induction k as [k IH] using lt_wf_ind. intros s ->.
  destruct spinner_facts as (Hr & _ & Hfr & _ & _ & _ & _ & _ & _ & Hbeg & _).
  destruct (first_hit spinner_regex s Hr) as [Hn|(u & w & s' & -> & Hw & Hu & Hhit)].
  { by rewrite NoHit_sub. }
  rewrite spinner_sub_hit by done.
  set (t' := sub spinner_regex spinner_replacement s').
  assert (Htail : NoHit spinner_regex t').
  { apply (IH (length s')); [by apply length_hit | reflexivity]. }
  assert (Hshut : forall pw m, ~ Matches spinner_open pw t' m).
  { intros pw m Hopen. apply open_transfer in Hopen as (pw' & m' & Hopen).
    apply (spinner_maximal _ _ Hhit pw' m'). by rewrite drop_app_length. }
  assert (Hcross : forall q pw m, q ∈ spinner_regex :: after spinner_regex ->
            Matches q pw (spinner_replacement ++ t') m -> m <> 0%nat -> False).
  { intros q pw m Hq Hm Hm0.
    destruct (spinner_cross q pw t' m Hq Hm Hm0) as (pw' & m' & Hopen).
    by apply (Hshut pw' m'). }
  assert (Hmid : re_match spinner_regex false false (spinner_replacement ++ t') = None).
  { destruct (re_match spinner_regex false false (spinner_replacement ++ t'))
      as [n|] eqn:Hm; [|done].
    apply re_match_sound in Hm as [Hm _]. exfalso.
    apply (Hcross spinner_regex false n); [apply list_elem_of_here | done |].
    by apply (headed_Matches_pos _ _ _ _ Hr Hm). }
  intros t1 t2 Ht.
  apply app_eq_app in Ht as [l [[-> ->]|[-> Ht]]].
  - destruct l as [|c l]; [done|].
    destruct (re_match spinner_regex false false ((c :: l) ++ spinner_replacement ++ t'))
      as [n|] eqn:Hm; [|done].
    exfalso. apply re_match_sound in Hm as [Hm _].
    destruct (decide (n <= length (c :: l))%nat) as [Hle|Hgt].
    + assert (Hm2 : Matches spinner_regex false ((c :: l) ++ w ++ s') n).
      { apply (Matches_local_free _ _ _ _ Hm Hfr). by rewrite !take_app_le. }
      destruct (re_match_complete _ _ _ _ Hm2 false (or_introl eq_refl)) as [x Hx].
      by rewrite (Hu t1 (c :: l)) in Hx.
    + destruct (Matches_split _ _ _ _ Hm (c :: l) _ eq_refl ltac:(done) ltac:(lia))
        as (q & pw' & Hq & Hq').
      apply (Hcross q pw' _ ltac:(by apply list_elem_of_further) Hq'). lia.
  - apply app_eq_app in Ht as [l' [[Hrepl ->]|[-> Ht]]].
    + destruct l' as [|c l']; [simpl; by apply (Htail [])|].
      destruct l as [|d l]; [simpl in Hrepl; by rewrite <- Hrepl|].
      destruct (re_match spinner_regex false false ((c :: l') ++ t')) as [n|] eqn:Hm; [|done].
      exfalso. apply re_match_sound in Hm as [Hm _].
      pose proof (headed_Matches_pos _ _ _ _ Hr Hm) as Hn0.
      apply begins_sound in Hm; [|done].
      rewrite forallb_forall in Hbeg. specialize (Hbeg (length (d :: l))).
      rewrite Hrepl, drop_app_length, Hm in Hbeg.
      assert (negb true = true); [|done]. apply Hbeg, in_seq.
      rewrite length_app. simpl. lia.
    + by apply (Htail l').
Qed.

Lemma spinner_idempotent s :
  sub spinner_regex spinner_replacement (sub spinner_regex spinner_replacement s) =
    sub spinner_regex spinner_replacement s.
Proof.
  apply NoHit_sub; [|apply spinner_NoHit]. by destruct spinner_facts as (? & _).
Qed.

(** * The script, step by step *)

Lemma bind_unfold {A B} (m : M A) (f : A -> M B) w :
  (m ≫= f) w = match m w with
               | (inr a, w') => f a w'
               | (inl e, w') => (inl e, w')
               end.
Proof. done. Qed.

Lemma ret_unfold {A} (a : A) w : (mret a : M A) w = (inr a, w).
Proof. done. Qed.

Lemma apply_rule_compiled rule cr st w :
  compile_rule rule = Some cr ->
  apply_rule rule st w = (inr (step cr st), w).
Proof.
  destruct rule as [pattern replacement], st as [content n].
  unfold compile_rule, apply_rule, re_sub, re_findall, step. simpl.
  destruct (re_compile (txt pattern)) as [r|]; [|done]. simpl. intros [= <-]. simpl.
  rewrite bind_unfold, ret_unfold. by case_bool_decide.
Qed.

Lemma for_each_compiled l : forall st w,
  Forall (fun rule => is_Some (compile_rule rule)) l ->
  for_each l apply_rule st w = (inr (run_rules (omap compile_rule l) st), w).
Proof.
  induction l as [|rule l IH]; intros st w Hl; [done|].
  apply Forall_cons in Hl as [[cr Hcr] Hl]. simpl.
  rewrite bind_unfold, (apply_rule_compiled rule cr) by done.
  rewrite IH by done. by rewrite Hcr.
Qed.

Lemma table_compiles : Forall (fun rule => is_Some (compile_rule rule)) color_replacements.
Proof. apply (bool_decide_unpack _). by vm_compute. Qed.

Lemma rules_unfold : omap compile_rule color_replacements = rules.
Proof. vm_compute. reflexivity. Qed.

#[local] Opaque rules.

(** The loop of [fix_colors_in_file] over the table never raises; it
    yields the rewritten text and the number of matches counted. *)
Lemma loop_rules content w :
  for_each color_replacements apply_rule (content, 0%nat) w =
    (inr (subs rules content, match_total rules content), w).
Proof.
  rewrite for_each_compiled by apply table_compiles.
  rewrite rules_unfold. by rewrite run_rules_good by exact rules_good.
Qed.

Definition say (r : report) (w : world) : world := World (fs w) (out w ++ [r]).

Lemma print_unfold r w :
  print r w = if console (out w) r then (inr tt, say r w) else (inl UnicodeEncodeError, w).
Proof. done. Qed.

(** ** Line ends *)
Lemma universal_newlines_cons c s :
  universal_newlines (c :: s) =
    if c =? 13 then
      10 :: match s with
            | d :: s' => if d =? 10 then universal_newlines s' else universal_newlines s
            | [] => []
            end
    else c :: universal_newlines s.
Proof. by destruct s. Qed.

Lemma universal_newlines_elem c : forall s,
  c ∈ universal_newlines s -> c ∈ s \/ c = 10.
Proof.
  assert (H : forall n s, (length s <= n)%nat ->
            c ∈ universal_newlines s -> c ∈ s \/ c = 10).
  { induction n as [|n IH]; intros s Hn.
    - destruct s; [|simpl in Hn; lia]. intros Hc. by apply elem_of_nil in Hc.
    - destruct s as [|a s]; [intros Hc; by apply elem_of_nil in Hc|].
      simpl in Hn. rewrite universal_newlines_cons.
      destruct (a =? 13).
      + intros [->|Hc]%elem_of_cons; [by right|].
        destruct s as [|d s']; [by apply elem_of_nil in Hc|].
        destruct (d =? 10).
        * destruct (IH s') as [?|?]; [simpl in Hn; lia|done| |by right].
          left. by do 2 apply list_elem_of_further.
        * destruct (IH (d :: s')) as [?|?]; [lia|done| |by right].
          left. by apply list_elem_of_further.
      + intros [->|Hc]%elem_of_cons; [left; apply list_elem_of_here|].
        destruct (IH s) as [?|?]; [lia|done| |by right].
        left. by apply list_elem_of_further. }
  intros s. by apply (H (length s)).
Qed.

(** What was read holds no carriage return. *)
Lemma universal_newlines_clean : forall s, 13 ∉ universal_newlines s.
Proof.
  assert (H : forall n s, (length s <= n)%nat -> 13 ∉ universal_newlines s).
  { induction n as [|n IH]; intros s Hn.
    - destruct s; [|simpl in Hn; lia]. apply not_elem_of_nil.
    - destruct s as [|a s]; [apply not_elem_of_nil|].
      simpl in Hn. rewrite universal_newlines_cons.
      destruct (a =? 13) eqn:Ha.
      + apply not_elem_of_cons. split; [done|].
        destruct s as [|d s']; [apply not_elem_of_nil|].
        destruct (d =? 10); apply IH; simpl in *; lia.
      + apply not_elem_of_cons. split; [|apply IH; lia].
        intros <-. by rewrite N.eqb_refl in Ha. }
  intros s. by apply (H (length s)).
Qed.

(** A text without a carriage return is read as it is. *)
Lemma universal_newlines_fixed s : 13 ∉ s -> universal_newlines s = s.
Proof.
  induction s as [|a s IH]; [done|]. intros [Ha Hs]%not_elem_of_cons.
  rewrite universal_newlines_cons.
  destruct (a =? 13) eqn:E; [apply N.eqb_eq in E; congruence|].
  by rewrite IH.
Qed.

(** Line ends are translated where they stand: a text that holds no
    carriage return and does not start with a line feed is read as it is,
    whatever stands before it and behind it. *)
Lemma universal_newlines_app a c s :
  c <> 10 ->
  universal_newlines (a ++ c :: s) = universal_newlines a ++ universal_newlines (c :: s).
Proof.
  intros Hc.
  assert (H : forall n a, (length a <= n)%nat ->
            universal_newlines (a ++ c :: s) =
              universal_newlines a ++ universal_newlines (c :: s)).
  { induction n as [|n IH]; intros b Hn.
    - destruct b; [done|simpl in Hn; lia].
    - destruct b as [|x b]; [done|]. simpl in Hn.
      rewrite <- app_comm_cons, !(universal_newlines_cons x).
      destruct (x =? 13).
      + destruct b as [|d b'].
        * rewrite app_nil_l. apply N.eqb_neq in Hc. by rewrite Hc.
        * rewrite <- app_comm_cons. simpl in Hn.
          destruct (d =? 10); rewrite <- app_comm_cons; f_equal.
          -- apply IH. lia.
          -- rewrite app_comm_cons. apply IH. simpl. lia.
      + rewrite <- app_comm_cons. f_equal. apply IH. lia. }
  by apply (H (length a)).
Qed.

Lemma universal_newlines_fixed_app s b :
  13 ∉ s -> universal_newlines (s ++ b) = s ++ universal_newlines b.
Proof.
  induction s as [|a s IH]; [done|]. intros [Ha Hs]%not_elem_of_cons.
  rewrite <- !app_comm_cons, universal_newlines_cons.
  destruct (a =? 13) eqn:E; [apply N.eqb_eq in E; congruence|].
  by rewrite IH.
Qed.

Lemma universal_newlines_around a c s b :
  c <> 10 -> 13 ∉ c :: s ->
  universal_newlines (a ++ (c :: s) ++ b) =
    universal_newlines a ++ (c :: s) ++ universal_newlines b.
Proof.
  intros Hc Hs. rewrite <- app_comm_cons, universal_newlines_app by done.
  by rewrite app_comm_cons, universal_newlines_fixed_app.
Qed.

(** A substitution puts in nothing but its replacement. *)
Lemma scan_keep r c : forall s pw k, Keep c ∈ scan r pw s k -> c ∈ s.
Proof.
  induction s as [|a s IH]; intros pw k Hc; simpl in Hc.
  - destruct k; [|by apply elem_of_nil in Hc].
    destruct (re_match r false pw []); [|by apply elem_of_nil in Hc].
    apply elem_of_cons in Hc as [?|Hc]; [done|by apply elem_of_nil in Hc].
  - destruct k as [|k]; [|apply list_elem_of_further; by apply (IH _ _ Hc)].
    destruct (re_match r false pw (a :: s)) as [[|n]|].
    + apply elem_of_cons in Hc as [?|Hc]; [done|].
      destruct (re_match r true pw (a :: s)) as [[|n]|].
      * apply elem_of_cons in Hc as [[= ->]|Hc]; [apply list_elem_of_here|].
        apply list_elem_of_further; by apply (IH _ _ Hc).
      * apply elem_of_cons in Hc as [?|Hc]; [done|].
        apply list_elem_of_further; by apply (IH _ _ Hc).
      * apply elem_of_cons in Hc as [[= ->]|Hc]; [apply list_elem_of_here|].
        apply list_elem_of_further; by apply (IH _ _ Hc).
    + apply elem_of_cons in Hc as [?|Hc]; [done|].
      apply list_elem_of_further; by apply (IH _ _ Hc).
    + apply elem_of_cons in Hc as [[= ->]|Hc]; [apply list_elem_of_here|].
      apply list_elem_of_further; by apply (IH _ _ Hc).
Qed.

Lemma sub_elem r repl s c : c ∈ sub r repl s -> c ∈ s \/ c ∈ repl.
Proof.
  unfold sub. intros Hc. apply list_elem_of_In, in_flat_map in Hc as (p & Hp & Hc).
  apply list_elem_of_In in Hp, Hc. destruct p as [d|x]; simpl in Hc.
  - apply elem_of_cons in Hc as [->|Hc]; [|by apply elem_of_nil in Hc].
    left. by apply (scan_keep r d s false 0%nat).
  - by right.
Qed.

Lemma subs_elem c rs : forall s,
  c ∈ subs rs s -> c ∈ s \/ exists rule, rule ∈ rs /\ c ∈ rule.2.
Proof.
  induction rs as [|rule rs IH]; intros s Hc; [by left|].
  simpl in Hc. destruct (IH _ Hc) as [H|(rk & Hk & H)].
  - apply sub_elem in H as [H|H]; [by left|].
    right. exists rule. split; [apply list_elem_of_here|done].
  - right. exists rk. split; [by apply list_elem_of_further|done].
Qed.

Lemma rules_clean : Forall (fun rule => 13 ∉ rule.2) rules.
Proof. apply (bool_decide_unpack _). by vm_compute. Qed.

(** The table and the special case put no carriage return into a text:
    what they make of a text that was read is read back as it is. *)
Lemma subs_clean s : 13 ∉ s -> 13 ∉ subs rules s.
Proof.
  intros Hs Hc. apply subs_elem in Hc as [?|(rule & Hin & Hc)]; [done|].
  pose proof rules_clean as H. rewrite Forall_forall in H. by apply (H rule).
Qed.

Lemma spinner_clean s : 13 ∉ s -> 13 ∉ sub spinner_regex spinner_replacement s.
Proof.
  intros Hs Hc. apply sub_elem in Hc as [?|Hc]; [done|].
  revert Hc. apply (bool_decide_unpack _). by vm_compute.
Qed.

Lemma subs_read_back s :
  universal_newlines (subs rules (universal_newlines s)) = subs rules (universal_newlines s).
Proof. apply universal_newlines_fixed, subs_clean, universal_newlines_clean. Qed.

Lemma spinner_read_back s :
  universal_newlines (sub spinner_regex spinner_replacement (universal_newlines s)) =
    sub spinner_regex spinner_replacement (universal_newlines s).
Proof. apply universal_newlines_fixed, spinner_clean, universal_newlines_clean. Qed.

(** ** [fix_colors_in_file], case by case *)

(** The handler: the error line, and [False]. *)
Definition failed (p : text) (e : exn) (w : world) : (exn + bool) * world :=
  if console (out w) (Failed p e) then (inr false, say (Failed p e) w)
  else (inl UnicodeEncodeError, w).

(** A status line inside the [try]: when the line is refused, the handler
    takes over. *)
Definition status (p : text) (r : report) (b : bool) (w : world) : (exn + bool) * world :=
  if console (out w) r then (inr b, say r w) else failed p UnicodeEncodeError w.

Lemma read_text_inv p w x w' :
  read_text p w = (x, w') ->
  w' = w /\
  forall c, x = inr c ->
    exists f t, fs w !! realpath p = Some (IsFile f) /\ readable f = true /\
      data f = Some t /\ c = universal_newlines t.
Proof.
  unfold read_text. intros H. split; [repeat case_match; congruence|].
  intros c ->. destruct (fs w !! realpath p) as [[f|? ?]|]; [|done..].
  destruct (readable f) eqn:?; [|done]. destruct (data f) as [t|] eqn:?; [|done].
  injection H as <- _. by exists f, t.
Qed.

Lemma read_text_file p w f t :
  fs w !! realpath p = Some (IsFile f) -> readable f = true -> data f = Some t ->
  read_text p w = (inr (universal_newlines t), w).
Proof. intros Hp Hr Hd. unfold read_text. by rewrite Hp, Hr, Hd. Qed.

Lemma write_text_out p t w : out (write_text p t w).2 = out w.
Proof. unfold write_text. by repeat case_match. Qed.

Lemma write_text_file p t w f :
  fs w !! realpath p = Some (IsFile f) -> writable f = true ->
  write_text p t w =
    (match cut f t with None => inr tt | Some _ => inl (OSError p) end,
     World (<[realpath p := IsFile (store f t)]> (fs w)) (out w)).
Proof. intros Hp Hw. unfold write_text. rewrite Hp, Hw. by destruct (cut f t). Qed.

Lemma fix_colors_in_file_unfold p w :
  fix_colors_in_file p w =
    match read_text p w with
    | (inl e, _) => failed p e w
    | (inr c, _) =>
      if bool_decide (subs rules c <> c) then
        match write_text p (subs rules c) w with
        | (inl e, w') => failed p e w'
        | (inr _, w') => status p (Changed p (match_total rules c)) true w'
        end
      else status p (Unchanged p) false w
    end.
Proof.
  unfold fix_colors_in_file, try_except, status, failed. rewrite bind_unfold.
  destruct (read_text p w) as [[e|c] w0] eqn:Hread;
    destruct (read_text_inv _ _ _ _ Hread) as [-> _].
  { rewrite bind_unfold, print_unfold. by destruct (console _ _). }
  rewrite bind_unfold, loop_rules. cbv beta iota.
  case_bool_decide.
  - rewrite bind_unfold.
    destruct (write_text p (subs rules c) w) as [[e|[]] w1]; cbv beta iota.
    + rewrite bind_unfold, print_unfold. by destruct (console _ _).
    + rewrite bind_unfold, print_unfold.
      destruct (console (out w1) (Changed _ _)); [done|].
      rewrite bind_unfold, print_unfold. by destruct (console _ _).
  - rewrite bind_unfold, print_unfold.
    destruct (console (out w) (Unchanged _)); [done|].
    rewrite bind_unfold, print_unfold. by destruct (console _ _).
Qed.

Lemma findall_nil_NoHit r s : headed r = true -> findall r s = [] -> NoHit r s.
Proof.
  intros Hr Hf. destruct (first_hit r s Hr) as [|(u & w & s' & -> & Hw & Hu & Hm)]; [done|].
  unfold findall in Hf. rewrite scan_first_hit in Hf by done.
  by rewrite omap_app, hits_keep in Hf.
Qed.

Lemma match_total_zero rs : forall s,
  Forall (fun rule => headed rule.1 = true) rs ->
  match_total rs s = 0%nat -> subs rs s = s.
Proof.
  induction rs as [|rule rs IH]; intros s Hh Hz; [done|].
  apply Forall_cons in Hh as [Hh Hhs]. simpl in *.
  assert (Hf : findall rule.1 s = []) by (apply length_zero_iff_nil; lia).
  rewrite Hf in Hz. apply findall_nil_NoHit in Hf; [|done].
  rewrite NoHit_sub in * by done. by apply IH.
Qed.

(** A text the table leaves as it is holds no match of a rule. *)
Lemma subs_same_total s : subs rules s = s -> match_total rules s = 0%nat.
Proof. intros H. rewrite <- H. apply subs_idempotent. Qed.

Lemma changed_total s : subs rules s <> s -> (0 < match_total rules s)%nat.
Proof.
  intros Hne. destruct (match_total rules s) eqn:Hz; [|lia].
  apply match_total_zero in Hz; [contradiction|apply rules_headed].
Qed.

(** The world after the text [t] was written to the file [f] at the place
    of [p]. *)
Definition rewritten (p : text) (f : file) (t : text) (w : world) : world :=
  World (<[realpath p := IsFile (store f t)]> (fs w)) (out w).

Ltac consoles :=
  repeat match goal with
         | |- context [console ?l ?r] => destruct (console l r) eqn:?
         end.

(** The five ways of [fix_colors_in_file]: the file cannot be read; the
    table changes nothing; the file cannot be opened for writing; the
    write breaks off; the file is rewritten. *)
Lemma fix_cases p w :
  (exists e, read_text p w = (inl e, w) /\
     (forall f t, fs w !! realpath p = Some (IsFile f) -> readable f = true ->
        data f = Some t -> False) /\
     fix_colors_in_file p w = failed p e w) \/
  (exists f t, fs w !! realpath p = Some (IsFile f) /\ readable f = true /\
     data f = Some t /\
     let c := universal_newlines t in
     read_text p w = (inr c, w) /\
     ((subs rules c = c /\
       fix_colors_in_file p w = status p (Unchanged p) false w) \/
      (subs rules c <> c /\ writable f = false /\
       write_text p (subs rules c) w = (inl (PermissionError p), w) /\
       fix_colors_in_file p w = failed p (PermissionError p) w) \/
      (subs rules c <> c /\ writable f = true /\ is_Some (cut f (subs rules c)) /\
       write_text p (subs rules c) w = (inl (OSError p), rewritten p f (subs rules c) w) /\
       fix_colors_in_file p w = failed p (OSError p) (rewritten p f (subs rules c) w)) \/
      (subs rules c <> c /\ writable f = true /\ cut f (subs rules c) = None /\
       write_text p (subs rules c) w = (inr tt, rewritten p f (subs rules c) w) /\
       fix_colors_in_file p w =
         status p (Changed p (match_total rules c)) true (rewritten p f (subs rules c) w)))).
Proof.
  rewrite fix_colors_in_file_unfold.
  destruct (read_text p w) as [[e|c] w0] eqn:Hread;
    destruct (read_text_inv _ _ _ _ Hread) as [-> Hinv].
  { left. exists e. split_and!; [done| |done]. intros f t Hp Hr Hd.
    by rewrite (read_text_file p w f t) in Hread. }
  destruct (Hinv c eq_refl) as (f & t & Hp & Hf & Hc & ->). clear Hinv.
  right. exists f, t. split_and!; [done..|]. cbv zeta. split; [done|].
  case_bool_decide as Hch.
  2:{ left. split; [|done]. by destruct (decide (subs rules (universal_newlines t) =
                                                   universal_newlines t)). }
  right. destruct (writable f) eqn:Hw.
  - rewrite (write_text_file p _ w f Hp Hw). unfold rewritten.
    destruct (cut f (subs rules (universal_newlines t))) as [d|] eqn:Hcut.
    + right; left. by split_and!.
    + right; right. by split_and!.
  - left. unfold write_text. rewrite Hp, Hw. by split_and!.
Qed.

(** C10. [fix_colors_in_file] lets one exception out: that of its own
    error line.  The status lines are printed inside the [try], and the
    handler prints as well; when the standard output refuses the line of
    the handler, [print] raises there and nothing catches it.  So the
    function raises nothing but [UnicodeEncodeError], and only with an
    error line refused; whenever the standard output takes the error
    lines, it returns a boolean.  The boolean is [True] exactly when the
    file was read, the rules changed its text, the new text was written in
    full and the line with the count was printed.  It is [False] when no
    rule matched (the file is left alone and reported as unchanged), when
    the file could not be read and when it could not be written (both
    reported as an error), and also when the file was rewritten and the
    line with the count was refused: so [False] alone does not tell an
    error from a file without a match. *)
Theorem fix_colors_in_file_returns p w :
  (forall e, (fix_colors_in_file p w).1 = inl e ->
     e = UnicodeEncodeError /\
     exists e0, console (out (fix_colors_in_file p w).2) (Failed p e0) = false) /\
  ((forall l e, console l (Failed p e) = true) ->
     exists b, (fix_colors_in_file p w).1 = inr b) /\
  (forall w', fix_colors_in_file p w = (inr true, w') <->
     exists f t, fs w !! realpath p = Some (IsFile f) /\ readable f = true /\
       data f = Some t /\ writable f = true /\
       subs rules (universal_newlines t) <> universal_newlines t /\
       cut f (subs rules (universal_newlines t)) = None /\
       console (out w) (Changed p (match_total rules (universal_newlines t))) = true /\
       w' = say (Changed p (match_total rules (universal_newlines t)))
              (rewritten p f (subs rules (universal_newlines t)) w)) /\
  (forall c, read_text p w = (inr c, w) -> match_total rules c = 0%nat ->
     console (out w) (Unchanged p) = true ->
     fix_colors_in_file p w = (inr false, say (Unchanged p) w)) /\
  (forall e, read_text p w = (inl e, w) -> console (out w) (Failed p e) = true ->
     fix_colors_in_file p w = (inr false, say (Failed p e) w)) /\
  (forall c e w', read_text p w = (inr c, w) -> subs rules c <> c ->
     write_text p (subs rules c) w = (inl e, w') ->
     console (out w) (Failed p e) = true ->
     fix_colors_in_file p w = (inr false, say (Failed p e) w')) /\
  (forall c w', read_text p w = (inr c, w) -> subs rules c <> c ->
     write_text p (subs rules c) w = (inr tt, w') ->
     console (out w) (Changed p (match_total rules c)) = false ->
     console (out w) (Failed p UnicodeEncodeError) = true ->
     fix_colors_in_file p w = (inr false, say (Failed p UnicodeEncodeError) w')).
Proof.
  destruct (fix_cases p w) as
    [(e & Hread & Hno & Hfix)|(f & t & Hp & Hr & Hd & Hread &
       [(Hsame & Hfix)|[(Hne & Hw & Hwrite & Hfix)|[(Hne & Hw & Hcut & Hwrite & Hfix)|
        (Hne & Hw & Hcut & Hwrite & Hfix)]]])];
    cbv zeta in *; rewrite Hfix; unfold status, failed, rewritten in *; cbn [out fs say].
  - split_and!.
    + intros e'. consoles; [done|]. intros [= <-]. split; [done|]. by exists e.
    + intros Hall. rewrite Hall. by exists false.
    + intros w'. split; [by consoles|].
      intros (f & t & Hp & Hr & Hd & _). by destruct (Hno f t).
    + intros c Hc. congruence.
    + intros e' He' Hc. assert (e' = e) as -> by congruence. by rewrite Hc.
    + intros c e' w' Hc. congruence.
    + intros c w' Hc. congruence.
  - split_and!.
    + intros e'. consoles; [done..|]. intros [= <-]. split; [done|].
      by exists UnicodeEncodeError.
    + intros Hall. rewrite Hall. consoles; by exists false.
    + intros w'. split; [by consoles|].
      intros (f' & t' & Hp' & _ & Hd' & _ & Hne & _).
      assert (t' = t) as -> by congruence. contradiction.
    + intros c _ _ ->. done.
    + intros e He. congruence.
    + intros c e w' Hc Hne. assert (c = universal_newlines t) as -> by congruence.
      contradiction.
    + intros c w' Hc Hne. assert (c = universal_newlines t) as -> by congruence.
      contradiction.
  - split_and!.
    + intros e'. consoles; [done|]. intros [= <-]. split; [done|].
      by exists (PermissionError p).
    + intros Hall. rewrite Hall. by exists false.
    + intros w'. split; [by consoles|].
      intros (f' & t' & Hp' & _ & _ & Hw' & _). congruence.
    + intros c Hc Hz. assert (c = universal_newlines t) as -> by congruence.
      apply match_total_zero in Hz; [contradiction|apply rules_headed].
    + intros e He. congruence.
    + intros c e w' Hc _ Hwr Hcon.
      assert (c = universal_newlines t) as -> by congruence.
      rewrite Hwrite in Hwr. injection Hwr as <- <-. by rewrite Hcon.
    + intros c w' Hc _ Hwr. assert (c = universal_newlines t) as -> by congruence.
      congruence.
  - split_and!.
    + intros e'. consoles; [done|]. intros [= <-]. split; [done|].
      by exists (OSError p).
    + intros Hall. rewrite Hall. by exists false.
    + intros w'. split; [by consoles|].
      intros (f' & t' & Hp' & _ & Hd' & _ & _ & Hcut' & _).
      assert (f' = f) as -> by congruence. assert (t' = t) as -> by congruence.
      rewrite Hcut' in Hcut. by destruct Hcut.
    + intros c Hc Hz. assert (c = universal_newlines t) as -> by congruence.
      apply match_total_zero in Hz; [contradiction|apply rules_headed].
    + intros e He. congruence.
    + intros c e w' Hc _ Hwr Hcon.
      assert (c = universal_newlines t) as -> by congruence.
      rewrite Hwrite in Hwr. injection Hwr as <- <-. by rewrite Hcon.
    + intros c w' Hc _ Hwr. assert (c = universal_newlines t) as -> by congruence.
      congruence.
  - split_and!.
    + intros e'. consoles; [done..|]. intros [= <-]. split; [done|].
      by exists UnicodeEncodeError.
    + intros Hall. rewrite Hall. consoles; [by exists true|by exists false].
    + intros w'. split.
      * consoles; [|done..]. intros [= <-]. exists f, t. by split_and!.
      * intros (f' & t' & Hp' & _ & Hd' & _ & _ & _ & Hc & ->).
        assert (f' = f) as -> by congruence. assert (t' = t) as -> by congruence.
        by rewrite Hc.
    + intros c Hc Hz. assert (c = universal_newlines t) as -> by congruence.
      apply match_total_zero in Hz; [contradiction|apply rules_headed].
    + intros e He. congruence.
    + intros c e w' Hc _ Hwr. assert (c = universal_newlines t) as -> by congruence.
      congruence.
    + intros c w' Hc _ Hwr Hc1 Hc2.
      assert (c = universal_newlines t) as -> by congruence.
      rewrite Hwrite in Hwr. injection Hwr as <-. by rewrite Hc1, Hc2.
Qed.

(** C7. The count [fix_colors_in_file] reports is the sum, over the rules
    in the order of the table, of the number of matches of the rule in the
    text the rules before it left ([match_total]): the loop over the table
    computes it next to the rewritten text, and a file that is changed is
    reported with it.  A rule without a match adds nothing and leaves the
    text as it is. *)
Theorem reported_count :
  (forall content w,
     for_each color_replacements apply_rule (content, 0%nat) w =
       (inr (subs rules content, match_total rules content), w)) /\
  (forall p w w', fix_colors_in_file p w = (inr true, w') ->
     exists c, read_text p w = (inr c, w) /\
       out w' = out w ++ [Changed p (match_total rules c)]) /\
  Forall (fun rule => forall s n,
            findall rule.1 s = [] -> step rule (s, n) = (s, n)) rules.
Proof.
  split_and!.
  - apply loop_rules.
  - intros p w w'.
    destruct (fix_cases p w) as
      [(e & Hread & Hno & Hfix)|(f & t & Hp & Hr & Hd & Hread &
         [(Hsame & Hfix)|[(Hne & Hw & Hwrite & Hfix)|[(Hne & Hw & Hcut & Hwrite & Hfix)|
          (Hne & Hw & Hcut & Hwrite & Hfix)]]])];
      cbv zeta in *; rewrite Hfix; unfold status, failed, rewritten; cbn [out fs say].
    + by consoles.
    + by consoles.
    + by consoles.
    + by consoles.
    + consoles; [|done..]. intros [= <-]. by eexists.
  - apply Forall_forall. intros rule Hin s n Hf.
    rewrite step_good by (by apply rules_good_in).
    destruct (good_rule_spec _ (rules_good_in rule Hin)) as (Hh & _).
    rewrite Hf. apply findall_nil_NoHit in Hf; [|done].
    rewrite NoHit_sub by done. simpl. by rewrite Nat.add_0_r.
Qed.

(** C8. When the component directory does not exist, the first phase does
    nothing at all: no file is touched, no error is raised and no line is
    reported for it; the run goes on with the dark-mode file and the
    special case as if the phase were not there. *)
Theorem missing_component_dir w :
  fs w !! realpath component_dir = None ->
  process_components w = (inr tt, w) /\
  main w = (print Started;; process_dark_mode;; process_app_css;; print Completed) w.
Proof.
  intros Hd.
  assert (Hp : forall w0, fs w0 !! realpath component_dir = None ->
            process_components w0 = (inr tt, w0)).
  { intros w0 H0. unfold process_components, path_exists.
    rewrite bind_unfold, H0.
    by rewrite bool_decide_eq_false_2 by (by intros [? ?]). }
  split; [by apply Hp|]. unfold main.
  rewrite (bind_unfold (print Started)).
  rewrite (bind_unfold (print Started) (fun _ => process_dark_mode ≫= _)).
  rewrite print_unfold. destruct (console (out w) Started); [|done].
  by rewrite bind_unfold, Hp.
Qed.

(** ** Two scenarios, in the loop and in the file *)

(** What [fix_colors_in_file] leaves at the place of a file it can read
    and write, when the table changes the text. *)
Lemma fix_writes p w f t :
  fs w !! realpath p = Some (IsFile f) -> readable f = true -> writable f = true ->
  data f = Some t ->
  subs rules (universal_newlines t) <> universal_newlines t ->
  fs (fix_colors_in_file p w).2 !! realpath p =
    Some (IsFile (store f (subs rules (universal_newlines t)))) /\
  (cut f (subs rules (universal_newlines t)) = None ->
   console (out w) (Changed p (match_total rules (universal_newlines t))) = true ->
   fix_colors_in_file p w =
     (inr true, say (Changed p (match_total rules (universal_newlines t)))
                  (rewritten p f (subs rules (universal_newlines t)) w))).
Proof.
  intros Hp Hr Hw Hd Hne.
  destruct (fix_cases p w) as
    [(e & Hread & Hno & Hfix)|(f' & t' & Hp' & _ & Hd' & Hread &
       [(Hsame & Hfix)|[(_ & Hw' & _ & Hfix)|[(_ & _ & Hcut & _ & Hfix)|
        (_ & _ & Hcut & _ & Hfix)]]])]; cbv zeta in *.
  - by destruct (Hno f t).
  - assert (t' = t) as -> by congruence. contradiction.
  - congruence.
  - assert (f' = f) as -> by congruence. assert (t' = t) as -> by congruence.
    rewrite Hfix. unfold failed, rewritten. split.
    + consoles; cbn [snd fs say]; by rewrite lookup_insert_eq.
    + intros Hc. rewrite Hc in Hcut. by destruct Hcut.
  - assert (f' = f) as -> by congruence. assert (t' = t) as -> by congruence.
    rewrite Hfix. unfold status, failed, rewritten. cbn [out]. split.
    + consoles; cbn [snd fs say]; by rewrite lookup_insert_eq.
    + intros _ Hc. by rewrite Hc.
Qed.

(** C6. A file whose text holds the gradient expression
    [linear-gradient(135deg, #a855f7 0%, #9333ea 100%)].  In the first turn
    of the loop of [fix_colors_in_file] the rule of the gradient replaces
    the whole expression by [var(--primary-gradient)] as one match, next
    to the matches in the text before and in the text after.  The loop
    over the whole table yields the rewritten text up to the gradient,
    which ends with [var(--primary-gradient)], followed by the rewritten
    rest: the rules that follow leave the replacement alone, and the two
    colours inside the expression are never replaced on their own.  The
    text is changed, so [fix_colors_in_file] writes that text to the
    file.  Reading keeps the expression where it stands in the file,
    whatever the line ends around it. *)
Theorem gradient_replaced_whole pre post :
  (forall a b,
     universal_newlines (a ++ gradient_text ++ b) =
       universal_newlines a ++ gradient_text ++ universal_newlines b) /\
  (forall n w,
     apply_rule ("linear-gradient\(135deg,\s*#a855f7\s+0%,\s*#9333ea\s+100%\)"%string,
                 "var(--primary-gradient)"%string)
       (pre ++ gradient_text ++ post, n) w =
     (inr (sub gradient_rule.1 gradient_rule.2 pre ++ gradient_var ++
           sub gradient_rule.1 gradient_rule.2 post,
           (n + (length (findall gradient_rule.1 pre) + 1 +
                 length (findall gradient_rule.1 post)))%nat), w)) /\
  exists pre',
    subs rules (pre ++ gradient_text) = pre' ++ gradient_var /\
    (forall w,
       for_each color_replacements apply_rule (pre ++ gradient_text ++ post, 0%nat) w =
         (inr (pre' ++ gradient_var ++ subs rules post,
               match_total rules (pre ++ gradient_text ++ post)), w)) /\
    (0 < match_total rules (pre ++ gradient_text ++ post))%nat /\
    (forall p w f t,
       fs w !! realpath p = Some (IsFile f) -> readable f = true -> writable f = true ->
       data f = Some t -> universal_newlines t = pre ++ gradient_text ++ post ->
       fs (fix_colors_in_file p w).2 !! realpath p =
         Some (IsFile (store f (pre' ++ gradient_var ++ subs rules post)))).
Proof.
  destruct (gradient_in_text pre post) as (Hscan & Hsub & Hsubs & (pre' & Hpre) & _).
  assert (Hfind : findall gradient_rule.1 (pre ++ gradient_text ++ post) =
            findall gradient_rule.1 pre ++ gradient_text :: findall gradient_rule.1 post).
  { unfold findall. by rewrite Hscan, omap_app. }
  assert (Hgood : good_rule gradient_rule = true).
  { apply rules_good_in. rewrite rules_first. apply list_elem_of_here. }
  assert (Hpos : (0 < match_total rules (pre ++ gradient_text ++ post))%nat).
  { rewrite rules_first, match_total_cons, Hfind, length_app. simpl. lia. }
  assert (Hall : subs rules (pre ++ gradient_text ++ post) =
            pre' ++ gradient_var ++ subs rules post).
  { by rewrite Hsubs, Hpre, <- app_assoc. }
  split; [|split].
  - intros a b. apply universal_newlines_around; [done|].
    apply (bool_decide_unpack _). by vm_compute.
  - intros n w. rewrite (apply_rule_compiled _ gradient_rule) by apply gradient_rule_source.
    rewrite step_good by done. rewrite Hsub, Hfind, length_app. simpl.
    do 3 f_equal. lia.
  - exists pre'. split_and!; [done| |done|].
    + intros w. by rewrite loop_rules, Hall.
    + intros p w f t Hp Hr Hw Hd Ht.
      destruct (fix_writes p w f t Hp Hr Hw Hd) as [Hfile _].
      * rewrite Ht. intros Hsame. apply subs_same_total in Hsame. lia.
      * by rewrite Hfile, Ht, Hall.
Qed.

(** C9. A file whose text holds the declaration [color: #9333ea;] and is
    processed with the table.  The loop of [fix_colors_in_file] yields the
    text in which [color: var(--primary);] stands in its place, between
    the rewritten text before it and the rewritten text after it, and a
    count to which the declaration adds exactly 1.  The text is changed, so
    [fix_colors_in_file] writes it to the file, and when the write goes
    through and the line is printed, the line reports that count.  A file
    that holds nothing but the declaration becomes [color: var(--primary);]
    and is reported with a count of 1.  Reading keeps the declaration
    where it stands in the file, whatever the line ends around it. *)
Theorem color_declaration_rewritten pre post :
  (forall a b,
     universal_newlines (a ++ txt "color: #9333ea;" ++ b) =
       universal_newlines a ++ txt "color: #9333ea;" ++ universal_newlines b) /\
  exists pre',
    subs rules (pre ++ txt "color: ") = pre' ++ txt "color: " /\
    (forall w,
       for_each color_replacements apply_rule
         (pre ++ txt "color: #9333ea;" ++ post, 0%nat) w =
       (inr (pre' ++ txt "color: var(--primary);" ++ subs rules post,
             (match_total rules (pre ++ txt "color: ") + 1 +
              match_total rules post)%nat), w)) /\
    (forall p w f t,
       fs w !! realpath p = Some (IsFile f) -> readable f = true -> writable f = true ->
       data f = Some t ->
       universal_newlines t = pre ++ txt "color: #9333ea;" ++ post ->
       fs (fix_colors_in_file p w).2 !! realpath p =
         Some (IsFile (store f (pre' ++ txt "color: var(--primary);" ++ subs rules post))) /\
       (cut f (pre' ++ txt "color: var(--primary);" ++ subs rules post) = None ->
        console (out w)
          (Changed p (match_total rules (pre ++ txt "color: ") + 1 +
                      match_total rules post)) = true ->
        fix_colors_in_file p w =
          (inr true,
           say (Changed p (match_total rules (pre ++ txt "color: ") + 1 +
                           match_total rules post))
             (rewritten p f (pre' ++ txt "color: var(--primary);" ++ subs rules post) w)))) /\
    (pre = [] -> post = [] ->
     pre' ++ txt "color: var(--primary);" ++ subs rules post =
       txt "color: var(--primary);" /\
     (match_total rules (pre ++ txt "color: ") + 1 + match_total rules post)%nat = 1%nat).
Proof.
  destruct (declaration_in_text pre post) as ((pre' & Hpre & Hsubs) & Htotal & Hone & Hcount).
  split.
  { intros a b. apply universal_newlines_around; [done|].
    apply (bool_decide_unpack _). by vm_compute. }
  exists pre'. split_and!; [done| | |].
  - intros w. by rewrite loop_rules, Hsubs, Htotal.
  - intros p w f t Hp Hr Hw Hd Ht.
    destruct (fix_writes p w f t Hp Hr Hw Hd) as [Hfile Hrun].
    { rewrite Ht. intros Hsame. apply subs_same_total in Hsame. lia. }
    rewrite Ht, Hsubs, Htotal in *. by split.
  - intros -> ->. rewrite app_nil_l, app_nil_r in Hsubs, Htotal.
    rewrite <- Hsubs, <- Htotal, Hone, Hcount. by split.
Qed.

(** * What a run does to the file system

    The only thing the script does to a file system is to write a file it
    has just read: at a place that holds a file that can be read, decoded
    and written.  [writes_to T m m']: the file system [m'] comes from [m]
    by such writes, at places of [T]. *)
Inductive writes_to (T : text -> Prop) :
    gmap (list N) node -> gmap (list N) node -> Prop :=
| writes_none m : writes_to T m m
| writes_more m q f t m' :
    T q -> m !! q = Some (IsFile f) ->
    readable f = true -> writable f = true -> is_Some (data f) ->
    writes_to T (<[q := IsFile (store f t)]> m) m' ->
    writes_to T m m'.

Lemma writes_one (T : text -> Prop) m q f t :
  T q -> m !! q = Some (IsFile f) ->
  readable f = true -> writable f = true -> is_Some (data f) ->
  writes_to T m (<[q := IsFile (store f t)]> m).
Proof. intros. eapply writes_more; [done..|constructor]. Qed.

Lemma writes_trans T m1 m2 m3 :
  writes_to T m1 m2 -> writes_to T m2 m3 -> writes_to T m1 m3.
Proof.
  induction 1 as [|m q f t m' HT Hq Hr Hw Hd _ IH]; [done|].
  intros H3. eapply writes_more; [done..|]. by apply IH.
Qed.

Lemma writes_mono (T T' : text -> Prop) m m' :
  (forall q, T q -> T' q) -> writes_to T m m' -> writes_to T' m m'.
Proof.
  intros HT. induction 1 as [|m q f t m' Hq]; [constructor|].
  eapply writes_more; [by apply HT|done..].
Qed.

(** [m ;; mret tt] *)
Lemma void_unfold {A} (m : M A) w :
  (m ;; mret tt) w =
    (match (m w).1 with inl e => inl e | inr _ => inr tt end, (m w).2).
Proof. rewrite bind_unfold. by destruct (m w) as [[e|a] w']. Qed.

Lemma fix_fs p w :
  writes_to (fun q => q = realpath p) (fs w) (fs (fix_colors_in_file p w).2).
Proof.
  destruct (fix_cases p w) as
    [(e & Hread & Hno & Hfix)|(f & t & Hp & Hr & Hd & Hread &
       [(Hsame & Hfix)|[(Hne & Hw & Hwrite & Hfix)|[(Hne & Hw & Hcut & Hwrite & Hfix)|
        (Hne & Hw & Hcut & Hwrite & Hfix)]]])];
    cbv zeta in *; rewrite Hfix; unfold status, failed, rewritten;
    consoles; cbn [snd fs say]; try constructor;
    by apply writes_one; [..|rewrite Hd].
Qed.

Lemma spinner_pattern_compiles : re_compile (txt spinner_pattern) = Some spinner_regex.
Proof. vm_compute. reflexivity. Qed.

(** The ways of the special case: no file; a file that cannot be read; a
    file that cannot be opened for writing; a write that breaks off; the
    file is written, and the line follows. *)
Lemma app_css_cases w :
  (fs w !! realpath app_css_file = None /\ process_app_css w = (inr tt, w)) \/
  (exists e, is_Some (fs w !! realpath app_css_file) /\
     read_text app_css_file w = (inl e, w) /\
     (e = PermissionError app_css_file \/ e = IsADirectoryError app_css_file \/
      e = UnicodeDecodeError app_css_file) /\
     (forall f t, fs w !! realpath app_css_file = Some (IsFile f) -> readable f = true ->
        data f = Some t -> False) /\
     process_app_css w = (inl e, w)) \/
  (exists f t, fs w !! realpath app_css_file = Some (IsFile f) /\ readable f = true /\
     data f = Some t /\
     let c := sub spinner_regex spinner_replacement (universal_newlines t) in
     ((writable f = false /\
       process_app_css w = (inl (PermissionError app_css_file), w)) \/
      (writable f = true /\ is_Some (cut f c) /\
       process_app_css w = (inl (OSError app_css_file), rewritten app_css_file f c w)) \/
      (writable f = true /\ cut f c = None /\
       process_app_css w =
         print (SpinnerFixed app_css_file) (rewritten app_css_file f c w)))).
Proof.
  unfold process_app_css, path_exists. rewrite bind_unfold.
  destruct (fs w !! realpath app_css_file) as [x|] eqn:Hd.
  2:{ left. by rewrite bool_decide_eq_false_2 by (by intros [? ?]). }
  right. rewrite bool_decide_eq_true_2 by eauto. rewrite bind_unfold.
  destruct (read_text app_css_file w) as [[e|c] w0] eqn:Hread;
    destruct (read_text_inv _ _ _ _ Hread) as [-> Hinv].
  { left. exists e. split_and!; [eauto|done| | |done].
    - unfold read_text in Hread. rewrite Hd in Hread.
      destruct x as [f|l b]; [|injection Hread as <-; auto].
      destruct (readable f); [|injection Hread as <-; auto].
      destruct (data f); [done|injection Hread as <-; auto].
    - intros f t Hp Hr Ht. injection Hp as ->.
      by rewrite (read_text_file _ w f t) in Hread. }
  destruct (Hinv c eq_refl) as (f & t & Hp & Hf & Hc & ->). clear Hinv.
  right. exists f, t. rewrite <- Hd. split_and!; [done..|]. cbv zeta.
  unfold re_sub. rewrite spinner_pattern_compiles.
  rewrite !bind_unfold, ret_unfold. cbv beta iota. rewrite bind_unfold.
  destruct (writable f) eqn:Hw.
  - rewrite (write_text_file _ _ w f Hp Hw). unfold rewritten.
    destruct (cut f _) as [d|] eqn:Hcut.
    + right; left. by split_and!.
    + right; right. by split_and!.
  - left. unfold write_text. rewrite Hp, Hw. by split.
Qed.

Lemma app_css_fs w :
  writes_to (fun q => q = realpath app_css_file) (fs w) (fs (process_app_css w).2).
Proof.
  destruct (app_css_cases w) as
    [[_ ->]|[(e & _ & _ & _ & _ & ->)|(f & t & Hp & Hr & Hd &
       [(Hw & ->)|[(Hw & Hcut & ->)|(Hw & Hcut & ->)]])]];
    try constructor; rewrite ?print_unfold; unfold rewritten; consoles;
    cbn [snd fs say]; by apply writes_one; [..|rewrite Hd].
Qed.

(** The paths the loop over the listing [names] hands to
    [fix_colors_in_file]. *)
Definition component_paths (names : list text) : list text :=
  path_join component_dir <$> filter (fun n => endswith n (txt ".css") = true) names.

Lemma component_paths_cons n names :
  component_paths (n :: names) =
    if endswith n (txt ".css")
    then path_join component_dir n :: component_paths names
    else component_paths names.
Proof.
  unfold component_paths. rewrite filter_cons.
  destruct (endswith n (txt ".css")) eqn:He.
  - by rewrite decide_True by done.
  - by rewrite decide_False by done.
Qed.

Lemma component_paths_elem p names :
  p ∈ component_paths names <->
  exists n, n ∈ names /\ endswith n (txt ".css") = true /\ p = path_join component_dir n.
Proof.
  unfold component_paths. rewrite list_elem_of_fmap. split.
  - intros (n & -> & [He Hn]%list_elem_of_filter). by exists n.
  - intros (n & Hn & He & ->). exists n. split; [done|]. by apply list_elem_of_filter.
Qed.

(** One turn of the loop over the component directory. *)
Lemma process_component_unfold n w :
  process_component n tt w =
    if endswith n (txt ".css")
    then (match (fix_colors_in_file (path_join component_dir n) w).1 with
          | inl e => inl e
          | inr _ => inr tt
          end, (fix_colors_in_file (path_join component_dir n) w).2)
    else (inr tt, w).
Proof.
  unfold process_component. destruct (endswith n (txt ".css")); [|reflexivity].
  cbv zeta. apply void_unfold.
Qed.

Lemma components_fs names : forall w,
  writes_to (fun q => exists p, p ∈ component_paths names /\ q = realpath p)
    (fs w) (fs (for_each names process_component tt w).2).
Proof.
  induction names as [|n names IH]; intros w; [constructor|].
  cbn [for_each]. rewrite bind_unfold, process_component_unfold.
  rewrite component_paths_cons. destruct (endswith n (txt ".css")).
  - pose proof (fix_fs (path_join component_dir n) w) as H1.
    destruct (fix_colors_in_file (path_join component_dir n) w) as [[e|b] w1];
      cbn [fst snd] in *.
    + eapply writes_mono; [|exact H1]. intros q ->. eexists. split; [|done].
      apply list_elem_of_here.
    + eapply writes_trans.
      * eapply writes_mono; [|exact H1]. intros q ->. eexists. split; [|done].
        apply list_elem_of_here.
      * eapply writes_mono; [|apply IH]. intros q (p & Hp & ->). exists p.
        split; [by apply list_elem_of_further|done].
  - apply IH.
Qed.

(** The phases of [main], case by case. *)
Lemma process_components_unfold w :
  process_components w =
    match fs w !! realpath component_dir with
    | Some (IsDir names true) => for_each names process_component tt w
    | Some (IsDir names false) => (inl (PermissionError component_dir), w)
    | Some (IsFile _) => (inl (NotADirectoryError component_dir), w)
    | None => (inr tt, w)
    end.
Proof.
  unfold process_components, path_exists. rewrite bind_unfold.
  destruct (fs w !! realpath component_dir) as [[f|names [|]]|] eqn:Hd.
  - rewrite bool_decide_eq_true_2 by eauto.
    unfold listdir. by rewrite bind_unfold, Hd.
  - rewrite bool_decide_eq_true_2 by eauto.
    unfold listdir. by rewrite bind_unfold, Hd.
  - rewrite bool_decide_eq_true_2 by eauto.
    unfold listdir. by rewrite bind_unfold, Hd.
  - by rewrite bool_decide_eq_false_2 by (by intros [? ?]).
Qed.

Lemma process_dark_mode_unfold w :
  process_dark_mode w =
    match fs w !! realpath dark_mode_file with
    | Some _ => (match (fix_colors_in_file dark_mode_file w).1 with
                 | inl e => inl e
                 | inr _ => inr tt
                 end, (fix_colors_in_file dark_mode_file w).2)
    | None => (inr tt, w)
    end.
Proof.
  unfold process_dark_mode, path_exists. rewrite bind_unfold.
  destruct (fs w !! realpath dark_mode_file) as [x|] eqn:Hd.
  - rewrite bool_decide_eq_true_2 by eauto. apply void_unfold.
  - by rewrite bool_decide_eq_false_2 by (by intros [? ?]).
Qed.

Lemma main_unfold w :
  main w =
    if console (out w) Started then
      match process_components (say Started w) with
      | (inl e, w1) => (inl e, w1)
      | (inr _, w1) =>
        match process_dark_mode w1 with
        | (inl e, w2) => (inl e, w2)
        | (inr _, w2) =>
          match process_app_css w2 with
          | (inl e, w3) => (inl e, w3)
          | (inr _, w3) => print Completed w3
          end
        end
      end
    else (inl UnicodeEncodeError, w).
Proof.
  unfold main. rewrite bind_unfold, print_unfold.
  destruct (console (out w) Started); [|done].
  rewrite bind_unfold. destruct (process_components (say Started w)) as [[e|[]] w1]; [done|].
  rewrite bind_unfold. destruct (process_dark_mode w1) as [[e|[]] w2]; [done|].
  rewrite bind_unfold. by destruct (process_app_css w2) as [[e|[]] w3].
Qed.

(** The places a run of [main] on the file system [m] works on with the
    table: where the dark-mode file leads, and where the names of the
    listing of the component directory that end with [.css] lead. *)
Definition table_place (m : gmap (list N) node) (q : text) : Prop :=
  q = realpath dark_mode_file \/
  exists names n, m !! realpath component_dir = Some (IsDir names true) /\ n ∈ names /\
    endswith n (txt ".css") = true /\ q = realpath (path_join component_dir n).

Lemma process_components_fs w :
  writes_to (table_place (fs w)) (fs w) (fs (process_components w).2).
Proof.
  rewrite process_components_unfold.
  destruct (fs w !! realpath component_dir) as [[f|names [|]]|] eqn:Hd; try constructor.
  eapply writes_mono; [|apply components_fs].
  intros q (p & (n & Hn & He & ->)%component_paths_elem & ->).
  right. by exists names, n.
Qed.

Lemma process_dark_mode_fs w :
  writes_to (fun q => q = realpath dark_mode_file) (fs w) (fs (process_dark_mode w).2).
Proof.
  rewrite process_dark_mode_unfold.
  destruct (fs w !! realpath dark_mode_file); [|constructor]. apply fix_fs.
Qed.

(** A run of [main]: writes of the table at its places, and then at most
    one write of the special case. *)
Lemma main_fs w :
  exists m, writes_to (table_place (fs w)) (fs w) m /\
    writes_to (fun q => q = realpath app_css_file) m (fs (main w).2).
Proof.
  rewrite main_unfold.
  destruct (console (out w) Started); [|exists (fs w); split; constructor].
  pose proof (process_components_fs (say Started w)) as H1. cbn [fs say] in H1.
  destruct (process_components (say Started w)) as [[e|[]] w1]; cbn [snd] in H1.
  { exists (fs w1). split; [done|constructor]. }
  pose proof (process_dark_mode_fs w1) as H2.
  assert (H12 : writes_to (table_place (fs w)) (fs w) (fs (process_dark_mode w1).2)).
  { eapply writes_trans; [exact H1|]. eapply writes_mono; [|exact H2].
    intros q ->. by left. }
  destruct (process_dark_mode w1) as [[e|[]] w2]; cbn [snd] in H12.
  { exists (fs w2). split; [done|constructor]. }
  pose proof (app_css_fs w2) as H3. exists (fs w2). split; [done|].
  destruct (process_app_css w2) as [[e|[]] w3]; cbn [snd] in H3; [done|].
  rewrite print_unfold. by destruct (console _ _).
Qed.

Lemma writes_off T m m' q :
  writes_to T m m' -> ~ T q -> m' !! q = m !! q.
Proof.
  intros H Hq. induction H as [|m q0 f t m' HT Hq0 Hr Hw Hd _ IH]; [done|].
  rewrite IH. apply lookup_insert_ne. by intros ->.
Qed.

(** [written f f']: the file [f'] is what reading the file [f] and writing
    it, once or more often, leaves.  It can still be read and written, and
    the device is the same; it holds text when the device takes every
    write (a write that broke off may leave bytes that are no text). *)
Definition written (f f' : file) : Prop :=
  readable f = true /\ writable f = true /\ is_Some (data f) /\
  readable f' = true /\ writable f' = true /\ cut f' = cut f /\
  ((forall t, cut f t = None) -> is_Some (data f')) /\
  (writes f < writes f')%nat.

(** [same_kind n n']: nothing stays nothing, a directory stays the
    directory it is, and a file stays as it is or was read and written. *)
Definition same_kind (n n' : option node) : Prop :=
  match n, n' with
  | None, None => True
  | Some (IsDir l b), Some (IsDir l' b') => l = l' /\ b = b'
  | Some (IsFile f), Some (IsFile f') => f' = f \/ written f f'
  | _, _ => False
  end.

Lemma same_kind_refl n : same_kind n n.
Proof. destruct n as [[f|l b]|]; simpl; auto. Qed.

Lemma same_kind_trans a b c : same_kind a b -> same_kind b c -> same_kind a c.
Proof.
  destruct a as [[fa|la ba]|], b as [[fb|lb bb]|], c as [[fc|lc bc]|]; simpl; try done.
  - intros [->|H1] [->|H2]; [by left|by right|by right|right].
    destruct H1 as (? & ? & ? & _ & _ & Hc1 & _ & ?),
             H2 as (_ & _ & _ & ? & ? & Hc2 & Hd2 & ?).
    unfold written. split_and!; try done; [congruence| |lia].
    intros Hall. apply Hd2. intros t. rewrite Hc1. apply Hall.
  - intros [-> ->] [-> ->]. done.
Qed.

Lemma store_written f t :
  readable f = true -> writable f = true -> is_Some (data f) -> written f (store f t).
Proof.
  intros Hr Hw Hd. unfold written, store. cbn. split_and!; try done; [|lia].
  intros Hall. rewrite Hall. by eexists.
Qed.

Lemma writes_kind T m m' q : writes_to T m m' -> same_kind (m !! q) (m' !! q).
Proof.
  induction 1 as [|m q0 f t m' HT Hq0 Hr Hw Hd _ IH]; [apply same_kind_refl|].
  eapply same_kind_trans; [|exact IH].
  destruct (decide (q = q0)) as [->|Hne].
  - rewrite lookup_insert_eq, Hq0. right. by apply store_written.
  - rewrite lookup_insert_ne by done. apply same_kind_refl.
Qed.

Lemma main_kind w q : same_kind (fs w !! q) (fs (main w).2 !! q).
Proof.
  destruct (main_fs w) as (m & H1 & H2).
  eapply same_kind_trans; by eapply writes_kind.
Qed.

(** X2. A run of [main] touches three kinds of places only.  Every place
    of the file system is, after the run, exactly what it was before (the
    same node, with the same text, permissions and count of writes),
    unless it is the place [src/styles/App.css] leads to, the place
    [src/styles/dark-mode.css] leads to, or the place the path leads to
    that [os.path.join] makes of [src/components] and a name of its listing
    that ends with [.css].  Where links lead elsewhere, the run follows
    them: a file outside the project is altered only when one of these
    paths leads to it. *)
Theorem main_touches_only w q :
  fs (main w).2 !! q = fs w !! q \/
  q = realpath app_css_file \/ q = realpath dark_mode_file \/
  exists names n, fs w !! realpath component_dir = Some (IsDir names true) /\ n ∈ names /\
    endswith n (txt ".css") = true /\ q = realpath (path_join component_dir n).
Proof.
  destruct (decide (q = realpath app_css_file)) as [->|Ha]; [by right; left|].
  destruct (decide (q = realpath dark_mode_file)) as [->|Hd]; [by right; right; left|].
  destruct (main_fs w) as (m & H1 & H2).
  rewrite (writes_off _ _ _ q H2) by done.
  assert (Hdec : (exists names n, fs w !! realpath component_dir = Some (IsDir names true) /\
                    n ∈ names /\ endswith n (txt ".css") = true /\
                    q = realpath (path_join component_dir n)) \/
                 ~ table_place (fs w) q).
  { unfold table_place.
    destruct (fs w !! realpath component_dir) as [[f|names [|]]|] eqn:Hdir.
    - right. by intros [?|(names & n & ? & _)].
    - destruct (decide (q ∈ realpath <$> component_paths names)) as [Hin|Hout].
      + left. apply list_elem_of_fmap in Hin as (p & -> & Hp).
        apply component_paths_elem in Hp as (n & Hn & He & ->). by exists names, n.
      + right. intros [?|(names' & n & [= <-] & Hn & He & ->)]; [done|].
        apply Hout, list_elem_of_fmap. eexists. split; [done|].
        apply component_paths_elem. by exists n.
    - right. by intros [?|(names' & n & ? & _)].
    - right. by intros [?|(names & n & ? & _)]. }
  destruct Hdec as [Hin|Hout]; [by right; right; right|left].
  by apply (writes_off _ _ _ q H1).
Qed.

(** X3. A run of [main] creates nothing and deletes nothing.  For every
    place: what did not exist does not exist after the run, a directory is
    the same directory with the same listing, and a file is either exactly
    as it was or it was a readable, writable file with decodable text that
    has been written (its count of writes grew) and is still readable and
    writable, on the same device, and still holds text when the device
    takes every write.  In particular no permission changes, and a file
    that cannot be read or cannot be written is never altered. *)
Theorem main_keeps_kinds w q :
  same_kind (fs w !! q) (fs (main w).2 !! q) /\
  (fs (main w).2 !! q = None <-> fs w !! q = None) /\
  (forall l b, fs (main w).2 !! q = Some (IsDir l b) <-> fs w !! q = Some (IsDir l b)) /\
  (forall f', fs (main w).2 !! q = Some (IsFile f') ->
     exists f, fs w !! q = Some (IsFile f) /\ readable f' = readable f /\
       writable f' = writable f /\ cut f' = cut f /\ (writes f <= writes f')%nat /\
       (readable f && writable f = false -> f' = f)).
Proof.
  pose proof (main_kind w q) as Hk.
  split; [exact Hk|].
  destruct (fs w !! q) as [[f|l b]|], (fs (main w).2 !! q) as [[f'|l' b']|];
    simpl in Hk; try done.
  - split_and!; [done|done|].
    intros f0 [= <-]. exists f. split; [done|].
    destruct Hk as [->|(Hr & Hw & _ & Hr' & Hw' & Hc & _ & Hlt)].
    + by split_and!.
    + rewrite Hr, Hw, Hr', Hw'. split_and!; [done|done|done|lia|done].
  - destruct Hk as [-> ->]. by split_and!.
Qed.

(** * What a run prints *)

(** [about p r]: the line [r] is one of the three lines
    [fix_colors_in_file] prints for the path [p]. *)
Definition about (p : text) (r : report) : Prop :=
  (exists n, r = Changed p n) \/ r = Unchanged p \/ exists e, r = Failed p e.

(** The lines between the two banners. *)
Definition inner (r : report) : Prop := r <> Started /\ r <> Completed.

Lemma about_inner p r : about p r -> inner r.
Proof. by intros [[n ->]|[->|[e ->]]]. Qed.

(** X6. Every call of [fix_colors_in_file] that returns has printed
    exactly one line, about its own path, and a call that raises has
    printed none.  A line that reports changes carries a count of at least
    one and comes with the result [True].  The line for a file without a
    match comes with [False] and with a file system that was not touched.
    An error line comes with [False]; the file system was not touched
    then, unless the error is that of a write that broke off, or that of
    a status line the standard output refused. *)
Theorem fix_colors_in_file_prints_one_line p w :
  (exists r, out (fix_colors_in_file p w).2 = out w ++ [r] /\
     ((exists n, r = Changed p n /\ (0 < n)%nat /\
         (fix_colors_in_file p w).1 = inr true) \/
      (r = Unchanged p /\ (fix_colors_in_file p w).1 = inr false /\
         fs (fix_colors_in_file p w).2 = fs w) \/
      (exists e, r = Failed p e /\ (fix_colors_in_file p w).1 = inr false /\
         (fs (fix_colors_in_file p w).2 = fs w \/ e = OSError p \/
          e = UnicodeEncodeError)))) \/
  ((fix_colors_in_file p w).1 = inl UnicodeEncodeError /\
   out (fix_colors_in_file p w).2 = out w).
Proof.
  destruct (fix_cases p w) as
    [(e & Hread & Hno & Hfix)|(f & t & Hp & Hr & Hd & Hread &
       [(Hsame & Hfix)|[(Hne & Hw & Hwrite & Hfix)|[(Hne & Hw & Hcut & Hwrite & Hfix)|
        (Hne & Hw & Hcut & Hwrite & Hfix)]]])];
    cbv zeta in *; rewrite Hfix; unfold status, failed, rewritten; cbn [out].
  - destruct (console (out w) (Failed p e)); cbn [fst snd fs out say]; [left|by right].
    exists (Failed p e). split; [done|]. right; right. exists e. split_and!; [done|done|by left].
  - destruct (console (out w) (Unchanged p)); cbn [fst snd fs out say].
    { left. exists (Unchanged p). split; [done|]. right; left. by split_and!. }
    destruct (console (out w) (Failed p UnicodeEncodeError)); cbn [fst snd fs out say];
      [left|by right].
    exists (Failed p UnicodeEncodeError). split; [done|]. right; right.
    exists UnicodeEncodeError. split_and!; [done|done|by left].
  - destruct (console (out w) (Failed p (PermissionError p))); cbn [fst snd fs out say];
      [left|by right].
    exists (Failed p (PermissionError p)). split; [done|]. right; right.
    exists (PermissionError p). split_and!; [done|done|by left].
  - destruct (console (out w) (Failed p (OSError p))); cbn [fst snd fs out say];
      [left|by right].
    exists (Failed p (OSError p)). split; [done|]. right; right.
    exists (OSError p). split_and!; [done|done|by right; left].
  - destruct (console (out w) (Changed p _)); cbn [fst snd fs out say].
    { left. eexists. split; [reflexivity|]. left. eexists. split; [reflexivity|].
      split; [by apply changed_total|reflexivity]. }
    destruct (console (out w) (Failed p UnicodeEncodeError)); cbn [fst snd fs out say];
      [left|by right].
    exists (Failed p UnicodeEncodeError). split; [done|]. right; right.
    exists UnicodeEncodeError. split_and!; [done|done|by right; right].
Qed.

(** The line of a call of [fix_colors_in_file], and its outcome. *)
Definition one_line (p : text) (w : world) (r : (exn + bool) * world) : Prop :=
  (exists line b, out r.2 = out w ++ [line] /\ about p line /\ r.1 = inr b) \/
  (r.1 = inl UnicodeEncodeError /\ out r.2 = out w /\ exists l line, console l line = false).

Lemma failed_line p e w w' : out w' = out w -> one_line p w (failed p e w').
Proof.
  intros Ho. unfold failed, one_line. destruct (console (out w') (Failed p e)) eqn:Hc;
    cbn [fst snd out say]; rewrite Ho.
  - left. exists (Failed p e), false. split_and!; [done| |done]. right; right. by exists e.
  - right. split_and!; [done|done|]. by exists (out w'), (Failed p e).
Qed.

Lemma status_line p r b w w' :
  out w' = out w -> about p r -> one_line p w (status p r b w').
Proof.
  intros Ho Hr. unfold status. destruct (console (out w') r) eqn:Hc;
    [|by apply failed_line].
  left. exists r, b. cbn [fst snd out say]. by rewrite Ho.
Qed.

Lemma fix_line p w : one_line p w (fix_colors_in_file p w).
Proof.
  destruct (fix_cases p w) as
    [(e & Hread & Hno & Hfix)|(f & t & Hp & Hr & Hd & Hread &
       [(Hsame & Hfix)|[(Hne & Hw & Hwrite & Hfix)|[(Hne & Hw & Hcut & Hwrite & Hfix)|
        (Hne & Hw & Hcut & Hwrite & Hfix)]]])];
    cbv zeta in *; rewrite Hfix.
  - by apply failed_line.
  - apply status_line; [done|]. by right; left.
  - by apply failed_line.
  - by apply failed_line.
  - apply status_line; [done|]. left. by eexists.
Qed.

Lemma components_out names : forall w,
  exists k rs,
    out (for_each names process_component tt w).2 = out w ++ rs /\
    Forall2 about (take k (component_paths names)) rs /\
    (((for_each names process_component tt w).1 = inr tt /\
      k = length (component_paths names)) \/
     ((for_each names process_component tt w).1 = inl UnicodeEncodeError /\
      (k < length (component_paths names))%nat /\ exists l r, console l r = false)).
Proof.
  induction names as [|n names IH]; intros w.
  - exists 0%nat, []. split_and!; [by rewrite app_nil_r|constructor|by left].
  - cbn [for_each]. rewrite bind_unfold, process_component_unfold.
    rewrite component_paths_cons. destruct (endswith n (txt ".css")); [|apply IH].
    destruct (fix_line (path_join component_dir n) w)
      as [(r & b & Ho & Hr & Hres)|(Hres & Ho & Hcon)].
    + destruct (fix_colors_in_file (path_join component_dir n) w) as [x w1];
        cbn [fst snd] in *. subst x.
      destruct (IH w1) as (k & rs & Hos & Hrs & Hend).
      exists (S k), (r :: rs). split_and!.
      * rewrite Hos, Ho. by rewrite <- app_assoc.
      * cbn [take]. by constructor.
      * cbn [length]. destruct Hend as [[? ->]|(? & ? & ?)]; [by left|right].
        split_and!; [done|lia|done].
    + destruct (fix_colors_in_file (path_join component_dir n) w) as [x w1];
        cbn [fst snd] in *. subst x.
      exists 0%nat, []. split_and!; [by rewrite app_nil_r|constructor|right].
      cbn [length]. split_and!; [done|lia|done].
Qed.

(** X5. The loop over the component directory prints one line for each
    name of the listing that ends with [.css], in the order of the listing,
    each about the path [os.path.join] makes of the directory and the name;
    names that do not end with [.css] get no line.  Whatever happens to the
    files, the phase returns, unless the standard output refuses a line:
    then it ends there with [UnicodeEncodeError], having printed the lines
    of the files before.  With a standard output that takes every line the
    phase always returns with all the lines printed. *)
Theorem component_reports w names :
  fs w !! realpath component_dir = Some (IsDir names true) ->
  (exists k rs,
     out (process_components w).2 = out w ++ rs /\
     Forall2 about (take k (component_paths names)) rs /\
     (((process_components w).1 = inr tt /\ k = length (component_paths names)) \/
      ((process_components w).1 = inl UnicodeEncodeError /\
       (k < length (component_paths names))%nat))) /\
  ((forall l r, console l r = true) ->
   exists rs, process_components w = (inr tt, (process_components w).2) /\
     out (process_components w).2 = out w ++ rs /\
     Forall2 about (component_paths names) rs).
Proof.
  intros Hd. rewrite process_components_unfold, Hd.
  destruct (components_out names w) as (k & rs & Ho & Hrs & Hend). split.
  - exists k, rs. split_and!; [done|done|].
    destruct Hend as [?|(? & ? & _)]; [by left|by right].
  - intros Hall. exists rs. destruct Hend as [[Hres ->]|(_ & _ & l & r & Hc)].
    + rewrite firstn_all in Hrs. split_and!; [|done|done].
      by destruct (for_each names process_component tt w) as [[e|[]] w'].
    + by rewrite Hall in Hc.
Qed.

Lemma process_components_out w :
  exists l, out (process_components w).2 = out w ++ l /\ Forall inner l /\
    match fs w !! realpath component_dir with
    | Some (IsFile _) => (process_components w).1 = inl (NotADirectoryError component_dir)
    | Some (IsDir _ false) => (process_components w).1 = inl (PermissionError component_dir)
    | _ => (process_components w).1 = inr tt \/
           ((process_components w).1 = inl UnicodeEncodeError /\
            exists l r, console l r = false)
    end.
Proof.
  rewrite process_components_unfold.
  destruct (fs w !! realpath component_dir) as [[f|names [|]]|] eqn:Hd.
  - exists []. split_and!; [by rewrite app_nil_r|constructor|done].
  - destruct (components_out names w) as (k & rs & Ho & Hrs & Hend).
    exists rs. split_and!; [done| |].
    + clear Ho Hend. induction Hrs as [|p r ps rs Hr _ IH]; constructor; [|done].
      by apply (about_inner p).
    + destruct Hend as [[? _]|(? & _ & ?)]; [by left|by right].
  - exists []. split_and!; [by rewrite app_nil_r|constructor|done].
  - exists []. split_and!; [by rewrite app_nil_r|constructor|by left].
Qed.

Lemma process_dark_mode_out w :
  exists l, out (process_dark_mode w).2 = out w ++ l /\ Forall inner l /\
    ((process_dark_mode w).1 = inr tt \/
     ((process_dark_mode w).1 = inl UnicodeEncodeError /\ exists l r, console l r = false)).
Proof.
  rewrite process_dark_mode_unfold. destruct (fs w !! realpath dark_mode_file).
  - destruct (fix_line dark_mode_file w) as [(r & b & Ho & Hr & Hres)|(Hres & Ho & Hcon)];
      cbn [fst snd]; rewrite Hres.
    + exists [r]. split_and!; [done| |by left].
      constructor; [|constructor]. by apply (about_inner dark_mode_file).
    + exists []. split_and!; [by rewrite app_nil_r|constructor|by right].
  - exists []. split_and!; [by rewrite app_nil_r|constructor|by left].
Qed.

(** A file that can be read, holds text and can be written. *)
Definition usable (n : option node) : Prop :=
  exists f, n = Some (IsFile f) /\ readable f = true /\ is_Some (data f) /\
    writable f = true.

(** A file on a device that takes every write. *)
Definition sound (n : option node) : Prop :=
  forall f t, n = Some (IsFile f) -> cut f t = None.

Lemma same_kind_usable n n' :
  same_kind n n' -> sound n -> (usable n' <-> usable n) /\ sound n' /\
    (n' = None <-> n = None).
Proof.
  unfold usable, sound.
  destruct n as [[f|l b]|], n' as [[f'|l' b']|]; simpl; try done.
  1:{ intros [->|(Hr & Hw & Hd & Hr' & Hw' & Hc & Hd' & _)] Hs; [done|].
      split_and!; [|intros f0 t [= <-]; rewrite Hc; by apply Hs|done].
      split; intros _; eexists; split_and!; try done.
      apply Hd'. intros t. by apply Hs. }
  all: intros _ _; split_and!; [|done..]; split; intros (f & ? & _); done.
Qed.

Lemma process_app_css_out w :
  exists l, out (process_app_css w).2 = out w ++ l /\ Forall inner l /\
    (forall e, (process_app_css w).1 = inl e ->
       e = UnicodeEncodeError \/
       (is_Some (fs w !! realpath app_css_file) /\
        (e = PermissionError app_css_file \/ e = IsADirectoryError app_css_file \/
         e = UnicodeDecodeError app_css_file \/ e = OSError app_css_file))) /\
    ((forall l r, console l r = true) -> sound (fs w !! realpath app_css_file) ->
     ((process_app_css w).1 = inr tt <->
      fs w !! realpath app_css_file = None \/ usable (fs w !! realpath app_css_file))).
Proof.
  unfold usable, sound.
  destruct (app_css_cases w) as
    [[Hno ->]|[(e & Hsome & _ & He & Hnot & ->)|(f & t & Hp & Hr & Hd &
       [(Hw & ->)|[(Hw & Hcut & ->)|(Hw & Hcut & ->)]])]]; cbv zeta in *.
  - exists []. split_and!; [by rewrite app_nil_r|constructor|done|]. intros _ _.
    split; [by left|done].
  - exists []. split_and!; [by rewrite app_nil_r|constructor| |].
    + intros e' [= <-]. right. split; [done|]. destruct He as [->|[->| ->]]; auto.
    + intros _ _. split; [done|]. intros [Hn|(f & Hf & Hr & [t Ht] & _)].
      * rewrite Hn in Hsome. by destruct Hsome.
      * by destruct (Hnot f t).
  - exists []. split_and!; [by rewrite app_nil_r|constructor| |].
    + intros e' [= <-]. right. split; [by rewrite Hp|auto].
    + intros _ _. split; [done|]. intros [Hn|(f' & Hf & _ & _ & Hw')]; congruence.
  - exists []. split_and!; [by rewrite app_nil_r|constructor| |].
    + intros e' [= <-]. right. split; [by rewrite Hp|]. auto.
    + intros _ Hs. rewrite (Hs f _ Hp) in Hcut. by destruct Hcut.
  - rewrite print_unfold. unfold rewritten. cbn [out].
    destruct (console (out w) (SpinnerFixed app_css_file)) eqn:Hc; cbn [fst snd out say].
    + exists [SpinnerFixed app_css_file].
      split_and!; [done|by repeat constructor|done|].
      intros _ _. split; [|done]. intros _. right. exists f. rewrite Hd. by split_and!.
    + exists []. split_and!; [by rewrite app_nil_r|constructor| |].
      * intros e' [= <-]. by left.
      * intros Hall. by rewrite Hall in Hc.
Qed.

(** X4. How a run of [main] ends and what it prints around the files.
    Errors on the files of the component directory and on the dark-mode
    file never end a run.  An exception that ends it is that of a line the
    standard output refused, that of [os.listdir] on a component path that
    is a file or a directory that may not be listed, or one of reading or
    writing [src/styles/App.css].  What is printed starts with the opening
    banner; the closing banner is printed exactly when the run ends
    normally, and then it is the last line; no line in between is a
    banner.  With a standard output that takes every line and a device
    that takes every write to [App.css], the run ends normally exactly
    when the component path is absent or a directory that can be listed,
    and [App.css] is absent or a file that can be read, decoded and
    written. *)
Theorem main_outcome w :
  (forall e, (main w).1 = inl e ->
     e = UnicodeEncodeError \/
     (e = NotADirectoryError component_dir /\
      exists f, fs w !! realpath component_dir = Some (IsFile f)) \/
     (e = PermissionError component_dir /\
      exists names, fs w !! realpath component_dir = Some (IsDir names false)) \/
     (is_Some (fs w !! realpath app_css_file) /\
      (e = PermissionError app_css_file \/ e = IsADirectoryError app_css_file \/
       e = UnicodeDecodeError app_css_file \/ e = OSError app_css_file))) /\
  (exists l,
     out (main w).2 =
       out w ++ (if console (out w) Started
                 then Started :: l ++
                      match (main w).1 with inr _ => [Completed] | inl _ => [] end
                 else []) /\
     Forall inner l) /\
  ((forall l r, console l r = true) ->
   (forall f t, fs w !! realpath app_css_file = Some (IsFile f) -> cut f t = None) ->
   ((main w).1 = inr tt <->
    (fs w !! realpath component_dir = None \/
     exists names, fs w !! realpath component_dir = Some (IsDir names true)) /\
    (fs w !! realpath app_css_file = None \/
     exists f, fs w !! realpath app_css_file = Some (IsFile f) /\ readable f = true /\
       is_Some (data f) /\ writable f = true))).
Proof.
  rewrite main_unfold. destruct (console (out w) Started) eqn:Hstart.
  2:{ split_and!.
      - intros e [= <-]. by left.
      - exists []. split; [by rewrite app_nil_r|constructor].
      - intros Hall. by rewrite Hall in Hstart. }
  destruct (process_components_out (say Started w)) as (l1 & Ho1 & Hm1 & R1).
  pose proof (process_components_fs (say Started w)) as F1.
  cbn [fs out say] in Ho1, R1, F1.
  destruct (process_components (say Started w)) as [[e1|[]] w1]; cbn [fst snd] in *.
  { split_and!.
    - intros e [= <-].
      destruct (fs w !! realpath component_dir) as [[f|names [|]]|].
      + injection R1 as ->. right; left. eauto.
      + destruct R1 as [?|[[= ->] _]]; [done|by left].
      + injection R1 as ->. right; right; left. eauto.
      + destruct R1 as [?|[[= ->] _]]; [done|by left].
    - exists l1. rewrite Ho1, app_nil_r, <- app_assoc. by split.
    - intros Hall _. split; [done|]. intros [[Hd|[names Hd]] _]; rewrite Hd in R1.
      + destruct R1 as [?|(_ & l & r & Hc)]; [done|by rewrite Hall in Hc].
      + destruct R1 as [?|(_ & l & r & Hc)]; [done|by rewrite Hall in Hc]. }
  assert (Hdir : fs w !! realpath component_dir = None \/
            exists names, fs w !! realpath component_dir = Some (IsDir names true)).
  { destruct (fs w !! realpath component_dir) as [[f|names [|]]|]; [done|eauto|done|auto]. }
  destruct (process_dark_mode_out w1) as (l2 & Ho2 & Hm2 & R2).
  pose proof (process_dark_mode_fs w1) as F2.
  destruct (process_dark_mode w1) as [[e2|[]] w2]; cbn [fst snd] in *.
  { destruct R2 as [?|([= ->] & l & r & Hc)]; [done|]. split_and!.
    - intros e [= <-]. by left.
    - exists (l1 ++ l2). rewrite Ho2, Ho1, app_nil_r, <- !app_assoc.
      split; [done|by apply Forall_app].
    - intros Hall. by rewrite Hall in Hc. }
  assert (K : same_kind (fs w !! realpath app_css_file) (fs w2 !! realpath app_css_file)).
  { eapply same_kind_trans; by eapply writes_kind. }
  destruct (process_app_css_out w2) as (l3 & Ho3 & Hm3 & E3 & R3).
  assert (Hl : Forall inner (l1 ++ l2 ++ l3)) by (by rewrite !Forall_app).
  destruct (process_app_css w2) as [[e3|[]] w3]; cbn [fst snd] in *.
  - split_and!.
    + intros e [= <-]. destruct (E3 e3 eq_refl) as [?|[Hs He]]; [by left|].
      right; right; right. split; [|done].
      destruct (fs w !! realpath app_css_file) as [n|] eqn:H0; [eauto|].
      destruct (fs w2 !! realpath app_css_file) as [n'|]; [by destruct n'|by destruct Hs].
    + exists (l1 ++ l2 ++ l3). rewrite Ho3, Ho2, Ho1, app_nil_r, <- !app_assoc. by split.
    + intros Hall Hs. destruct (same_kind_usable _ _ K Hs) as (Hu & Hs' & Hn).
      split; [done|]. intros [_ Happ]. exfalso.
      assert (H3 : @inl exn unit e3 = inr tt); [|done].
      apply (R3 Hall Hs'). rewrite Hn, Hu. exact Happ.
  - rewrite print_unfold.
    destruct (console (out w3) Completed) eqn:Hend; cbn [fst snd out say].
    + split_and!; [done| |].
      * exists (l1 ++ l2 ++ l3). rewrite Ho3, Ho2, Ho1, <- !app_assoc. by split.
      * intros Hall Hs. destruct (same_kind_usable _ _ K Hs) as (Hu & Hs' & Hn).
        split; [|done]. intros _. split; [done|].
        rewrite <- Hn. unfold usable in Hu. rewrite <- Hu. by apply (R3 Hall Hs').
    + split_and!.
      * intros e [= <-]. by left.
      * exists (l1 ++ l2 ++ l3). rewrite Ho3, Ho2, Ho1, app_nil_r, <- !app_assoc. by split.
      * intros Hall. by rewrite Hall in Hend.
Qed.

(** X7. The table of colour rules is never applied to the file
    [src/styles/App.css] leads to, unless a path of the table leads there
    as well: the only thing a run does to the file is the special case.
    When the file can be read and written, a run either ends before the
    special case, with an exception and the file as it was, or leaves the
    file written once with the text the rule of the special case alone
    makes of what was read (or with what a write that broke off left):
    a hex colour or an [rgba] colour elsewhere in it stays.  A run that
    ends normally has written that text in full. *)
Theorem app_css_gets_the_special_case_only w f t :
  fs w !! realpath app_css_file = Some (IsFile f) ->
  readable f = true -> writable f = true -> data f = Some t ->
  ~ table_place (fs w) (realpath app_css_file) ->
  ((fs (main w).2 !! realpath app_css_file = Some (IsFile f) /\
    exists e, (main w).1 = inl e) \/
   fs (main w).2 !! realpath app_css_file =
     Some (IsFile (store f (sub spinner_regex spinner_replacement (universal_newlines t))))) /\
  ((main w).1 = inr tt ->
   fs (main w).2 !! realpath app_css_file =
     Some (IsFile (File (Some (sub spinner_regex spinner_replacement (universal_newlines t)))
                     true true (cut f) (S (writes f))))).
Proof.
  intros Hp Hr Hw Hd Hout. rewrite main_unfold.
  destruct (console (out w) Started); [|split; [left; eauto|done]].
  pose proof (process_components_fs (say Started w)) as F1. cbn [fs say] in F1.
  destruct (process_components (say Started w)) as [[e1|[]] w1]; cbn [fst snd] in *.
  { rewrite (writes_off _ _ _ _ F1 Hout). split; [left; eauto|done]. }
  pose proof (process_dark_mode_fs w1) as F2.
  assert (H2 : fs (process_dark_mode w1).2 !! realpath app_css_file = Some (IsFile f)).
  { rewrite (writes_off _ _ _ _ F2), (writes_off _ _ _ _ F1 Hout); [done|].
    intros Heq. apply Hout. by left. }
  destruct (process_dark_mode w1) as [[e2|[]] w2]; cbn [fst snd] in *.
  { split; [left; eauto|done]. }
  destruct (app_css_cases w2) as
    [[Hno _]|[(e & _ & _ & _ & Hnot & _)|(f' & t' & Hp' & _ & Hd' &
       [(Hw' & _)|[(Hw' & Hcut & ->)|(Hw' & Hcut & ->)]])]]; cbv zeta in *.
  - congruence.
  - by destruct (Hnot f t).
  - congruence.
  - assert (f' = f) as -> by congruence. assert (t' = t) as -> by congruence.
    unfold rewritten. cbn [fst snd fs]. rewrite lookup_insert_eq. split; [by right|done].
  - assert (f' = f) as -> by congruence. assert (t' = t) as -> by congruence.
    rewrite print_unfold. unfold rewritten. cbn [out].
    destruct (console (out w2) (SpinnerFixed app_css_file)); cbn [fst snd fs say].
    + rewrite print_unfold.
      destruct (console _ Completed); cbn [fst snd fs say]; rewrite lookup_insert_eq;
        (split; [by right|]); [|done].
      intros _. unfold store. by rewrite Hcut, Hr, Hw.
    + rewrite lookup_insert_eq. split; [by right|done].
Qed.
(** * The rules between separators

    A character no item of a pattern accepts is a barrier for the pattern;
    when it is no word character either, a [\b] before it sees what it
    sees at the end of a text.  Such a character cuts the work of a rule,
    and of the table, in two. *)
Lemma alive_rejected r c z :
  rejects r c = true -> forall pw, alive r true pw (c :: z) = false.
Proof.
  induction r as [|[a|a|a|] r IH]; intros Hr pw; simpl in *.
  - done.
  - apply andb_prop in Hr as [Ha _]. apply negb_true_iff in Ha. by rewrite Ha.
  - apply andb_prop in Hr as [Ha Hr]. apply negb_true_iff in Ha.
    by rewrite IH, Ha.
  - apply andb_prop in Hr as [Ha _]. apply negb_true_iff in Ha. by rewrite Ha.
  - destruct (xorb pw (is_word c)); [by apply IH|done].
Qed.

Lemma after_rejected r c :
  rejects r c = true -> forall q, q ∈ after r -> rejects q c = true.
Proof.
  induction r as [|[a|a|a|] r IH]; simpl; intros Hr q Hq.
  - by apply elem_of_nil in Hq.
  - apply andb_prop in Hr as [Ha Hr].
    apply elem_of_cons in Hq as [->|Hq]; [done|by apply IH].
  - pose proof Hr as Hr0. apply andb_prop in Hr as [Ha Hr].
    apply elem_of_cons in Hq as [->|Hq]; [done|by apply IH].
  - pose proof Hr as Hr0. apply andb_prop in Hr as [Ha Hr].
    apply elem_of_cons in Hq as [->|Hq]; [done|by apply IH].
  - by apply IH.
Qed.

Lemma rejected_barrier r c : rejects r c = true -> barrier r [c] = true.
Proof.
  intros Hr.
  assert (Hb : forall q, rejects q c = true -> begins q [c] = false).
  { intros q Hq. unfold begins. by rewrite !alive_rejected. }
  unfold barrier, enters. apply andb_true_intro. split.
  - apply negb_true_iff, not_true_iff_false. intros H.
    apply existsb_exists in H as (q & Hq & Hbq).
    rewrite Hb in Hbq; [done|]. by apply (after_rejected r), list_elem_of_In.
  - simpl. by rewrite Hb.
Qed.

Lemma sub_separator r repl c (a b : list N) :
  headed r = true -> det r = true -> rejects r c = true -> is_word c = false ->
  sub r repl (a ++ c :: b) = sub r repl a ++ c :: sub r repl b /\
  findall r (a ++ c :: b) = findall r a ++ findall r b.
Proof.
  intros Hh Hd Hr Hw.
  assert (Hs : scan r false (a ++ c :: b) 0 =
               scan r false a 0 ++ Keep c :: scan r false b 0).
  { change (c :: b) with ([c] ++ b).
    rewrite scan_junction;
      [|done|done|by apply barrier_enters, rejected_barrier|right; by split].
    change ([c] ++ b) with (c :: b). rewrite scan_miss; [done|done|].
    destruct r as [|[[d| |]| | |] r]; try done.
    simpl in Hr. apply andb_prop in Hr as [Hc _]. apply negb_true_iff in Hc.
    by apply headed_miss. }
  unfold sub, findall. by rewrite Hs, flat_map_app, omap_app.
Qed.

Lemma subs_separator rs c :
  Forall (fun rule => headed rule.1 = true /\ det rule.1 = true /\
                      rejects rule.1 c = true) rs ->
  is_word c = false ->
  forall a b,
    subs rs (a ++ c :: b) = subs rs a ++ c :: subs rs b /\
    match_total rs (a ++ c :: b) = (match_total rs a + match_total rs b)%nat.
Proof.
  intros Hrs Hw. induction Hrs as [|rule rs (Hh & Hd & Hr) _ IH]; intros a b; [done|].
  simpl. destruct (sub_separator rule.1 rule.2 c a b Hh Hd Hr Hw) as [-> ->].
  destruct (IH (sub rule.1 rule.2 a) (sub rule.1 rule.2 b)) as [-> ->].
  split; [done|]. rewrite length_app. lia.
Qed.

(** The punctuation the patterns of the table hold. *)
Definition pattern_marks : text := txt "#%(),-.".

Definition tame (i : item) : bool :=
  match i with
  | One a | Star a | Plus a =>
    match a with
    | Lit d => is_word d || existsb (N.eqb d) pattern_marks
    | Space => true
    | NotLit _ => false
    end
  | WordB => true
  end.

Lemma rules_tame : forallb (fun rule => forallb tame rule.1) rules = true.
Proof. vm_compute. reflexivity. Qed.

Lemma tame_rejects r c :
  forallb tame r = true ->
  is_word c = false -> is_space c = false ->
  existsb (N.eqb c) pattern_marks = false ->
  rejects r c = true.
Proof.
  intros Ht Hw Hs Hm. induction r as [|i r IH]; [done|].
  simpl in Ht. apply andb_prop in Ht as [Hi Ht].
  unfold rejects. simpl. apply andb_true_intro. split; [|by apply IH].
  destruct i as [a|a|a|]; [| | |done];
    (destruct a as [d| |]; simpl in *; [|done|by rewrite Hs];
     destruct (c =? d) eqn:He; [|done];
     apply N.eqb_eq in He as ->; by rewrite Hw, Hm in Hi).
Qed.

(** X8. The table works on each stretch between separators on its own.
    A character that is no word character, no white space and none of the
    punctuation marks the patterns hold ([#%(),-.]) is a separator: a
    semicolon, a colon, a brace, a quote, a slash.  The text the rules make
    of a text with a separator in it is what they make of the part before
    the separator, the separator, and what they make of the part after it;
    and the count of matches is the sum of the two counts.  So no match
    runs across a separator, and what a rule does in one declaration never
    depends on the next. *)
Theorem separators_split_the_work c a b :
  is_word c = false -> is_space c = false ->
  existsb (N.eqb c) pattern_marks = false ->
  subs rules (a ++ c :: b) = subs rules a ++ c :: subs rules b /\
  match_total rules (a ++ c :: b) = (match_total rules a + match_total rules b)%nat.
Proof.
  intros Hw Hs Hm. apply subs_separator; [|exact Hw].
  apply Forall_forall. intros rule Hin.
  destruct (good_rule_spec _ (rules_good_in rule Hin)) as (Hh & Hd & _).
  split_and!; [exact Hh|exact Hd|].
  apply tame_rejects; [|exact Hw|exact Hs|exact Hm].
  pose proof rules_tame as Ht. rewrite forallb_forall in Ht.
  by apply Ht, list_elem_of_In.
Qed.

(** * Text that holds no colour *)

(** A literal of the pattern stands in every match. *)
Lemma Matches_needs r pw s n :
  Matches r pw s n -> forall c, One (Lit c) ∈ r -> c ∈ take n s.
Proof.
  induction 1 as [pw s|a r pw d s n Ha _ IH|r pw s n Hx _ IH|a r pw s n _ IH
                 |a r pw d s n Ha _ IH|a r pw d s n Ha _ IH]; intros c Hin.
  - by apply elem_of_nil in Hin.
  - simpl. apply elem_of_cons in Hin as [[= <-]|Hin].
    + simpl in Ha. apply N.eqb_eq in Ha as ->. apply list_elem_of_here.
    + apply list_elem_of_further. by apply IH.
  - apply elem_of_cons in Hin as [?|Hin]; [done|by apply IH].
  - apply elem_of_cons in Hin as [?|Hin]; [done|by apply IH].
  - simpl. apply list_elem_of_further. by apply IH.
  - simpl. apply list_elem_of_further. apply IH.
    apply elem_of_cons in Hin as [?|Hin]; [done|by apply list_elem_of_further].
Qed.

Lemma needs_NoHit r c s : One (Lit c) ∈ r -> c ∉ s -> NoHit r s.
Proof.
  intros Hin Hc s1 s2 ->.
  destruct (re_match r false false s2) as [n|] eqn:Hm; [|done].
  apply re_match_sound in Hm as [Hm _]. apply (Matches_needs _ _ _ _ Hm) in Hin.
  exfalso. apply Hc. apply elem_of_app. right.
  rewrite <- (take_drop n s2). apply elem_of_app. by left.
Qed.

Definition needs_colour (r : regex) : bool :=
  bool_decide (One (Lit (ch "#")) ∈ r) || bool_decide (One (Lit (ch "(")) ∈ r).

Lemma rules_need_colour :
  forallb (fun rule => needs_colour rule.1) rules = true /\
  bool_decide (One (Lit (ch "#")) ∈ spinner_regex) = true.
Proof. split; vm_compute; reflexivity. Qed.

(** X9. A text that holds neither [#] nor an opening parenthesis holds
    nothing for the script: every pattern of the table needs one of the
    two, and the pattern of the special case needs [#].  The table leaves
    such a text as it is and counts no match, and so does the rule of the
    special case; and [fix_colors_in_file] does not write a file with such
    a text: it reports the file as unchanged and returns [False], and when
    the standard output refuses that line it goes on as with every error:
    it prints the error line and returns [False], or raises when that line
    is refused as well. *)
Theorem text_without_colours_stays s :
  existsb (fun c => (c =? ch "#") || (c =? ch "(")) s = false ->
  subs rules s = s /\ match_total rules s = 0%nat /\
  sub spinner_regex spinner_replacement s = s /\
  (forall p w f,
     fs w !! realpath p = Some (IsFile f) -> readable f = true -> data f = Some s ->
     fix_colors_in_file p w =
       if console (out w) (Unchanged p) then (inr false, say (Unchanged p) w)
       else if console (out w) (Failed p UnicodeEncodeError)
            then (inr false, say (Failed p UnicodeEncodeError) w)
            else (inl UnicodeEncodeError, w)).
Proof.
  intros Hs.
  assert (Hplain : forall x, (forall c, (c =? ch "#") || (c =? ch "(") = true -> c ∉ x) ->
            subs rules x = x /\ match_total rules x = 0%nat).
  { intros x Hno. destruct rules_need_colour as [Hrules _].
    apply subs_fixed; [apply rules_headed|].
    apply Forall_forall. intros rule Hin.
    rewrite forallb_forall in Hrules. apply list_elem_of_In, Hrules in Hin.
    apply orb_prop in Hin as [Hin|Hin]; apply bool_decide_eq_true in Hin.
    - by apply (needs_NoHit _ (ch "#")); [|apply Hno].
    - by apply (needs_NoHit _ (ch "(")); [|apply Hno]. }
  assert (Hno : forall c, (c =? ch "#") || (c =? ch "(") = true -> c ∉ s).
  { intros c Hc Hin. apply not_true_iff_false in Hs. apply Hs.
    apply existsb_exists. exists c. split; [by apply list_elem_of_In|done]. }
  destruct rules_need_colour as [_ Hspin].
  destruct (Hplain s Hno) as [Hq1 Hq2]. split_and!; [exact Hq1|exact Hq2| |].
  - apply NoHit_sub; [by destruct spinner_facts as (? & _)|].
    apply bool_decide_eq_true in Hspin.
    by apply (needs_NoHit _ (ch "#")); [|apply Hno].
  - intros p w f Hp Hf Hc. rewrite fix_colors_in_file_unfold.
    rewrite (read_text_file p w f s Hp Hf Hc).
    destruct (Hplain (universal_newlines s)) as [Hu _].
    { intros c Hc' [Hin| ->]%universal_newlines_elem; [by apply (Hno c)|done]. }
    rewrite bool_decide_eq_false_2 by (intros Hne; by apply Hne).
    reflexivity.
Qed.

(** X14. When [src/components] exists and is no directory, the run ends at
    once: [os.listdir] raises, nothing catches it, and [main] ends with
    [NotADirectoryError] after the opening banner (or with the exception of
    [print] before it, when the standard output refuses the banner).  No
    file is read or written: neither the dark-mode file nor [App.css] is
    looked at, and the closing banner is not printed. *)
Theorem component_path_is_a_file w f :
  fs w !! realpath component_dir = Some (IsFile f) ->
  main w = if console (out w) Started
           then (inl (NotADirectoryError component_dir), say Started w)
           else (inl UnicodeEncodeError, w).
Proof.
  intros Hf. rewrite main_unfold, process_components_unfold.
  cbn [fs say]. by rewrite Hf.
Qed.

(** * White space in the gradient and the [rgba] colours

    The patterns without [\b] are made of literal characters and of [\s*]
    and [\s+].  [fill r ws] is the text the pattern [r] spells when its
    repeats of white space are filled, from left to right, with the texts
    of [ws]: white space only, and not empty under [+]. *)
Fixpoint fill (r : regex) (ws : list text) : option text :=
  match r with
  | [] => match ws with [] => Some [] | _ :: _ => None end
  | One (Lit c) :: r' => cons c <$> fill r' ws
  | Star Space :: r' =>
    match ws with
    | w :: ws' => if forallb is_space w then app w <$> fill r' ws' else None
    | [] => None
    end
  | Plus Space :: r' =>
    match ws with
    | w :: ws' =>
      if forallb is_space w && negb (bool_decide (w = []))
      then app w <$> fill r' ws' else None
    | [] => None
    end
  | _ => None
  end.

Lemma fill_free r : forall ws inst, fill r ws = Some inst -> free r = true.
Proof.
  induction r as [|[[c| |]|[c| |]|[c| |]|] r IH]; intros ws inst Hf; simpl in Hf; try done.
  - destruct (fill r ws) as [x|] eqn:Hx; [|done]. by apply (IH ws x).
  - destruct ws as [|w ws]; [done|]. destruct (forallb is_space w); [|done].
    destruct (fill r ws) as [x|] eqn:Hx; [|done]. by apply (IH ws x).
  - destruct ws as [|w ws]; [done|].
    destruct (forallb is_space w && negb (bool_decide (w = []))); [|done].
    destruct (fill r ws) as [x|] eqn:Hx; [|done]. by apply (IH ws x).
Qed.

Lemma star_run a r (w rest : list N) m :
  forallb (accepts a) w = true ->
  (forall pw, Matches r pw rest m) ->
  forall pw, Matches (Star a :: r) pw (w ++ rest) (length w + m).
Proof.
  intros Hw Hr. induction w as [|d w IH]; intros pw; simpl.
  - by apply M_star_stop.
  - simpl in Hw. apply andb_prop in Hw as [Hd Hw].
    apply M_star_step; [done|]. by apply IH.
Qed.

Lemma fill_Matches r : forall ws inst post,
  fill r ws = Some inst ->
  forall pw, Matches r pw (inst ++ post) (length inst).
Proof.
  induction r as [|[[c| |]|[c| |]|[c| |]|] r IH]; intros ws inst post Hf pw;
    simpl in Hf; try done.
  - destruct ws; [|done]. injection Hf as <-. constructor.
  - destruct (fill r ws) as [x|] eqn:Hx; [|done]. injection Hf as <-. simpl.
    apply M_one; [simpl; apply N.eqb_refl|]. by apply (IH ws).
  - destruct ws as [|w ws]; [done|]. destruct (forallb is_space w) eqn:Hw; [|done].
    destruct (fill r ws) as [x|] eqn:Hx; [|done]. injection Hf as <-.
    rewrite <- app_assoc, length_app. apply star_run; [done|].
    intros pw'. by apply (IH ws).
  - destruct ws as [|w ws]; [done|].
    destruct (forallb is_space w && negb (bool_decide (w = []))) eqn:Hw; [|done].
    apply andb_prop in Hw as [Hw Hne].
    destruct (fill r ws) as [x|] eqn:Hx; [|done]. injection Hf as <-.
    destruct w as [|d w]; [done|]. simpl in Hw. apply andb_prop in Hw as [Hd Hw].
    rewrite <- app_assoc, length_app. simpl.
    apply M_plus; [done|]. apply star_run; [done|].
    intros pw'. by apply (IH ws).
Qed.

Lemma fill_star_inv r ws x :
  fill (Star Space :: r) ws = Some x ->
  exists w ws' y, ws = w :: ws' /\ forallb is_space w = true /\
    fill r ws' = Some y /\ x = w ++ y.
Proof.
  simpl. destruct ws as [|w ws']; [done|].
  destruct (forallb is_space w) eqn:Hw; [|done].
  destruct (fill r ws') as [y|] eqn:Hy; [|done].
  intros [= <-]. by exists w, ws', y.
Qed.

(** The converse: what such a pattern matches is one of its fillings. *)
Lemma Matches_fill r pw s n :
  Matches r pw s n -> (exists ws x, fill r ws = Some x) ->
  exists ws, fill r ws = Some (take n s).
Proof.
  induction 1 as [pw s|a r pw d s n Ha _ IH|r pw s n Hx _ IH|a r pw s n _ IH
                 |a r pw d s n Ha _ IH|a r pw d s n Ha _ IH]; intros (ws0 & x0 & H0).
  - by exists [].
  - destruct a as [c| |]; simpl in H0; [|done..].
    destruct (fill r ws0) as [y|] eqn:Hy; [|done].
    destruct IH as [ws Hws]; [by eauto|]. exists ws. simpl. rewrite Hws.
    simpl in Ha. apply N.eqb_eq in Ha as ->. done.
  - done.
  - destruct a as [c| |]; simpl in H0; [done..|].
    apply fill_star_inv in H0 as (w & ws' & y & -> & Hw & Hy & ->).
    destruct IH as [ws Hws]; [by eauto|]. exists ([] :: ws). simpl. by rewrite Hws.
  - destruct IH as [ws Hws]; [by eauto|].
    destruct a as [c| |]; [by simpl in H0..|].
    apply fill_star_inv in Hws as (w & ws' & y & -> & Hw & Hy & Ht).
    exists ((d :: w) :: ws'). simpl. simpl in Ha. rewrite Ha, Hw, Hy. simpl.
    by rewrite Ht.
  - destruct a as [c| |]; simpl in H0; [done..|].
    destruct ws0 as [|w0 ws0]; [done|].
    destruct (forallb is_space w0 && negb (bool_decide (w0 = []))) eqn:Hw0; [|done].
    apply andb_prop in Hw0 as [Hw0 _].
    destruct (fill r ws0) as [y0|] eqn:Hy0; [|done].
    destruct IH as [ws Hws].
    { exists (w0 :: ws0), (w0 ++ y0). simpl. by rewrite Hw0, Hy0. }
    apply fill_star_inv in Hws as (w & ws' & y & -> & Hw & Hy & Ht).
    exists ((d :: w) :: ws'). simpl. simpl in Ha. rewrite Ha, Hw, Hy. simpl.
    by rewrite Ht.
Qed.

(** No state of a pattern but the first takes the first character of the
    pattern: a match does not run into the start of another. *)
Definition head_closed (r : regex) : bool :=
  match r with
  | One (Lit c) :: _ => negb (enters r [c])
  | _ => false
  end.

Lemma rules_head_closed : forallb (fun rule => head_closed rule.1) rules = true.
Proof. vm_compute. reflexivity. Qed.

Lemma sub_filled r repl ws inst (pre post : list N) :
  headed r = true -> det r = true -> head_closed r = true ->
  fill r ws = Some inst ->
  sub r repl (pre ++ inst ++ post) = sub r repl pre ++ repl ++ sub r repl post /\
  findall r (pre ++ inst ++ post) = findall r pre ++ inst :: findall r post.
Proof.
  intros Hh Hd Hc Hf.
  pose proof (fill_free r ws inst Hf) as Hfree.
  assert (Hm : re_match r false false (inst ++ post) = Some (length inst)).
  { apply re_match_iff; [done|]. split; [by apply (fill_Matches r ws)|done]. }
  destruct r as [|[[c| |]| | |] r']; try done.
  destruct inst as [|c' inst'].
  { simpl in Hf. by destruct (fill r' ws). }
  assert (c' = c) as ->.
  { simpl in Hf. destruct (fill r' ws); [|done]. by injection Hf as ->. }
  assert (Hs : scan (One (Lit c) :: r') false (pre ++ (c :: inst') ++ post) 0 =
               scan (One (Lit c) :: r') false pre 0 ++
               Hit (c :: inst') :: scan (One (Lit c) :: r') false post 0).
  { change ((c :: inst') ++ post) with ([c] ++ inst' ++ post).
    rewrite scan_junction; [|done|done|by apply negb_true_iff|by left].
    change ([c] ++ inst' ++ post) with ((c :: inst') ++ post).
    by rewrite scan_hit. }
  unfold sub, findall. by rewrite Hs, flat_map_app, omap_app.
Qed.

(** X10. The gradient rule and the [rgba] rules do not mind the white
    space.  Their patterns are literal characters with [\s*] and [\s+] in
    between.  Take a rule of the table and any filling of its pattern:
    each [\s*] filled with any run of white space (none, blanks, tabs, line
    breaks), each [\s+] with a run that is not empty.  Wherever the filled
    text stands, [re.sub] with that rule finds it as one match and puts the
    replacement there, between what it makes of the text before and of the
    text after, and [re.findall] lists it between the matches before and
    after.  And the rule matches nothing else: every match of the pattern
    is such a filling.  (The rules closed by [\b] have no filling.) *)
Theorem filled_patterns_are_replaced rule ws inst :
  rule ∈ rules -> fill rule.1 ws = Some inst ->
  (forall pre post,
     sub rule.1 rule.2 (pre ++ inst ++ post) =
       sub rule.1 rule.2 pre ++ rule.2 ++ sub rule.1 rule.2 post /\
     findall rule.1 (pre ++ inst ++ post) =
       findall rule.1 pre ++ inst :: findall rule.1 post) /\
  (forall s n, re_match rule.1 false false s = Some n ->
     exists ws', fill rule.1 ws' = Some (take n s)).
Proof.
  intros Hin Hf.
  destruct (good_rule_spec _ (rules_good_in rule Hin)) as (Hh & Hd & _).
  split.
  - intros pre post. apply (sub_filled _ _ ws); [exact Hh|exact Hd| |exact Hf].
    pose proof rules_head_closed as Hc. rewrite forallb_forall in Hc.
    by apply (Hc rule), list_elem_of_In.
  - intros s n Hm. apply re_match_sound in Hm as [Hm _].
    apply (Matches_fill _ _ _ _ Hm). by exists ws, inst.
Qed.

(** * A colour of the table on its own

    The literal characters of a pattern, in order; a text without its white
    space; the patterns that are literals and repeats of white space. *)
Definition lits (r : regex) : text :=
  omap (fun i => match i with One (Lit c) => Some c | _ => None end) r.

Definition squeeze (x : text) : text := filter (fun c => is_space c = false) x.

Definition spaced (r : regex) : bool :=
  forallb (fun i => match i with
                    | One (Lit _) | Star Space | Plus Space => true
                    | _ => false
                    end) r.

Definition solid (x : text) : bool := forallb (fun c => negb (is_space c)) x.

Lemma squeeze_app x y : squeeze (x ++ y) = squeeze x ++ squeeze y.
Proof. apply filter_app. Qed.

Lemma squeeze_space w : forallb is_space w = true -> squeeze w = [].
Proof.
  induction w as [|d w IH]; [done|]. simpl. intros [Hd Hw]%andb_prop.
  unfold squeeze. rewrite filter_cons, decide_False by (by rewrite Hd). by apply IH.
Qed.

Lemma fill_squeeze r : forall ws x,
  fill r ws = Some x -> solid (lits r) = true -> squeeze x = lits r.
Proof.
  induction r as [|[[c| |]|[c| |]|[c| |]|] r IH]; intros ws x Hf Hl; simpl in Hf; try done.
  - destruct ws; [|done]. by injection Hf as <-.
  - destruct (fill r ws) as [y|] eqn:Hy; [|done]. injection Hf as <-.
    simpl in Hl. apply andb_prop in Hl as [Hc Hl]. apply negb_true_iff in Hc.
    unfold squeeze. rewrite filter_cons, decide_True by done.
    simpl. f_equal. by apply (IH ws).
  - destruct ws as [|w ws]; [done|]. destruct (forallb is_space w) eqn:Hw; [|done].
    destruct (fill r ws) as [y|] eqn:Hy; [|done]. injection Hf as <-.
    rewrite squeeze_app, squeeze_space by done. by apply (IH ws).
  - destruct ws as [|w ws]; [done|].
    destruct (forallb is_space w && negb (bool_decide (w = []))) eqn:Hw; [|done].
    apply andb_prop in Hw as [Hw _].
    destruct (fill r ws) as [y|] eqn:Hy; [|done]. injection Hf as <-.
    rewrite squeeze_app, squeeze_space by done. by apply (IH ws).
Qed.

Lemma fill_spaced r : forall ws x, fill r ws = Some x -> spaced r = true.
Proof.
  induction r as [|[[c| |]|[c| |]|[c| |]|] r IH]; intros ws x Hf; simpl in Hf; try done.
  - destruct (fill r ws) as [y|] eqn:Hy; [|done]. by apply (IH ws y).
  - destruct ws as [|w ws]; [done|]. destruct (forallb is_space w); [|done].
    destruct (fill r ws) as [y|] eqn:Hy; [|done]. by apply (IH ws y).
  - destruct ws as [|w ws]; [done|].
    destruct (forallb is_space w && negb (bool_decide (w = []))); [|done].
    destruct (fill r ws) as [y|] eqn:Hy; [|done]. by apply (IH ws y).
Qed.

Lemma spaced_fillable r : spaced r = true -> exists ws x, fill r ws = Some x.
Proof.
  assert (Hb : forallb is_space [32] && negb (bool_decide ([32] = [])) = true).
  { vm_compute. reflexivity. }
  induction r as [|[[c| |]|[c| |]|[c| |]|] r IH]; intros Hs; try done.
  - by exists [], [].
  - destruct (IH Hs) as (ws & x & Hx). exists ws, (c :: x). simpl. by rewrite Hx.
  - destruct (IH Hs) as (ws & x & Hx). exists ([] :: ws), x. simpl. by rewrite Hx.
  - destruct (IH Hs) as (ws & x & Hx). exists ([32] :: ws), ([32] ++ x).
    cbn [fill]. by rewrite Hb, Hx.
Qed.

Lemma lits_stem r : lits r = literal_of r ++ lits (drop (length (literal_of r)) r).
Proof.
  induction r as [|[[c| |]| | |] r IH]; try done. simpl. f_equal. exact IH.
Qed.

Lemma lits_elem r c : c ∈ lits r -> One (Lit c) ∈ r.
Proof.
  induction r as [|i r IH]; [intros H; by apply elem_of_nil in H|]. simpl.
  destruct i as [[d| |]| | |]; try (intros H; apply list_elem_of_further; by apply IH).
  intros [->|H]%elem_of_cons; [apply list_elem_of_here|].
  apply list_elem_of_further. by apply IH.
Qed.

Lemma fill_stem r : forall ws x,
  fill r ws = Some x ->
  exists x2, x = literal_of r ++ x2 /\
    fill (drop (length (literal_of r)) r) ws = Some x2.
Proof.
  induction r as [|[[c| |]| | |] r IH]; intros ws x Hf; try (by exists x).
  simpl in Hf. destruct (fill r ws) as [y|] eqn:Hy; [|done]. injection Hf as <-.
  destruct (IH ws y Hy) as (x2 & -> & H2). by exists x2.
Qed.

Lemma Matches_stem r : forall pw s n,
  Matches r pw s n -> exists s', s = literal_of r ++ s'.
Proof.
  induction r as [|[[c| |]| | |] r IH]; intros pw s n Hm; try (by exists s).
  inversion Hm as [|a r0 pw0 d s0 n0 Ha Hm0| | | |]; subst.
  simpl in Ha. apply N.eqb_eq in Ha as ->.
  destruct (IH _ _ _ Hm0) as [s' ->]. by exists s'.
Qed.

(** A character that stands once in a text stands at one place. *)
Lemma unique_mark (m : N) (A : list N) : forall A' B B',
  A ++ m :: B = A' ++ m :: B' -> m ∉ A -> m ∉ B -> A = A'.
Proof.
  induction A as [|a A IH]; intros A' B B' Heq HA HB.
  - destruct A' as [|a' A']; [done|]. simpl in Heq. injection Heq as <- ->.
    destruct HB. apply elem_of_app. right. apply list_elem_of_here.
  - apply not_elem_of_cons in HA as [Hne HA].
    destruct A' as [|a' A']; simpl in Heq; injection Heq as -> Heq; [done|].
    f_equal. by apply (IH A' B B').
Qed.

Definition comparable (x y : text) : bool :=
  bool_decide (take (length x) y = x) || bool_decide (take (length y) x = y).

Lemma comparable_app_l (x z : list N) : comparable x (x ++ z) = true.
Proof.
  unfold comparable. rewrite take_app_length.
  by rewrite bool_decide_eq_true_2.
Qed.

Lemma comparable_app_r (x z : list N) : comparable (x ++ z) x = true.
Proof.
  unfold comparable. rewrite take_app_length.
  rewrite (bool_decide_eq_true_2 (x = x)) by done. apply orb_true_r.
Qed.

(** A pattern that matches at a filling of another spells, without the
    white space, a text that starts as the other does or the other way
    round. *)
Lemma filled_comparable rj rk ws inst (post : list N) pw n :
  fill rk ws = Some inst -> spaced rj = true ->
  solid (lits rj) = true -> solid (lits rk) = true ->
  Matches rj pw (inst ++ post) n ->
  comparable (lits rj) (lits rk) = true.
Proof.
  intros Hk Hj Hlj Hlk Hm.
  destruct (Matches_fill _ _ _ _ Hm (spaced_fillable _ Hj)) as [ws' Hws'].
  apply fill_squeeze in Hws'; [|done]. apply fill_squeeze in Hk; [|done].
  rewrite take_app, squeeze_app in Hws'.
  destruct (decide (n <= length inst)%nat) as [Hle|Hgt].
  - replace (n - length inst)%nat with 0%nat in Hws' by lia.
    rewrite take_0, app_nil_r in Hws'.
    rewrite <- (take_drop n inst), squeeze_app, Hws' in Hk.
    rewrite <- Hk. apply comparable_app_l.
  - rewrite take_ge in Hws' by lia. rewrite Hk in Hws'.
    rewrite <- Hws'. apply comparable_app_r.
Qed.

Definition has_lit (c : char) (r : regex) : bool := bool_decide (One (Lit c) ∈ r).

(** [apart rj rk]: the pattern [rj] finds nothing in a text that holds a
    filling of [rk] and otherwise neither [#] nor an opening parenthesis.
    Either [rj] needs a [#] and [rk] has none; or the two start with the
    same literals up to the one parenthesis of [rk], and then spell
    different colours. *)
Definition apart (rj rk : regex) : bool :=
  (has_lit (ch "#") rj && negb (has_lit (ch "#") rk)) ||
  (spaced rj &&
   bool_decide (literal_of rj = literal_of rk) &&
   bool_decide (last (literal_of rk) = Some (ch "(")) &&
   bool_decide (length (filter (fun c => c = ch "(") (lits rk)) = 1%nat) &&
   negb (comparable (lits rj) (lits rk))).

Definition alone_ok : bool :=
  forallb (fun rule => solid (lits rule.1)) rules &&
  forallb (fun k => match rules !! k with
                    | Some rk =>
                      negb (spaced rk.1) ||
                      (has_lit (ch "(") rk.1 &&
                       forallb (fun rj => apart rj.1 rk.1) (take k rules))
                    | None => true
                    end) (seq 0 (length rules)).

Lemma rules_alone_ok : alone_ok = true.
Proof. vm_compute. reflexivity. Qed.

Lemma rules_solid rule : rule ∈ rules -> solid (lits rule.1) = true.
Proof.
  intros Hin. pose proof rules_alone_ok as H. apply andb_prop in H as [H _].
  rewrite forallb_forall in H. by apply H, list_elem_of_In.
Qed.

Lemma filled_no_mark rk ws inst c :
  fill rk ws = Some inst -> solid (lits rk) = true ->
  is_space c = false -> c ∉ lits rk -> c ∉ inst.
Proof.
  intros Hf Hl Hc Hno Hin. apply Hno. rewrite <- (fill_squeeze rk ws inst Hf Hl).
  apply list_elem_of_filter. by split.
Qed.

Lemma apart_NoHit rj rk ws inst (pre post : list N) :
  apart rj rk = true -> fill rk ws = Some inst ->
  solid (lits rj) = true -> solid (lits rk) = true ->
  ch "#" ∉ pre -> ch "#" ∉ post -> ch "(" ∉ pre -> ch "(" ∉ post ->
  NoHit rj (pre ++ inst ++ post).
Proof.
  intros Ha Hf Hlj Hlk Hh1 Hh2 Hp1 Hp2.
  assert (Hsh : is_space (ch "#") = false) by (vm_compute; reflexivity).
  assert (Hsp : is_space (ch "(") = false) by (vm_compute; reflexivity).
  apply orb_prop in Ha as [Ha|Ha].
  - apply andb_prop in Ha as [Hj Hk]. apply bool_decide_eq_true in Hj.
    apply negb_true_iff, bool_decide_eq_false in Hk.
    apply (needs_NoHit _ (ch "#")); [exact Hj|].
    rewrite !elem_of_app. intros [H|[H|H]]; [by apply Hh1| |by apply Hh2].
    revert H. apply (filled_no_mark rk ws); [done..|].
    intros H. by apply Hk, lits_elem.
  - apply andb_prop in Ha as [[[[Hj Hst]%andb_prop Hlast]%andb_prop Hone]%andb_prop Hcmp].
    apply bool_decide_eq_true in Hst, Hlast, Hone. apply negb_true_iff in Hcmp.
    apply last_Some in Hlast as [st Hlast].
    destruct (fill_stem rk ws inst Hf) as (inst2 & -> & Hf2).
    pose proof (lits_stem rk) as Hls.
    set (rest := lits (drop (length (literal_of rk)) rk)) in *.
    rewrite Hlast in Hls.
    rewrite Hls, !filter_app, !length_app in Hone.
    rewrite filter_cons, decide_True, filter_nil in Hone by done.
    cbn [length] in Hone.
    assert (Hst0 : filter (fun c => c = ch "(") st = []).
    { apply length_zero_iff_nil. lia. }
    assert (Hrest0 : filter (fun c => c = ch "(") rest = []).
    { apply length_zero_iff_nil. lia. }
    assert (Hno1 : ch "(" ∉ st) by (by apply (filter_nil_not_elem_of _ _ _ Hst0)).
    assert (Hno2 : ch "(" ∉ inst2).
    { apply (filled_no_mark _ ws inst2 _ Hf2); [|done|].
      - unfold solid in Hlk. rewrite Hls, !forallb_app in Hlk.
        by apply andb_prop in Hlk as [_ Hlk].
      - by apply (filter_nil_not_elem_of _ _ _ Hrest0). }
    intros s1 s2 Hs.
    destruct (re_match rj false false s2) as [n|] eqn:Hm; [|done]. exfalso.
    apply re_match_sound in Hm as [Hm _].
    destruct (Matches_stem _ _ _ _ Hm) as [s2' ->].
    rewrite Hst, Hlast in Hs, Hm.
    assert (Heq : (pre ++ st) ++ ch "(" :: (inst2 ++ post) =
                  (s1 ++ st) ++ ch "(" :: s2').
    { rewrite <- !app_assoc. by rewrite <- !app_assoc in Hs. }
    pose proof (unique_mark _ _ _ _ _ Heq) as Hu.
    assert (Hpre : pre ++ st = s1 ++ st).
    { apply Hu.
      - rewrite elem_of_app. by intros [?|?].
      - rewrite elem_of_app. by intros [?|?]. }
    rewrite Hpre in Heq. apply app_inv_head in Heq. injection Heq as <-.
    rewrite <- Hlast, app_assoc in Hm.
    pose proof (filled_comparable rj rk ws _ post false n Hf Hj Hlj Hlk Hm) as Hc.
    congruence.
Qed.

(** Around a barrier, a pattern that needs a character neither side holds
    finds nothing. *)
Lemma NoHit_around r z c (pre post : list N) :
  headed r = true -> barrier r z = true -> z <> [] ->
  One (Lit c) ∈ r -> c ∉ pre -> c ∉ post ->
  NoHit r (pre ++ z ++ post).
Proof.
  intros Hh Hb Hz Hin Hpre Hpost s1 s2 Hs.
  destruct (re_match r false false s2) as [n|] eqn:Hm; [|done]. exfalso.
  assert (Htake : forall x y, Matches r false (x ++ y) n -> (n <= length x)%nat -> c ∈ x).
  { intros x y Hx Hn. apply (Matches_needs _ _ _ _ Hx) in Hin.
    rewrite take_app_le in Hin by done. by apply (subseteq_take n x). }
  apply app_eq_app in Hs as [l [[-> ->]|[-> Hs]]].
  - destruct l as [|d l].
    + simpl in Hm. by rewrite (barrier_miss r z [] z post) in Hm.
    + apply re_match_sound in Hm as [Hm _].
      pose proof (no_enter r false (d :: l) z post n (barrier_enters r z Hb)
                    ltac:(done) Hm) as Hn.
      apply Hpre. apply elem_of_app. right. by apply (Htake _ (z ++ post)).
  - apply app_eq_app in Hs as [l' [[-> ->]|[-> Hs]]].
    + destruct l' as [|d l'].
      * simpl in Hm. apply re_match_sound in Hm as [Hm _].
        apply Hpost. apply (Htake post []); [by rewrite app_nil_r|].
        by apply Matches_length in Hm.
      * by rewrite (barrier_miss r (l ++ d :: l') l (d :: l') post) in Hm.
    + apply re_match_sound in Hm as [Hm _].
      apply Hpost. rewrite Hs. apply elem_of_app. right.
      apply (Htake s2 []); [by rewrite app_nil_r|]. by apply Matches_length in Hm.
Qed.

Lemma subs_app rs1 rs2 s : subs (rs1 ++ rs2) s = subs rs2 (subs rs1 s).
Proof. revert s. induction rs1 as [|rule rs1 IH]; intros s; [done|]. simpl. apply IH. Qed.

Lemma match_total_app rs1 rs2 s :
  match_total (rs1 ++ rs2) s =
    (match_total rs1 s + match_total rs2 (subs rs1 s))%nat.
Proof.
  revert s. induction rs1 as [|rule rs1 IH]; intros s; [done|].
  simpl. rewrite IH. lia.
Qed.

(** X11. A colour of the table on its own is rewritten, whatever its white
    space.  Take the gradient rule or an [rgba] rule and any filling of its
    pattern with white space, and put it in a text that holds no other [#]
    and no other opening parenthesis.  The table turns the filling into the
    replacement of that rule and leaves the rest as it is; the count is 1.
    No rule before it in the table touches the text, and no rule after it
    touches the replacement. *)
Theorem filled_colour_alone rule ws inst pre post :
  rule ∈ rules -> fill rule.1 ws = Some inst ->
  existsb (fun c => (c =? ch "#") || (c =? ch "(")) (pre ++ post) = false ->
  subs rules (pre ++ inst ++ post) = pre ++ rule.2 ++ post /\
  match_total rules (pre ++ inst ++ post) = 1%nat.
Proof.
  intros Hin Hf Hs.
  assert (Hno : forall c, (c =? ch "#") || (c =? ch "(") = true ->
            (c ∉ pre) /\ (c ∉ post)).
  { intros c Hc. apply not_true_iff_false in Hs.
    split; intros Hx; apply Hs, existsb_exists; exists c;
      (split; [apply list_elem_of_In, elem_of_app; by auto|done]). }
  destruct (Hno (ch "#") eq_refl) as [Hh1 Hh2].
  destruct (Hno (ch "(") eq_refl) as [Hp1 Hp2].
  apply list_elem_of_lookup_1 in Hin as [k Hk].
  assert (Hrule : rule ∈ rules) by (by apply (list_elem_of_lookup_2 _ k)).
  destruct (good_rule_spec _ (rules_good_in rule Hrule)) as (Hh & Hd & _ & Hw & _).
  assert (Hrepl : rule.2 <> []) by (by destruct rule.2).
  pose proof rules_alone_ok as Hok. apply andb_prop in Hok as [_ Hok].
  rewrite forallb_forall in Hok.
  assert (Hkin : In k (seq 0 (length rules))).
  { apply in_seq. apply lookup_lt_Some in Hk. lia. }
  pose proof (Hok k Hkin) as Hok'. clear Hok Hkin.
  rewrite Hk, (fill_spaced _ _ _ Hf) in Hok'.
  apply orb_prop in Hok' as [Hok'|Hok']; [done|].
  apply andb_prop in Hok' as [Hparen Hbefore].
  apply bool_decide_eq_true in Hparen.
  assert (Hsplit : rules = take k rules ++ rule :: drop (S k) rules).
  { symmetry. by apply take_drop_middle. }
  assert (H1 : subs (take k rules) (pre ++ inst ++ post) = pre ++ inst ++ post /\
               match_total (take k rules) (pre ++ inst ++ post) = 0%nat).
  { apply subs_fixed.
    - apply Forall_forall. intros rj Hj. apply (subseteq_take k rules) in Hj.
      by destruct (good_rule_spec _ (rules_good_in rj Hj)) as (? & _).
    - apply Forall_forall. intros rj Hj.
      rewrite forallb_forall in Hbefore.
      pose proof (Hbefore rj (proj1 (list_elem_of_In _ _) Hj)) as Ha.
      apply (subseteq_take k rules) in Hj.
      apply (apart_NoHit rj.1 rule.1 ws); try done; by apply rules_solid. }
  assert (Hn1 : NoHit rule.1 pre) by (by apply (needs_NoHit _ (ch "("))).
  assert (Hn2 : NoHit rule.1 post) by (by apply (needs_NoHit _ (ch "("))).
  assert (H2 : sub rule.1 rule.2 (pre ++ inst ++ post) = pre ++ rule.2 ++ post /\
               findall rule.1 (pre ++ inst ++ post) = [inst]).
  { destruct (sub_filled rule.1 rule.2 ws inst pre post Hh Hd) as [-> ->]; [|done|].
    - pose proof rules_head_closed as Hc. rewrite forallb_forall in Hc.
      by apply (Hc rule), list_elem_of_In.
    - by rewrite !NoHit_sub, !NoHit_findall by done. }
  assert (H3 : subs (drop (S k) rules) (pre ++ rule.2 ++ post) = pre ++ rule.2 ++ post /\
               match_total (drop (S k) rules) (pre ++ rule.2 ++ post) = 0%nat).
  { apply subs_fixed.
    - apply Forall_forall. intros rj Hj. apply (subseteq_drop (S k) rules) in Hj.
      by destruct (good_rule_spec _ (rules_good_in rj Hj)) as (? & _).
    - apply Forall_forall. intros rj Hj. apply (subseteq_drop (S k) rules) in Hj.
      destruct (good_rule_spec _ (rules_good_in rj Hj)) as (Hhj & _).
      pose proof (rules_barrier_in rj rule Hj Hrule) as Hb.
      destruct rules_need_colour as [Hneed _]. rewrite forallb_forall in Hneed.
      pose proof (Hneed rj (proj1 (list_elem_of_In _ _) Hj)) as Hc.
      apply orb_prop in Hc as [Hc|Hc]; apply bool_decide_eq_true in Hc.
      + by apply (NoHit_around _ _ (ch "#")).
      + by apply (NoHit_around _ _ (ch "(")). }
  destruct H1 as [H1a H1b], H2 as [H2a H2b], H3 as [H3a H3b].
  rewrite Hsplit, subs_app, match_total_app. simpl.
  rewrite H1a, H1b, H2a, H2b, H3a, H3b. by split.
Qed.

(** * The special case, block by block *)

(** A character a pattern rejects that is no word character ends every
    attempt: the engine does with the text up to it what it does with that
    text alone.  This needs no uniqueness of the match. *)
Lemma repeat_max_cut a k c (y : list N) :
  accepts a c = false ->
  (forall x need pw, k need pw (x ++ c :: y) = k need pw x) ->
  forall x need pw,
    repeat_max a k need pw (x ++ c :: y) = repeat_max a k need pw x.
Proof.
  intros Ha Hk x. induction x as [|d x IH]; intros need pw; simpl.
  - rewrite Ha. apply (Hk []).
  - destruct (accepts a d).
    + rewrite IH. destruct (repeat_max a k false (is_word d) x); [done|].
      apply (Hk (d :: x)).
    + apply (Hk (d :: x)).
Qed.

Lemma re_match_cut r c (y : list N) :
  rejects r c = true -> is_word c = false ->
  forall x need pw, re_match r need pw (x ++ c :: y) = re_match r need pw x.
Proof.
  intros Hr Hw. induction r as [|[a|a|a|] r IH]; intros x need pw.
  - done.
  - simpl in Hr. apply andb_prop in Hr as [Ha Hr]. apply negb_true_iff in Ha.
    destruct x as [|d x]; simpl; [by rewrite Ha|].
    destruct (accepts a d); [by rewrite IH|done].
  - simpl in Hr. apply andb_prop in Hr as [Ha Hr]. apply negb_true_iff in Ha.
    simpl. apply repeat_max_cut; [done|]. intros x' need' pw'. by apply IH.
  - simpl in Hr. apply andb_prop in Hr as [Ha Hr]. apply negb_true_iff in Ha.
    destruct x as [|d x]; simpl; [by rewrite Ha|].
    destruct (accepts a d); [|done].
    rewrite repeat_max_cut; [done|done|]. intros x' need' pw'. by apply IH.
  - simpl in Hr. simpl.
    assert (Hn : next_word (x ++ c :: y) = next_word x).
    { destruct x; [simpl; by rewrite Hw|done]. }
    rewrite Hn. destruct (xorb pw (next_word x)); [by apply IH|done].
Qed.

Lemma scan_cut r c (a b : list N) :
  headed r = true -> rejects r c = true -> is_word c = false ->
  scan r false (a ++ c :: b) 0 = scan r false a 0 ++ Keep c :: scan r false b 0.
Proof.
  intros Hh Hr Hw. rewrite scan_app; [|done| |lia].
  - rewrite scan_miss; [done|done|].
    rewrite (re_match_cut r c b Hr Hw []).
    destruct r as [|[[d| |]| | |] r]; done.
  - intros a1 a2 _ _. by apply re_match_cut.
Qed.

Lemma spinner_brace :
  headed spinner_regex = true /\ rejects spinner_regex (ch "}") = true /\
  is_word (ch "}") = false.
Proof. split_and!; vm_compute; reflexivity. Qed.

(** X12. The special case works block by block.  No match of its pattern
    holds a closing brace ([[^}]+] does not take one and no literal of the
    pattern is one): so what [re.sub] makes of a text with a closing brace
    in it is what it makes of the part before the brace, the brace, and
    what it makes of the part after it; and [re.findall] finds the matches
    of the two parts.  A colour declaration is never looked for past the
    end of the block. *)
Theorem spinner_works_block_by_block a b :
  sub spinner_regex spinner_replacement (a ++ ch "}" :: b) =
    sub spinner_regex spinner_replacement a ++
    ch "}" :: sub spinner_regex spinner_replacement b /\
  findall spinner_regex (a ++ ch "}" :: b) =
    findall spinner_regex a ++ findall spinner_regex b.
Proof.
  destruct spinner_brace as (Hh & Hr & Hw).
  unfold sub, findall. rewrite (scan_cut _ _ a b Hh Hr Hw).
  by rewrite flat_map_app, omap_app.
Qed.

(** * The special case, inside a block *)

(** The declaration the special case looks for, with any white space
    before the colour. *)
Definition spinner_decl (ws : text) : text := txt "color:" ++ ws ++ txt "#9333ea;".

(** The text behind a stretch ends there or goes on with a closing brace. *)
Definition block_end (rest : text) : bool :=
  match rest with
  | [] => true
  | c :: _ => c =? ch "}"
  end.

Lemma window_in_block r pw (z rest : list N) n :
  Matches r pw (z ++ rest) n -> rejects r (ch "}") = true ->
  block_end rest = true -> (n <= length z)%nat.
Proof.
  intros Hm Hr Hb. destruct (decide (n <= length z)%nat) as [|Hgt]; [done|]. exfalso.
  destruct rest as [|c rest].
  - apply Matches_length in Hm. rewrite app_nil_r in Hm. lia.
  - simpl in Hb. apply N.eqb_eq in Hb as ->.
    apply (rejects_window _ _ _ _ (ch "}") Hm Hr).
    rewrite take_app, take_ge by lia.
    destruct (n - length z)%nat as [|j] eqn:Hj; [lia|].
    apply elem_of_app. right. apply list_elem_of_here.
Qed.

Lemma dead_stretch r pw (z rest : list N) n :
  Matches r pw (z ++ rest) n -> rejects r (ch "}") = true ->
  One (Lit (ch "#")) ∈ r -> block_end rest = true -> ch "#" ∉ z -> False.
Proof.
  intros Hm Hr Hin Hb Hz.
  pose proof (window_in_block _ _ _ _ _ Hm Hr Hb) as Hn.
  apply (Matches_needs _ _ _ _ Hm) in Hin. rewrite take_app_le in Hin by done.
  apply Hz. by apply (subseteq_take n z).
Qed.

Lemma fill_lits_nil l : fill (map (fun c => One (Lit c)) l) [] = Some l.
Proof. induction l as [|c l IH]; [done|]. simpl. by rewrite IH. Qed.

Lemma fill_lits l r ws x :
  fill r ws = Some x -> fill (map (fun c => One (Lit c)) l ++ r) ws = Some (l ++ x).
Proof. intros Hx. induction l as [|c l IH]; [done|]. simpl. by rewrite IH. Qed.

Lemma re_match_lits_run l r (s : list N) :
  (forall nd p t, re_match r nd p t = re_match r false false t) ->
  forall need pw,
    re_match (map (fun c => One (Lit c)) l ++ r) need pw (l ++ s) =
      (fun n => (length l + n)%nat) <$> re_match r false false s.
Proof.
  intros Hr. induction l as [|c l IH]; intros need pw; simpl.
  - rewrite Hr. by destruct (re_match r false false s).
  - rewrite N.eqb_refl, IH. by destruct (re_match r false false s).
Qed.

(** The greedy repeat, the other way round: the longest run after which
    the rest matches is the one it takes. *)
Lemma repeat_max_at a k (g rest : list N) m :
  (forall nd p t, k nd p t = k false false t) ->
  Forall (fun c => accepts a c = true) g ->
  k false false rest = Some m ->
  (forall g' rest', g ++ rest = g' ++ rest' -> (length g < length g')%nat ->
     Forall (fun c => accepts a c = true) g' -> k false false rest' = None) ->
  forall need pw, repeat_max a k need pw (g ++ rest) = Some (length g + m)%nat.
Proof.
  intros Hk Hg Hm Hmax need pw.
  destruct (repeat_max a k need pw (g ++ rest)) as [n|] eqn:Hrep.
  - apply repeat_max_last in Hrep
      as (g0 & rest0 & m0 & Heq & Hg0 & Hm0 & -> & Hmax0); [|done].
    destruct (decide (length g0 < length g)%nat) as [Hlt|Hge].
    { by rewrite (Hmax0 g rest eq_refl Hlt Hg) in Hm. }
    destruct (decide (length g < length g0)%nat) as [Hlt|Hge'].
    { by rewrite (Hmax g0 rest0 Heq Hlt Hg0) in Hm0. }
    apply app_inj_1 in Heq as [-> ->]; [|lia]. congruence.
  - by rewrite (repeat_max_none a k _ _ _ Hk Hrep g rest eq_refl Hg) in Hm.
Qed.

Lemma spinner_block_facts :
  literal_of spinner_regex = spinner_head /\
  literal_of spinner_tail = txt "color:" /\
  det spinner_tail = true /\
  has_lit (ch "#") spinner_regex = true /\
  has_lit (ch "#") spinner_tail = true /\
  rejects spinner_tail (ch "}") = true /\
  spinner_tail =
    map (fun c => One (Lit c)) (txt "color:") ++
    Star Space :: map (fun c => One (Lit c)) (txt "#9333ea;") /\
  forallb (fun k => negb (bool_decide (spinner_head !! k = Some (ch "."))))
    (seq 1 21) = true /\
  bool_decide (ch "{" ∈ spinner_head) = true /\
  length spinner_head = 22%nat /\
  is_space (ch "c") = false /\
  bool_decide (ch "c" ∈ txt "olor:" ++ txt "#9333ea;") = false.
Proof. split_and!; vm_compute; reflexivity. Qed.

Lemma fill_decl ws :
  forallb is_space ws = true -> fill spinner_tail [ws] = Some (spinner_decl ws).
Proof.
  intros Hw. destruct spinner_block_facts as (_ & _ & _ & _ & _ & _ & -> & _).
  unfold spinner_decl. apply fill_lits. cbn [fill]. rewrite Hw.
  by rewrite fill_lits_nil.
Qed.

(** No match of the special case starts before the selector when no
    opening brace stands there. *)
Lemma spinner_not_before (u2 x : list N) :
  u2 <> [] -> ch "{" ∉ u2 ->
  re_match spinner_regex false false (u2 ++ spinner_head ++ x) = None.
Proof.
  intros Hu2 Hbrace.
  destruct spinner_block_facts as (Hstem & _ & _ & _ & _ & _ & _ & Hdot & Hin & Hlen & _).
  destruct (re_match spinner_regex false false (u2 ++ spinner_head ++ x))
    as [n|] eqn:Hm; [|done]. exfalso.
  apply re_match_sound in Hm as [Hm _].
  destruct (Matches_stem _ _ _ _ Hm) as [s' Heq]. rewrite Hstem in Heq.
  destruct (decide (length u2 < 22)%nat) as [Hlt|Hge].
  - assert (Hlook : (u2 ++ spinner_head ++ x) !! length u2 = Some (ch ".")).
    { rewrite lookup_app_r by lia. by rewrite Nat.sub_diag. }
    rewrite Heq, lookup_app_l in Hlook by lia.
    rewrite forallb_forall in Hdot. specialize (Hdot (length u2)).
    rewrite bool_decide_eq_true_2 in Hdot by done.
    assert (false = true); [|done]. apply Hdot, in_seq.
    destruct u2; [done|simpl; simpl in Hlt; lia].
  - apply (f_equal (take 22)) in Heq.
    rewrite take_app_le in Heq by lia.
    rewrite <- Hlen, take_app_length in Heq.
    apply Hbrace. apply (subseteq_take (length spinner_head) u2).
    rewrite Heq. by apply bool_decide_eq_true in Hin.
Qed.

(** The pattern of the special case at the selector: it runs to the last
    colour declaration of the block. *)
Lemma spinner_at_block body ws (gap rest : list N) :
  body <> [] -> ch "}" ∉ body -> forallb is_space ws = true ->
  ch "#" ∉ gap -> block_end rest = true ->
  re_match spinner_regex false false
    ((spinner_head ++ body ++ spinner_decl ws) ++ gap ++ rest) =
    Some (length (spinner_head ++ body ++ spinner_decl ws)).
Proof.
  intros Hbody Hbrace Hws Hgap Hend.
  destruct spinner_block_facts
    as (_ & Hstem & Hdet & _ & Hhash & Hrej & _ & _ & _ & _ & Hc1 & Hc2).
  destruct spinner_facts as (_ & Hht & _).
  apply bool_decide_eq_true in Hhash. apply bool_decide_eq_false in Hc2.
  assert (Htail : forall y, re_match spinner_tail false false (spinner_decl ws ++ y) =
                            Some (length (spinner_decl ws))).
  { intros y. apply re_match_iff; [done|]. split; [|done].
    by apply (fill_Matches spinner_tail [ws]), fill_decl. }
  assert (Hdead : forall z n, Matches spinner_tail false (z ++ rest) n ->
            ch "#" ∉ z -> False).
  { intros z n Hm Hz. by apply (dead_stretch _ _ _ _ _ Hm). }
  rewrite spinner_shape, <- !app_assoc.
  rewrite re_match_lits_run by (intros; reflexivity).
  destruct body as [|b0 body']; [done|].
  apply not_elem_of_cons in Hbrace as [Hb0 Hbrace].
  change ((b0 :: body') ++ spinner_decl ws ++ gap ++ rest)
    with (b0 :: body' ++ spinner_decl ws ++ gap ++ rest).
  cbn [re_match].
  assert (Ha0 : accepts (NotLit 125) b0 = true).
  { simpl. destruct (b0 =? 125) eqn:E; [|done]. apply N.eqb_eq in E. by subst. }
  rewrite Ha0.
  rewrite (repeat_max_at _ _ body' _ (length (spinner_decl ws)));
    [|intros; by apply headed_match|by apply not_brace|by apply Htail|].
  { rewrite !length_app. cbn [length fmap option_fmap option_map]. f_equal; lia. }
  intros g' rest' Heq Hlen Hg'.
  destruct (re_match spinner_tail false false rest') as [n'|] eqn:Hm; [|done]. exfalso.
  apply re_match_sound in Hm as [Hm _].
  apply app_eq_app in Heq as [l [[H1 H2]|[H1 H2]]].
  { subst body'. rewrite length_app in Hlen. lia. }
  subst g'. apply Forall_app in Hg' as [_ Hl].
  assert (Hl0 : l <> []).
  { intros ->. rewrite app_nil_r in Hlen. lia. }
  apply app_eq_app in H2 as [l2 [[H3 H4]|[H3 H4]]].
  - (* the rest starts inside the declaration *)
    subst rest'. destruct l2 as [|d l2].
    + by apply (Hdead gap n').
    + destruct (Matches_stem _ _ _ _ Hm) as [s' Hs']. rewrite Hstem in Hs'.
      assert (Hd : d = ch "c") by (by injection Hs').
      subst d. destruct l as [|e l]; [done|].
      assert (Hin : ch "c" ∈ drop 1 (spinner_decl ws)).
      { rewrite H3. change (drop 1 ((e :: l) ++ ch "c" :: l2)) with (l ++ ch "c" :: l2).
        apply elem_of_app. right. apply list_elem_of_here. }
      change (drop 1 (spinner_decl ws)) with (txt "olor:" ++ ws ++ txt "#9333ea;") in Hin.
      rewrite !elem_of_app in Hin. destruct Hin as [Hin|[Hin|Hin]].
      * apply Hc2, elem_of_app. by left.
      * rewrite forallb_forall in Hws. apply list_elem_of_In, Hws in Hin. congruence.
      * apply Hc2, elem_of_app. by right.
  - (* the rest starts behind the declaration *)
    subst l. apply app_eq_app in H4 as [l3 [[H5 H6]|[H5 H6]]].
    + subst rest' gap. apply (Hdead l3 n' Hm).
      intros Hin. apply Hgap, elem_of_app. by right.
    + subst l2. destruct l3 as [|d l3].
      * simpl in H6. subst rest'. apply (Hdead [] n' Hm), not_elem_of_nil.
      * destruct rest as [|c rest0]; [done|]. simpl in Hend.
        apply N.eqb_eq in Hend as ->. injection H6 as <- _.
        apply Forall_app in Hl as [_ Hl]. apply Forall_app in Hl as [_ Hl].
        apply Forall_cons in Hl as [Hl _]. done.
Qed.

(** X13. What the special case does to a spinner block.  Between the
    selector [.app-loading-spinner {] and a declaration [color: #9333ea;]
    (with any white space after the colon) stands a text [body], not empty
    and without a closing brace; behind the declaration the block goes on
    with a text [gap] that holds no [#], up to its closing brace or to the
    end of the text; before the selector no opening brace stands.  Then the
    pattern matches from the selector through the declaration, and
    [re.sub] puts the replacement there: the selector, a line break, and
    [  color: var(--primary);].  The whole of [body] is gone, whatever it
    held; the text before the selector and the rest of the block are kept,
    and the text behind the closing brace is worked on in the same way. *)
Theorem spinner_block_rewritten pre body ws gap rest :
  ch "{" ∉ pre -> body <> [] -> ch "}" ∉ body ->
  forallb is_space ws = true -> ch "#" ∉ gap -> block_end rest = true ->
  sub spinner_regex spinner_replacement
      (pre ++ (spinner_head ++ body ++ spinner_decl ws) ++ gap ++ rest) =
    pre ++ spinner_replacement ++ gap ++
    sub spinner_regex spinner_replacement rest /\
  findall spinner_regex
      (pre ++ (spinner_head ++ body ++ spinner_decl ws) ++ gap ++ rest) =
    (spinner_head ++ body ++ spinner_decl ws) :: findall spinner_regex rest.
Proof.
  intros Hpre Hbody Hbrace Hws Hgap Hend.
  destruct spinner_brace as (Hh & Hr & _).
  destruct spinner_block_facts as (_ & _ & _ & Hhash & _).
  apply bool_decide_eq_true in Hhash.
  set (w := spinner_head ++ body ++ spinner_decl ws).
  assert (Hw : w <> []) by done.
  assert (HA : re_match spinner_regex false false (w ++ gap ++ rest) = Some (length w)).
  { by apply spinner_at_block. }
  assert (HB : forall u1 u2, pre = u1 ++ u2 -> u2 <> [] ->
            re_match spinner_regex false false (u2 ++ w ++ gap ++ rest) = None).
  { intros u1 u2 -> Hu2. unfold w. rewrite <- !app_assoc.
    apply spinner_not_before; [done|].
    intros Hin. apply Hpre, elem_of_app. by right. }
  assert (HC : forall z1 z2, gap = z1 ++ z2 -> z2 <> [] ->
            re_match spinner_regex false false (z2 ++ rest) = None).
  { intros z1 z2 -> Hz2.
    destruct (re_match spinner_regex false false (z2 ++ rest)) as [n|] eqn:Hm; [|done].
    exfalso. apply re_match_sound in Hm as [Hm _].
    apply (dead_stretch _ _ _ _ _ Hm); [done..|].
    intros Hin. apply Hgap, elem_of_app. by right. }
  unfold sub, findall.
  rewrite (scan_first_hit _ pre w (gap ++ rest)) by done.
  rewrite (scan_quiet _ gap rest) by done.
  rewrite !flat_map_app, !omap_app. simpl.
  rewrite !flat_map_app, !omap_app, !emit_keep, !hits_keep. done.
Qed.

(** * A hex colour of the table on its own *)

(** [hex_apart rj rk]: the pattern [rj] finds nothing in a text that holds
    the token of the bare rule [rk] and otherwise neither [#] nor an
    opening parenthesis.  Either [rj] needs a parenthesis, or it starts
    with [#] and spells another colour. *)
Definition hex_apart (rj rk : regex) : bool :=
  has_lit (ch "(") rj ||
  (bool_decide (head (literal_of rj) = Some (ch "#")) &&
   negb (comparable (literal_of rj) (literal_of rk))).

Definition bare_alone_ok : bool :=
  forallb (fun k => match rules !! k with
                    | Some rk =>
                      negb (closes rk.1 false) ||
                      (bool_decide (head (literal_of rk.1) = Some (ch "#")) &&
                       negb (bool_decide (ch "#" ∈ drop 1 (literal_of rk.1))) &&
                       negb (bool_decide (ch "(" ∈ literal_of rk.1)) &&
                       has_lit (ch "#") rk.1 &&
                       forallb (fun rj => hex_apart rj.1 rk.1)
                         (take k rules ++ drop (S k) rules))
                    | None => true
                    end) (seq 0 (length rules)).

Lemma rules_bare_alone_ok : bare_alone_ok = true.
Proof. vm_compute. reflexivity. Qed.

Lemma hex_apart_NoHit rj rk (tok' pre post : list N) :
  hex_apart rj rk = true -> literal_of rk = ch "#" :: tok' ->
  ch "#" ∉ tok' -> ch "(" ∉ literal_of rk ->
  ch "#" ∉ pre -> ch "#" ∉ post -> ch "(" ∉ pre -> ch "(" ∉ post ->
  NoHit rj (pre ++ literal_of rk ++ post).
Proof.
  intros Ha Htok Hh0 Hp0 Hh1 Hh2 Hp1 Hp2.
  apply orb_prop in Ha as [Ha|Ha].
  - apply bool_decide_eq_true in Ha. apply (needs_NoHit _ (ch "(")); [exact Ha|].
    rewrite !elem_of_app. by intros [?|[?|?]].
  - apply andb_prop in Ha as [Hhead Hcmp]. apply bool_decide_eq_true in Hhead.
    apply negb_true_iff in Hcmp.
    intros s1 s2 Hs.
    destruct (re_match rj false false s2) as [n|] eqn:Hm; [|done]. exfalso.
    apply re_match_sound in Hm as [Hm _].
    destruct (Matches_stem _ _ _ _ Hm) as [s2' ->].
    destruct (literal_of rj) as [|c st] eqn:Hst; [done|].
    assert (c = ch "#") as -> by (by injection Hhead).
    clear Hhead. rewrite Htok in Hs, Hcmp.
    assert (Heq : pre ++ ch "#" :: (tok' ++ post) = s1 ++ ch "#" :: (st ++ s2')) by done.
    pose proof (unique_mark _ _ _ _ _ Heq Hh1) as Hu.
    assert (Hpre : pre = s1).
    { apply Hu. rewrite elem_of_app. by intros [?|?]. }
    subst s1. apply app_inv_head in Heq. injection Heq as Heq.
    apply app_eq_app in Heq as [l [[-> _]|[-> _]]].
    + pose proof (comparable_app_l (ch "#" :: st) l) as Hc.
      change ((ch "#" :: st) ++ l) with (ch "#" :: st ++ l) in Hc. congruence.
    + pose proof (comparable_app_r (ch "#" :: tok') l) as Hc.
      change ((ch "#" :: tok') ++ l) with (ch "#" :: tok' ++ l) in Hc. congruence.
Qed.

(** X15. A hex colour of the table on its own.  Take a bare rule of the
    table (a six-digit colour closed by [\b]) and put its token in a text
    that holds no other [#] and no opening parenthesis.  When the text
    ends behind the token, or goes on with a character that is no word
    character, the table turns the token into the replacement of that
    rule, leaves the rest as it is and counts 1.  When a word character
    follows (a letter, a digit, an underscore), no rule of the table
    matches anywhere: the text stays as it is and the count is 0. *)
Theorem bare_colour_alone rule pre post :
  rule ∈ bare_rules ->
  existsb (fun c => (c =? ch "#") || (c =? ch "(")) (pre ++ post) = false ->
  (next_word post = false ->
     subs rules (pre ++ literal_of rule.1 ++ post) = pre ++ rule.2 ++ post /\
     match_total rules (pre ++ literal_of rule.1 ++ post) = 1%nat) /\
  (next_word post = true ->
     subs rules (pre ++ literal_of rule.1 ++ post) = pre ++ literal_of rule.1 ++ post /\
     match_total rules (pre ++ literal_of rule.1 ++ post) = 0%nat).
Proof.
  intros Hin Hs.
  assert (Hno : forall c, (c =? ch "#") || (c =? ch "(") = true ->
            (c ∉ pre) /\ (c ∉ post)).
  { intros c Hc. apply not_true_iff_false in Hs.
    split; intros Hx; apply Hs, existsb_exists; exists c;
      (split; [apply list_elem_of_In, elem_of_app; by auto|done]). }
  destruct (Hno (ch "#") eq_refl) as [Hh1 Hh2].
  destruct (Hno (ch "(") eq_refl) as [Hp1 Hp2].
  assert (Hok : bare_ok rule.1 = true).
  { pose proof bare_rules_ok as H. rewrite forallb_forall in H.
    by apply (H rule), list_elem_of_In. }
  unfold bare_rules in Hin. apply list_elem_of_filter in Hin as [Hclose Hrule].
  pose proof Hrule as Hk. apply list_elem_of_lookup_1 in Hk as [k Hk].
  destruct (good_rule_spec _ (rules_good_in rule Hrule)) as (Hh & Hd & _ & Hw & _).
  assert (Hrepl : rule.2 <> []) by (by destruct rule.2).
  pose proof rules_bare_alone_ok as Hall. unfold bare_alone_ok in Hall.
  rewrite forallb_forall in Hall.
  assert (Hkin : In k (seq 0 (length rules))).
  { apply in_seq. apply lookup_lt_Some in Hk. lia. }
  pose proof (Hall k Hkin) as Hall'. clear Hall Hkin.
  rewrite Hk, Hclose in Hall'.
  apply orb_prop in Hall' as [Hall'|Hall']; [done|].
  apply andb_prop in Hall' as [[[[Hhead Hh0]%andb_prop Hp0]%andb_prop Hhash]%andb_prop Hothers].
  apply bool_decide_eq_true in Hhead, Hhash.
  apply negb_true_iff, bool_decide_eq_false in Hh0, Hp0.
  destruct (literal_of rule.1) as [|c tok'] eqn:Htok; [done|].
  assert (c = ch "#") as -> by (by injection Hhead).
  clear Hhead. change (drop 1 (ch "#" :: tok')) with tok' in Hh0.
  assert (Hsplit : rules = take k rules ++ rule :: drop (S k) rules).
  { symmetry. by apply take_drop_middle. }
  assert (Hquiet : forall rj, rj ∈ take k rules ++ drop (S k) rules ->
            headed rj.1 = true /\ rj ∈ rules /\
            NoHit rj.1 (pre ++ (ch "#" :: tok') ++ post)).
  { intros rj Hj.
    assert (Hjr : rj ∈ rules).
    { apply elem_of_app in Hj as [Hj|Hj];
        [by apply (subseteq_take k rules)|by apply (subseteq_drop (S k) rules)]. }
    split; [by destruct (good_rule_spec _ (rules_good_in rj Hjr)) as (? & _)|].
    split; [exact Hjr|].
    rewrite forallb_forall in Hothers.
    pose proof (Hothers rj (proj1 (list_elem_of_In _ _) Hj)) as Ha.
    rewrite <- Htok. apply (hex_apart_NoHit rj.1 rule.1 tok'); try done.
    by rewrite Htok. }
  assert (H1 : subs (take k rules) (pre ++ (ch "#" :: tok') ++ post) =
                 pre ++ (ch "#" :: tok') ++ post /\
               match_total (take k rules) (pre ++ (ch "#" :: tok') ++ post) = 0%nat).
  { apply subs_fixed; apply Forall_forall; intros rj Hj;
      apply (Hquiet rj), elem_of_app; by left. }
  assert (Hn1 : NoHit rule.1 pre) by (by apply (needs_NoHit _ (ch "#"))).
  assert (Hn2 : NoHit rule.1 post) by (by apply (needs_NoHit _ (ch "#"))).
  pose proof (bare_scan rule.1 pre post Hok) as Hscan. rewrite Htok in Hscan.
  rewrite (NoHit_scan _ pre), (NoHit_scan _ post) in Hscan by done.
  assert (H2 : sub rule.1 rule.2 (pre ++ (ch "#" :: tok') ++ post) =
                 pre ++ (if next_word post then ch "#" :: tok' else rule.2) ++ post /\
               findall rule.1 (pre ++ (ch "#" :: tok') ++ post) =
                 if next_word post then [] else [ch "#" :: tok']).
  { unfold sub, findall. rewrite Hscan, !flat_map_app, !omap_app, !emit_keep, !hits_keep.
    destruct (next_word post).
    - by rewrite emit_keep, hits_keep.
    - simpl. by rewrite app_nil_r. }
  assert (H3 : subs (drop (S k) rules) (pre ++ (ch "#" :: tok') ++ post) =
                 pre ++ (ch "#" :: tok') ++ post /\
               match_total (drop (S k) rules) (pre ++ (ch "#" :: tok') ++ post) = 0%nat).
  { apply subs_fixed; apply Forall_forall; intros rj Hj;
      apply (Hquiet rj), elem_of_app; by right. }
  assert (H4 : subs (drop (S k) rules) (pre ++ rule.2 ++ post) = pre ++ rule.2 ++ post /\
               match_total (drop (S k) rules) (pre ++ rule.2 ++ post) = 0%nat).
  { apply subs_fixed.
    - apply Forall_forall. intros rj Hj. apply (Hquiet rj), elem_of_app. by right.
    - apply Forall_forall. intros rj Hj.
      assert (Hj' : rj ∈ take k rules ++ drop (S k) rules)
        by (apply elem_of_app; by right).
      destruct (Hquiet rj Hj') as (Hhj & Hjr & _).
      pose proof (rules_barrier_in rj rule Hjr Hrule) as Hb.
      destruct rules_need_colour as [Hneed _]. rewrite forallb_forall in Hneed.
      pose proof (Hneed rj (proj1 (list_elem_of_In _ _) Hjr)) as Hc.
      apply orb_prop in Hc as [Hc|Hc]; apply bool_decide_eq_true in Hc.
      + by apply (NoHit_around _ _ (ch "#")).
      + by apply (NoHit_around _ _ (ch "(")). }
  destruct H1 as [H1a H1b], H2 as [H2a H2b], H3 as [H3a H3b], H4 as [H4a H4b].
  rewrite Hsplit, !subs_app, !match_total_app, !subs_cons, !match_total_cons.
  rewrite H1a, H1b, H2a, H2b.
  split; intros Hnext; rewrite Hnext.
  - by rewrite H4a, H4b.
  - by rewrite H3a, H3b.
Qed.

(** * What a run makes of the files it works on *)

(** What [fix_colors_in_file] makes of a file it can read and write that
    holds the text [t], on a device that takes the write: the same file
    when the table changes nothing in what is read, and else the file with
    the new text, written once more. *)
Definition result (f : file) (t : text) : file :=
  if bool_decide (subs rules (universal_newlines t) = universal_newlines t) then f
  else File (Some (subs rules (universal_newlines t))) (readable f) (writable f) (cut f)
            (S (writes f)).

Lemma store_full f t :
  cut f t = None -> store f t = File (Some t) (readable f) (writable f) (cut f) (S (writes f)).
Proof. intros Hc. unfold store. by rewrite Hc. Qed.

(** A file that holds a text the table leaves as it is, is left as it
    is. *)
Lemma fix_leaves p w f t :
  fs w !! realpath p = Some (IsFile f) -> data f = Some t ->
  subs rules (universal_newlines t) = universal_newlines t ->
  fs (fix_colors_in_file p w).2 = fs w.
Proof.
  intros Hp Hd Hsame.
  destruct (fix_cases p w) as
    [(e & Hread & Hno & Hfix)|(f' & t' & Hp' & _ & Hd' & Hread &
       [(_ & Hfix)|[(Hne & _)|[(Hne & _)|(Hne & _)]]])]; cbv zeta in *.
  - rewrite Hfix. unfold failed. by consoles.
  - rewrite Hfix. unfold status, failed. by consoles.
  - assert (t' = t) as -> by congruence. contradiction.
  - assert (t' = t) as -> by congruence. contradiction.
  - assert (t' = t) as -> by congruence. contradiction.
Qed.

Section Visit.

Variables (q : text) (f : file) (t : text).
Hypotheses (Hr : readable f = true) (Hw : writable f = true) (Hd : data f = Some t).
Hypothesis Hcut : cut f (subs rules (universal_newlines t)) = None.

(** A visit of [fix_colors_in_file] to the place [q] makes the file [f]
    the file [result f t], and leaves that one as it is; a visit to
    another place leaves both. *)
Lemma fix_visit p w :
  (fs w !! q = Some (IsFile (result f t)) ->
   fs (fix_colors_in_file p w).2 !! q = Some (IsFile (result f t))) /\
  (fs w !! q = Some (IsFile f) ->
   fs (fix_colors_in_file p w).2 !! q =
     Some (IsFile (if bool_decide (realpath p = q) then result f t else f))).
Proof.
  destruct (decide (realpath p = q)) as [<-|Hne].
  2:{ rewrite bool_decide_eq_false_2 by done.
      rewrite (writes_off _ _ _ q (fix_fs p w)) by (by intros ->). done. }
  rewrite bool_decide_eq_true_2 by done. unfold result.
  case_bool_decide as Hsame.
  - split; intros Hp; by rewrite (fix_leaves p w f t).
  - split; intros Hp.
    + rewrite (fix_leaves p w _ (subs rules (universal_newlines t)) Hp eq_refl); [done|].
      rewrite subs_read_back. apply subs_idempotent.
    + destruct (fix_writes p w f t Hp Hr Hw Hd Hsame) as [-> _].
      by rewrite store_full.
Qed.

Lemma components_visit names : forall w,
  (fs w !! q = Some (IsFile (result f t)) ->
   fs (for_each names process_component tt w).2 !! q = Some (IsFile (result f t))) /\
  (fs w !! q = Some (IsFile f) ->
   (fs (for_each names process_component tt w).2 !! q = Some (IsFile f) \/
    fs (for_each names process_component tt w).2 !! q = Some (IsFile (result f t))) /\
   ((for_each names process_component tt w).1 = inr tt ->
    (exists p, p ∈ component_paths names /\ realpath p = q) ->
    fs (for_each names process_component tt w).2 !! q = Some (IsFile (result f t)))).
Proof.
  induction names as [|n names IH]; intros w.
  { cbn [for_each]. rewrite ret_unfold. cbn [fst snd]. split; [done|].
    intros Hq. split; [by left|]. intros _ (p & Hp & _). by apply elem_of_nil in Hp. }
  cbn [for_each]. rewrite bind_unfold, process_component_unfold.
  rewrite component_paths_cons. destruct (endswith n (txt ".css")).
  2:{ destruct (IH w) as [IH1 IH2]. split; [done|]. intros Hq.
      destruct (IH2 Hq) as [H1 H2]. split; [done|]. done. }
  destruct (fix_visit (path_join component_dir n) w) as [V1 V2].
  destruct (fix_colors_in_file (path_join component_dir n) w) as [[e|b] w1];
    cbn [fst snd] in *.
  { split; [done|]. intros Hq. rewrite (V2 Hq). split; [|done].
    case_bool_decide; [by right|by left]. }
  destruct (IH w1) as [IH1 IH2]. split; [by intros Hq; apply IH1, V1|].
  intros Hq. specialize (V2 Hq). case_bool_decide as Hhere.
  - split; [right; by apply IH1|]. intros _ _. by apply IH1.
  - destruct (IH2 V2) as [H1 H2]. split; [done|].
    intros Hres (p & [->|Hp]%elem_of_cons & Hpq); [done|]. apply H2; eauto.
Qed.

End Visit.

(** X16. What a run makes of the files it works on.  Take a place the
    dark-mode path leads to, or the path of a name of the listing of the
    component directory that ends with [.css], and to which
    [src/styles/App.css] does not lead: a file there that can be read and
    written and holds the text [t], on a device that takes the write.
    When the run ends normally, the file holds the text the table makes of
    what is read of [t]: it is exactly as it was when the table changes
    nothing (a text with [\r\n] line ends keeps them then), and else it
    holds the new text (with [\n] line ends) and was written once.  This
    holds also when several paths lead to the place, or the listing gives a
    name twice: a later visit finds nothing to do. *)
Theorem processed_files_hold_the_rewritten_text w q f t :
  table_place (fs w) q -> q <> realpath app_css_file ->
  fs w !! q = Some (IsFile f) ->
  readable f = true -> writable f = true -> data f = Some t ->
  cut f (subs rules (universal_newlines t)) = None ->
  (main w).1 = inr tt ->
  fs (main w).2 !! q = Some (IsFile (result f t)).
Proof.
  intros Hplace Hqa Hq Hr Hw Hd Hcut. rewrite main_unfold.
  destruct (console (out w) Started); [|done].
  pose proof (components_visit q f t Hr Hw Hd Hcut) as V1.
  pose proof (fun p w0 => fix_visit q f t Hr Hw Hd Hcut p w0) as V2.
  assert (H1 : (process_components (say Started w)).1 = inr tt ->
            (fs (process_components (say Started w)).2 !! q = Some (IsFile f) /\
             q = realpath dark_mode_file) \/
            fs (process_components (say Started w)).2 !! q = Some (IsFile (result f t))).
  { rewrite process_components_unfold. cbn [fs say].
    destruct Hplace as [->|(names & n & Hdir & Hn & He & ->)].
    - destruct (fs w !! realpath component_dir) as [[f0|names [|]]|]; try done.
      + intros Hres. destruct (V1 names (say Started w)) as [_ V].
        destruct (V Hq) as [[?|?] _]; auto.
      + intros _. by left.
    - rewrite Hdir. intros Hres. right.
      destruct (V1 names (say Started w)) as [_ V]. destruct (V Hq) as [_ Hall].
      apply Hall; [done|]. eexists. split; [|done].
      apply component_paths_elem. by exists n. }
  destruct (process_components (say Started w)) as [[e1|[]] w1]; cbn [fst snd] in *; [done|].
  specialize (H1 eq_refl).
  assert (H2 : fs (process_dark_mode w1).2 !! q = Some (IsFile (result f t))).
  { rewrite process_dark_mode_unfold.
    destruct H1 as [[H1 ->]|H1].
    - rewrite H1. cbn [snd]. destruct (V2 dark_mode_file w1) as [_ V]. rewrite (V H1).
      by rewrite bool_decide_eq_true_2.
    - destruct (fs w1 !! realpath dark_mode_file); [|done]. cbn [snd].
      destruct (V2 dark_mode_file w1) as [V _]. by apply V. }
  destruct (process_dark_mode w1) as [[e2|[]] w2]; cbn [fst snd] in *; [done|].
  pose proof (app_css_fs w2) as F3.
  destruct (process_app_css w2) as [[e3|[]] w3]; cbn [fst snd] in *; [done|].
  rewrite print_unfold. destruct (console _ _); [|done]. intros _. cbn [snd fs say].
  by rewrite (writes_off _ _ _ q F3).
Qed.

(** * Running the script twice *)

(** A match of a pattern that ends with literal characters ends with
    them. *)
Lemma Matches_ends r pw s n :
  Matches r pw s n ->
  forall l r0, r = r0 ++ map (fun c => One (Lit c)) l ->
  exists y, take n s = y ++ l /\ (r0 = [] -> y = []).
Proof.
  induction 1 as [pw s|a r pw c s n Ha _ IH|r pw s n Hx _ IH|a r pw s n _ IH
                 |a r pw c s n Ha _ IH|a r pw c s n Ha _ IH]; intros l r0 Hr.
  - symmetry in Hr. apply app_eq_nil in Hr as [_ Hl]. apply map_eq_nil in Hl as ->.
    by exists [].
  - destruct r0 as [|i r0]; simpl in Hr.
    + destruct l as [|d l]; [done|]. injection Hr as -> ->.
      destruct (IH l [] eq_refl) as (y & Hy & Hnil). rewrite (Hnil eq_refl) in Hy.
      simpl in Ha. apply N.eqb_eq in Ha as ->. exists []. simpl. by rewrite Hy.
    + injection Hr as _ ->. destruct (IH l r0 eq_refl) as (y & Hy & _).
      exists (c :: y). simpl. by rewrite Hy.
  - destruct r0 as [|i r0]; simpl in Hr; [by destruct l|].
    injection Hr as _ ->. destruct (IH l r0 eq_refl) as (y & Hy & _). by exists y.
  - destruct r0 as [|i r0]; simpl in Hr; [by destruct l|].
    injection Hr as _ ->. destruct (IH l r0 eq_refl) as (y & Hy & _). by exists y.
  - destruct r0 as [|i r0]; [by destruct l|].
    destruct (IH l (i :: r0) Hr) as (y & Hy & _).
    exists (c :: y). simpl. by rewrite Hy.
  - destruct r0 as [|i r0]; simpl in Hr; [by destruct l|].
    injection Hr as <- ->. destruct (IH l (Star a :: r0) eq_refl) as (y & Hy & _).
    exists (c :: y). simpl. by rewrite Hy.
Qed.

Lemma spinner_end_shape :
  spinner_regex =
    take (length spinner_regex - 8) spinner_regex ++
    map (fun c => One (Lit c)) (txt "#9333ea;").
Proof. vm_compute. reflexivity. Qed.

(** A text that holds no match of a rule of the table... *)
Lemma total_zero_NoHit rs : forall s,
  Forall (fun rule => headed rule.1 = true) rs ->
  match_total rs s = 0%nat -> Forall (fun rule => NoHit rule.1 s) rs.
Proof.
  induction rs as [|rule rs IH]; intros s Hh Hz; [constructor|].
  apply Forall_cons in Hh as [Hh Hhs]. simpl in Hz.
  assert (Hf : findall rule.1 s = []) by (apply length_zero_iff_nil; lia).
  rewrite Hf in Hz. apply findall_nil_NoHit in Hf; [|done].
  rewrite NoHit_sub in Hz by done. constructor; [done|by apply IH].
Qed.

(** ...holds none of the special case either: its pattern ends with
    [#9333ea;], which the table would have replaced. *)
Lemma table_fixed_spinner s :
  subs rules s = s -> sub spinner_regex spinner_replacement s = s.
Proof.
  intros Hs. destruct spinner_facts as (Hh & _).
  apply NoHit_sub; [done|]. intros s1 s2 ->.
  destruct (re_match spinner_regex false false s2) as [n|] eqn:Hm; [|done]. exfalso.
  apply re_match_sound in Hm as [Hm _].
  destruct (Matches_ends _ _ _ _ Hm _ _ spinner_end_shape) as (y & Hy & _).
  destruct primary_facts as (_ & _ & Hok & Htok & _).
  pose proof (total_zero_NoHit rules _ rules_headed (subs_same_total _ Hs)) as Hall.
  rewrite rules_first, rules_second in Hall.
  apply Forall_cons in Hall as [_ Hall]. apply Forall_cons in Hall as [Hp _].
  pose proof (bare_match primary_rule.1 (txt ";" ++ drop n s2) Hok) as Hb.
  rewrite Htok in Hb. change (next_word (txt ";" ++ drop n s2)) with false in Hb.
  rewrite (Hp (s1 ++ y) (txt "#9333ea" ++ txt ";" ++ drop n s2)) in Hb; [done|].
  rewrite <- (take_drop n s2) at 1. rewrite Hy, <- !app_assoc. reflexivity.
Qed.

(** A place is settled when [fix_colors_in_file] has nothing left to do
    to it: it holds no file that can be read and written, or a text the
    table leaves as it is. *)
Definition settled (q : text) (m : gmap (list N) node) : Prop :=
  forall f t, m !! q = Some (IsFile f) -> readable f = true -> data f = Some t ->
    writable f = true -> subs rules (universal_newlines t) = universal_newlines t.

(** The same for the special case, which writes whatever it read. *)
Definition calm (m : gmap (list N) node) : Prop :=
  forall f t, m !! realpath app_css_file = Some (IsFile f) -> readable f = true ->
    data f = Some t -> writable f = true ->
    sub spinner_regex spinner_replacement (universal_newlines t) = t.

(** A file system on devices that take every write. *)
Definition sound_fs (m : gmap (list N) node) : Prop :=
  forall q f t, m !! q = Some (IsFile f) -> cut f t = None.

Lemma writes_sound T m m' : writes_to T m m' -> sound_fs m -> sound_fs m'.
Proof.
  induction 1 as [|m q0 f t m' _ Hq0 _ _ _ _ IH]; [done|]. intros Hs. apply IH.
  intros q f' t' Hq. destruct (decide (q = q0)) as [->|Hne].
  - rewrite lookup_insert_eq in Hq. injection Hq as <-. apply (Hs q0 f t' Hq0).
  - rewrite lookup_insert_ne in Hq by done. by apply (Hs q).
Qed.

(** After a call of [fix_colors_in_file] its place is settled, unless the
    write broke off. *)
Lemma fix_settles_or p w :
  (exists f t, fs w !! realpath p = Some (IsFile f) /\ readable f = true /\
     writable f = true /\ data f = Some t /\
     is_Some (cut f (subs rules (universal_newlines t)))) \/
  settled (realpath p) (fs (fix_colors_in_file p w).2).
Proof.
  destruct (fix_cases p w) as
    [(e & Hread & Hno & Hfix)|(f & t & Hp & Hr & Hd & Hread &
       [(Hsame & Hfix)|[(Hne & Hw & Hwrite & Hfix)|[(Hne & Hw & Hcut & Hwrite & Hfix)|
        (Hne & Hw & Hcut & Hwrite & Hfix)]]])]; cbv zeta in *; rewrite Hfix.
  - right. assert (fs (failed p e w).2 = fs w) as -> by (unfold failed; by consoles).
    intros f t Hp Hr Hd. by destruct (Hno f t).
  - right. assert (fs (status p (Unchanged p) false w).2 = fs w) as ->
      by (unfold status, failed; by consoles).
    intros f' t' Hp' _ Hd' _. assert (t' = t) as -> by congruence. done.
  - right. assert (fs (failed p (PermissionError p) w).2 = fs w) as ->
      by (unfold failed; by consoles).
    intros f' t' Hp' _ _ Hw'. congruence.
  - left. by exists f, t.
  - right.
    assert (fs (status p (Changed p (match_total rules (universal_newlines t))) true
                  (rewritten p f (subs rules (universal_newlines t)) w)).2 =
            <[realpath p := IsFile (store f (subs rules (universal_newlines t)))]> (fs w))
      as -> by (unfold status, failed, rewritten; by consoles).
    intros f' t' Hp' _ Hd' _. rewrite lookup_insert_eq in Hp'. injection Hp' as <-.
    rewrite store_full in Hd' by done. injection Hd' as <-.
    rewrite subs_read_back. apply subs_idempotent.
Qed.

Lemma fix_settles p w :
  sound_fs (fs w) -> settled (realpath p) (fs (fix_colors_in_file p w).2).
Proof.
  intros Hs. destruct (fix_settles_or p w) as [(f & t & Hp & _ & _ & _ & Hcut)|H]; [|done].
  rewrite (Hs _ f _ Hp) in Hcut. by destruct Hcut.
Qed.

Lemma fix_keeps p w q :
  sound_fs (fs w) -> settled q (fs w) -> settled q (fs (fix_colors_in_file p w).2).
Proof.
  intros Hs Hq. destruct (decide (q = realpath p)) as [->|Hne]; [by apply fix_settles|].
  intros f t. rewrite (writes_off _ _ _ q (fix_fs p w)) by done. apply Hq.
Qed.

Lemma components_settle names : forall w,
  sound_fs (fs w) ->
  (forall q, settled q (fs w) ->
     settled q (fs (for_each names process_component tt w).2)) /\
  ((for_each names process_component tt w).1 = inr tt ->
   forall p, p ∈ component_paths names ->
     settled (realpath p) (fs (for_each names process_component tt w).2)).
Proof.
  induction names as [|n names IH]; intros w Hs.
  { split; [done|]. intros _ p Hp. by apply elem_of_nil in Hp. }
  cbn [for_each]. rewrite bind_unfold, process_component_unfold.
  rewrite component_paths_cons. destruct (endswith n (txt ".css")); [|by apply IH].
  pose proof (fix_settles (path_join component_dir n) w Hs) as H1.
  pose proof (fun q => fix_keeps (path_join component_dir n) w q Hs) as K1.
  pose proof (writes_sound _ _ _ (fix_fs (path_join component_dir n) w) Hs) as Hs1.
  destruct (fix_colors_in_file (path_join component_dir n) w) as [[e|b] w1];
    cbn [fst snd] in *; [done|].
  destruct (IH w1 Hs1) as [IH1 IH2]. split.
  - intros q Hq. by apply IH1, K1.
  - intros Hres p [->|Hp]%elem_of_cons; [by apply IH1|by apply IH2].
Qed.

Lemma app_css_settle w :
  sound_fs (fs w) ->
  (forall q, settled q (fs w) -> settled q (fs (process_app_css w).2)) /\
  ((process_app_css w).1 = inr tt ->
   calm (fs (process_app_css w).2) /\
   (is_Some (fs w !! realpath app_css_file) ->
    usable (fs (process_app_css w).2 !! realpath app_css_file))).
Proof.
  intros Hs.
  destruct (app_css_cases w) as
    [[Hno ->]|[(e & _ & _ & _ & _ & ->)|(f & t & Hp & Hr & Hd &
       [(Hw & ->)|[(Hw & Hcut & ->)|(Hw & Hcut & ->)]])]]; cbv zeta in *;
    cbn [fst snd]; try (split; [done|done]).
  - split; [done|]. intros _. split.
    + intros f t Hp. congruence.
    + rewrite Hno. by intros [? ?].
  - rewrite (Hs _ f _ Hp) in Hcut. by destruct Hcut.
  - set (c := sub spinner_regex spinner_replacement (universal_newlines t)) in *.
    assert (Hfs : fs (print (SpinnerFixed app_css_file) (rewritten app_css_file f c w)).2 =
              <[realpath app_css_file :=
                  IsFile (File (Some c) (readable f) (writable f) (cut f) (S (writes f)))]>
                (fs w)).
    { rewrite print_unfold. unfold rewritten. rewrite store_full by done. by consoles. }
    rewrite Hfs. split_and!.
    + intros q Hq f' t'. destruct (decide (q = realpath app_css_file)) as [->|Hne].
      * rewrite lookup_insert_eq. intros [= <-] _ [= <-] _.
        assert (Hc : c = universal_newlines t).
        { apply table_fixed_spinner. by apply (Hq f t). }
        rewrite Hc, universal_newlines_fixed by apply universal_newlines_clean.
        by apply (Hq f t).
      * rewrite lookup_insert_ne by done. apply Hq.
    + intros _. split.
      * intros f' t'. rewrite lookup_insert_eq. intros [= <-] _ [= <-] _.
        unfold c. rewrite spinner_read_back. apply spinner_idempotent.
      * intros _. rewrite lookup_insert_eq. eexists. split; [done|].
        cbn. by split_and!.
Qed.

Lemma first_run w :
  sound_fs (fs w) -> (main w).1 = inr tt ->
  sound_fs (fs (main w).2) /\
  (forall q, table_place (fs w) q -> settled q (fs (main w).2)) /\
  calm (fs (main w).2) /\
  (is_Some (fs w !! realpath app_css_file) ->
   usable (fs (main w).2 !! realpath app_css_file)).
Proof.
  intros Hs. split.
  { destruct (main_fs w) as (m & H1 & H2). by eapply writes_sound, writes_sound. }
  revert H. rewrite main_unfold. destruct (console (out w) Started); [|done].
  pose proof (process_components_fs (say Started w)) as F1.
  assert (H1 : (process_components (say Started w)).1 = inr tt ->
            forall names n, fs w !! realpath component_dir = Some (IsDir names true) ->
              n ∈ names -> endswith n (txt ".css") = true ->
              settled (realpath (path_join component_dir n))
                (fs (process_components (say Started w)).2)).
  { rewrite process_components_unfold. cbn [fs say]. intros Hres names n Hdir Hn He.
    rewrite Hdir in Hres |- *.
    destruct (components_settle names (say Started w) Hs) as [_ Hall].
    apply Hall; [done|]. apply component_paths_elem. by exists n. }
  destruct (process_components (say Started w)) as [[e1|[]] w1]; cbn [fst snd fs say] in *;
    [done|].
  specialize (H1 eq_refl). pose proof (writes_sound _ _ _ F1 Hs) as Hs1.
  pose proof (process_dark_mode_fs w1) as F2.
  assert (H2 : forall q, table_place (fs w) q -> settled q (fs (process_dark_mode w1).2)).
  { rewrite process_dark_mode_unfold. intros q [->|(names & n & Hdir & Hn & He & ->)].
    - destruct (fs w1 !! realpath dark_mode_file) as [x|] eqn:Hx; cbn [snd].
      + by apply fix_settles.
      + intros f t Hq. congruence.
    - destruct (fs w1 !! realpath dark_mode_file) as [x|] eqn:Hx; cbn [snd].
      + apply fix_keeps; [done|]. by apply (H1 names).
      + by apply (H1 names). }
  pose proof (writes_sound _ _ _ F2 Hs1) as Hs2.
  assert (K : same_kind (fs w !! realpath app_css_file)
                (fs (process_dark_mode w1).2 !! realpath app_css_file)).
  { eapply same_kind_trans; by eapply writes_kind. }
  destruct (process_dark_mode w1) as [[e2|[]] w2]; cbn [fst snd] in *; [done|].
  destruct (app_css_settle w2 Hs2) as [K3 C3].
  destruct (process_app_css w2) as [[e3|[]] w3]; cbn [fst snd] in *; [done|].
  destruct (C3 eq_refl) as [Hcalm Huse].
  rewrite print_unfold. destruct (console _ _); [|done]. intros _. cbn [snd fs say].
  split_and!; [|done|].
  - intros q Hq. by apply K3, H2.
  - intros Hsome. apply Huse.
    destruct (fs w !! realpath app_css_file) as [n|]; [|by destruct Hsome].
    destruct (fs w2 !! realpath app_css_file) as [n'|]; [eauto|by destruct n].
Qed.

(** A run that ended normally got past the component directory. *)
Lemma ended_past_listing w :
  (main w).1 = inr tt ->
  fs w !! realpath component_dir = None \/
  exists names, fs w !! realpath component_dir = Some (IsDir names true).
Proof.
  rewrite main_unfold. destruct (console (out w) Started); [|done].
  destruct (process_components_out (say Started w)) as (_ & _ & _ & R1).
  cbn [fs say] in R1.
  destruct (process_components (say Started w)) as [[e1|[]] w1]; [done|].
  intros _. destruct (fs w !! realpath component_dir) as [[f|names [|]]|]; eauto; done.
Qed.

(** The lines that report no count of changes: the banners, the line of
    a file without a match, the error line, and the line of the special
    case, which is printed whenever that file was written. *)
Definition no_count (r : report) : Prop :=
  r = Started \/ r = Completed \/ r = SpinnerFixed app_css_file \/
  exists p, r = Unchanged p \/ exists e, r = Failed p e.

(** On a settled place [fix_colors_in_file] changes nothing and reports no
    change. *)
Lemma fix_quiet p w :
  settled (realpath p) (fs w) ->
  fs (fix_colors_in_file p w).2 = fs w /\
  (forall w', fix_colors_in_file p w <> (inr true, w')) /\
  exists l, out (fix_colors_in_file p w).2 = out w ++ l /\ Forall no_count l.
Proof.
  intros Hs.
  assert (Hfail : forall e,
            fs (failed p e w).2 = fs w /\
            (forall w', failed p e w <> (inr true, w')) /\
            exists l, out (failed p e w).2 = out w ++ l /\ Forall no_count l).
  { intros e. unfold failed. destruct (console (out w) (Failed p e)); cbn [snd fs out say].
    - split_and!; [done|done|]. exists [Failed p e]. split; [done|].
      constructor; [|constructor]. right; right; right. exists p. right. by exists e.
    - split_and!; [done|done|]. exists []. split; [by rewrite app_nil_r|constructor]. }
  destruct (fix_cases p w) as
    [(e & Hread & Hno & Hfix)|(f & t & Hp & Hr & Hd & Hread &
       [(Hsame & Hfix)|[(Hne & Hw & Hwrite & Hfix)|[(Hne & Hw & Hcut & Hwrite & Hfix)|
        (Hne & Hw & Hcut & Hwrite & Hfix)]]])]; cbv zeta in *; rewrite Hfix.
  - apply Hfail.
  - unfold status. destruct (console (out w) (Unchanged p)); [|apply Hfail].
    cbn [snd fs out say]. split_and!; [done|done|]. exists [Unchanged p]. split; [done|].
    constructor; [|constructor]. right; right; right. exists p. by left.
  - apply Hfail.
  - destruct Hne. by apply (Hs f t).
  - destruct Hne. by apply (Hs f t).
Qed.

Lemma components_quiet names : forall w,
  (forall p, p ∈ component_paths names -> settled (realpath p) (fs w)) ->
  fs (for_each names process_component tt w).2 = fs w /\
  exists l, out (for_each names process_component tt w).2 = out w ++ l /\
    Forall no_count l.
Proof.
  induction names as [|n names IH]; intros w Hall.
  { split; [done|]. exists []. split; [by rewrite app_nil_r|constructor]. }
  cbn [for_each]. rewrite bind_unfold, process_component_unfold.
  rewrite component_paths_cons in Hall. destruct (endswith n (txt ".css")); [|by apply IH].
  destruct (fix_quiet (path_join component_dir n) w) as (Hfs & _ & l1 & Ho1 & Hl1).
  { apply Hall, list_elem_of_here. }
  destruct (fix_colors_in_file (path_join component_dir n) w) as [[e|b] w1];
    cbn [fst snd] in *.
  { split; [done|]. by exists l1. }
  destruct (IH w1) as (Hfs2 & l2 & Ho2 & Hl2).
  { intros p Hp. rewrite Hfs. by apply Hall, list_elem_of_further. }
  split; [congruence|]. exists (l1 ++ l2). rewrite Ho2, Ho1, <- app_assoc.
  split; [done|by apply Forall_app].
Qed.

Lemma process_components_quiet w :
  (forall q, table_place (fs w) q -> settled q (fs w)) ->
  fs (process_components w).2 = fs w /\
  exists l, out (process_components w).2 = out w ++ l /\ Forall no_count l.
Proof.
  intros Hall. rewrite process_components_unfold.
  destruct (fs w !! realpath component_dir) as [[f|names [|]]|] eqn:Hd; cbn [snd];
    try (split; [done|]; exists []; split; [by rewrite app_nil_r|constructor]).
  apply components_quiet. intros p (n & Hn & He & ->)%component_paths_elem.
  apply Hall. right. by exists names, n.
Qed.

Lemma process_dark_mode_quiet w :
  settled (realpath dark_mode_file) (fs w) ->
  fs (process_dark_mode w).2 = fs w /\
  exists l, out (process_dark_mode w).2 = out w ++ l /\ Forall no_count l.
Proof.
  intros Hs. rewrite process_dark_mode_unfold.
  destruct (fs w !! realpath dark_mode_file); cbn [snd].
  - destruct (fix_quiet dark_mode_file w Hs) as (? & _ & ?). by split.
  - split; [done|]. exists []. split; [by rewrite app_nil_r|constructor].
Qed.

(** Files up to the number of times they were written. *)
Definition forget_writes (n : node) : node :=
  match n with
  | IsFile f => IsFile (File (data f) (readable f) (writable f) (cut f) 0)
  | IsDir l b => IsDir l b
  end.

Lemma process_app_css_quiet w :
  calm (fs w) -> sound_fs (fs w) ->
  (forall q, q <> realpath app_css_file ->
     fs (process_app_css w).2 !! q = fs w !! q) /\
  (forall q, forget_writes <$> fs (process_app_css w).2 !! q =
             forget_writes <$> fs w !! q) /\
  exists l, out (process_app_css w).2 = out w ++ l /\ Forall no_count l /\
    ((forall l0 r, console l0 r = true) -> usable (fs w !! realpath app_css_file) ->
     SpinnerFixed app_css_file ∈ l).
Proof.
  intros Hcalm Hs.
  assert (Hsame : fs (process_app_css w).2 = fs w ->
            ((process_app_css w).1 <> inr tt \/
             fs w !! realpath app_css_file = None) ->
            out (process_app_css w).2 = out w ->
            (forall q, q <> realpath app_css_file ->
               fs (process_app_css w).2 !! q = fs w !! q) /\
            (forall q, forget_writes <$> fs (process_app_css w).2 !! q =
                       forget_writes <$> fs w !! q) /\
            exists l, out (process_app_css w).2 = out w ++ l /\ Forall no_count l /\
              ((forall l0 r, console l0 r = true) ->
               usable (fs w !! realpath app_css_file) ->
               SpinnerFixed app_css_file ∈ l)).
  { intros -> Hres ->. split_and!; [done|done|]. exists [].
    split_and!; [by rewrite app_nil_r|constructor|]. intros Hall Huse. exfalso.
    destruct (process_app_css_out w) as (_ & _ & _ & _ & R).
    destruct Hres as [Hne|Hnone].
    - apply Hne, (R Hall); [intros f t; apply Hs|by right].
    - destruct Huse as (f & Hf & _). congruence. }
  destruct (app_css_cases w) as
    [[Hno Heq]|[(e & _ & _ & _ & _ & Heq)|(f & t & Hp & Hr & Hd &
       [(Hw & Heq)|[(Hw & Hcut & Heq)|(Hw & Hcut & Heq)]])]]; cbv zeta in *.
  - apply Hsame; rewrite Heq; [done|by right|done].
  - apply Hsame; rewrite Heq; [done|by left|done].
  - apply Hsame; rewrite Heq; [done|by left|done].
  - rewrite (Hs _ f _ Hp) in Hcut. by destruct Hcut.
  - rewrite Heq, (Hcalm f t Hp Hr Hd Hw), print_unfold. unfold rewritten.
    rewrite store_full by (by apply (Hs _ f _ Hp)). cbn [out].
    assert (Hfw : forall q,
              forget_writes <$>
                (<[realpath app_css_file :=
                     IsFile (File (Some t) (readable f) (writable f) (cut f) (S (writes f)))]>
                   (fs w)) !! q = forget_writes <$> fs w !! q).
    { intros q. destruct (decide (q = realpath app_css_file)) as [->|Hq].
      - rewrite lookup_insert_eq, Hp. cbn. by rewrite Hd.
      - by rewrite lookup_insert_ne. }
    destruct (console (out w) (SpinnerFixed app_css_file)) eqn:Hc; cbn [snd fs out say].
    + split_and!; [intros q Hq; by apply lookup_insert_ne|done|].
      exists [SpinnerFixed app_css_file]. split_and!; [done| |].
      * constructor; [|constructor]. right; right; by left.
      * intros _ _. apply list_elem_of_here.
    + split_and!; [intros q Hq; by apply lookup_insert_ne|done|].
      exists []. split_and!; [by rewrite app_nil_r|constructor|].
      intros Hall. by rewrite Hall in Hc.
Qed.

(** A run on a file system whose places are settled changes no text and
    reports no count of changes. *)
Lemma main_quiet w :
  (forall q, table_place (fs w) q -> settled q (fs w)) ->
  calm (fs w) -> sound_fs (fs w) ->
  (forall q, q <> realpath app_css_file -> fs (main w).2 !! q = fs w !! q) /\
  (forall q, forget_writes <$> fs (main w).2 !! q = forget_writes <$> fs w !! q) /\
  exists l, out (main w).2 = out w ++ l /\ Forall no_count l /\
    ((forall l0 r, console l0 r = true) ->
     (fs w !! realpath component_dir = None \/
      exists names, fs w !! realpath component_dir = Some (IsDir names true)) ->
     usable (fs w !! realpath app_css_file) ->
     SpinnerFixed app_css_file ∈ l).
Proof.
  intros Hset Hcalm Hs. rewrite main_unfold.
  destruct (console (out w) Started) eqn:Hstart.
  2:{ split_and!; [done|done|]. exists []. split_and!; [by rewrite app_nil_r|constructor|].
      intros Hall. by rewrite Hall in Hstart. }
  destruct (process_components_quiet (say Started w) Hset) as (F1 & l1 & Ho1 & Hl1).
  destruct (process_components_out (say Started w)) as (_ & _ & _ & R1).
  cbn [fs out say] in F1, Ho1, R1.
  assert (Hst : Forall no_count [Started]) by (constructor; [by left|constructor]).
  destruct (process_components (say Started w)) as [[e1|[]] w1]; cbn [fst snd] in *.
  { rewrite F1. split_and!; [done|done|]. exists ([Started] ++ l1).
    rewrite Ho1, <- app_assoc. split_and!; [done|by apply Forall_app|].
    intros Hall [Hd|[names Hd]] _; rewrite Hd in R1;
      (destruct R1 as [?|(_ & l & r & Hc)]; [done|by rewrite Hall in Hc]). }
  destruct (process_dark_mode_quiet w1) as (F2 & l2 & Ho2 & Hl2).
  { rewrite F1. apply Hset. by left. }
  destruct (process_dark_mode_out w1) as (_ & _ & _ & R2).
  destruct (process_dark_mode w1) as [[e2|[]] w2]; cbn [fst snd] in *.
  { rewrite F2, F1. split_and!; [done|done|]. exists ([Started] ++ l1 ++ l2).
    rewrite Ho2, Ho1, <- !app_assoc. split_and!; [done|by rewrite !Forall_app|].
    intros Hall _ _. destruct R2 as [?|(_ & l & r & Hc)]; [done|by rewrite Hall in Hc]. }
  destruct (process_app_css_quiet w2) as (T3 & W3 & l3 & Ho3 & Hl3 & S3).
  { by rewrite F2, F1. }
  { by rewrite F2, F1. }
  rewrite F2, F1 in T3, W3, S3.
  assert (Hl : Forall no_count ([Started] ++ l1 ++ l2 ++ l3)) by (by rewrite !Forall_app).
  destruct (process_app_css w2) as [[e3|[]] w3]; cbn [fst snd] in *.
  - split_and!; [done|done|]. exists ([Started] ++ l1 ++ l2 ++ l3).
    rewrite Ho3, Ho2, Ho1, <- !app_assoc. split_and!; [done|done|].
    intros Hall _ Huse. do 3 (apply elem_of_app; right). by apply S3.
  - rewrite print_unfold. destruct (console (out w3) Completed); cbn [snd fs out say].
    + split_and!; [done|done|]. exists (([Started] ++ l1 ++ l2 ++ l3) ++ [Completed]).
      split_and!.
      * rewrite Ho3, Ho2, Ho1. by rewrite <- !app_assoc.
      * apply Forall_app. split; [done|]. constructor; [right; by left|constructor].
      * intros Hall _ Huse. apply elem_of_app. left.
        do 3 (apply elem_of_app; right). by apply S3.
    + split_and!; [done|done|]. exists ([Started] ++ l1 ++ l2 ++ l3).
      rewrite Ho3, Ho2, Ho1, <- !app_assoc. split_and!; [done|done|].
      intros Hall _ Huse. do 3 (apply elem_of_app; right). by apply S3.
Qed.

(** X1. Running the script twice in succession changes no text the second
    time, when the first run ended normally on devices that take every
    write.  After such a run, a second run leaves every file with the text
    and the permissions it had, and leaves every place but the one
    [src/styles/App.css] leads to exactly as it was: the special case
    writes its file back even when the text is the same, so the count of
    writes of that file grows.  No line of the second run reports a count
    of changes: its lines are the banners, lines of files without a match,
    error lines, and the line of the special case, which is printed again
    although nothing was fixed (with a standard output that takes every
    line it is printed whenever [App.css] exists).  The reason is the one
    the table gives: in the text the rules produce no rule of the table has
    a match left, so the rules leave it as it is, and the rule of the
    special case leaves its own output as it is. *)
Theorem second_run_changes_nothing w :
  (forall q f t, fs w !! q = Some (IsFile f) -> cut f t = None) ->
  (main w).1 = inr tt ->
  (forall q, forget_writes <$> fs (main (main w).2).2 !! q =
             forget_writes <$> fs (main w).2 !! q) /\
  (forall q, q <> realpath app_css_file ->
     fs (main (main w).2).2 !! q = fs (main w).2 !! q) /\
  (exists l, out (main (main w).2).2 = out (main w).2 ++ l /\
     Forall no_count l /\
     ((forall l0 r, console l0 r = true) -> is_Some (fs w !! realpath app_css_file) ->
      SpinnerFixed app_css_file ∈ l)) /\
  (forall s, subs rules (subs rules s) = subs rules s /\
     match_total rules (subs rules s) = 0%nat) /\
  (forall s, sub spinner_regex spinner_replacement
               (sub spinner_regex spinner_replacement s) =
             sub spinner_regex spinner_replacement s).
Proof.
  intros Hs Hend.
  destruct (first_run w Hs Hend) as (Hs1 & Hset & Hcalm & Huse).
  assert (Hdir : forall names, fs (main w).2 !! realpath component_dir =
                   Some (IsDir names true) ->
                 fs w !! realpath component_dir = Some (IsDir names true)).
  { intros names Hd. pose proof (main_kind w (realpath component_dir)) as K.
    rewrite Hd in K. destruct (fs w !! realpath component_dir) as [[f|l b]|]; try done.
    by destruct K as [-> ->]. }
  destruct (main_quiet (main w).2) as (Hoff & Hfw & l & Ho & Hl & Hspin); [|done|done|].
  { intros q [->|(names & n & Hd & Hn & He & ->)]; apply Hset; [by left|].
    right. exists names, n. split; [by apply Hdir|done]. }
  split_and!; [exact Hfw|exact Hoff| |apply subs_idempotent|apply spinner_idempotent].
  exists l. split_and!; [done|done|]. intros Hall Hsome. apply Hspin; [done| |by apply Huse].
  pose proof (main_kind w (realpath component_dir)) as K.
  destruct (ended_past_listing w Hend) as [Hd|[names Hd]]; rewrite Hd in K.
  - left. by destruct (fs (main w).2 !! realpath component_dir).
  - right. exists names.
    destruct (fs (main w).2 !! realpath component_dir) as [[f|l' b']|]; try done.
    by destruct K as [<- <-].
Qed.


End FixColors.

(** * The script on concrete file systems

    The file systems below hold ASCII text only, for which the Unicode
    database is never asked: they are run with the tables that mark no
    character.  No path is a link, and unless it is said otherwise the
    standard output takes every line and the devices take every write. *)
Definition ascii_only : N -> bool := fun _ => false.

Definition no_links : list N -> list N := fun p => p.

Definition every_line : list report -> report -> bool := fun _ _ => true.

Definition no_line : list report -> report -> bool := fun _ _ => false.

Definition plain (t : text) : node := IsFile (File (Some t) true true (fun _ => None) 0).

Definition world_of (l : list (list N * node)) : world := World (list_to_map l) [].

Definition no_files : world := world_of [].

Lemma missing_component_dir_witness :
  fs no_files !! no_links component_dir = None /\
  process_components ascii_only ascii_only no_links every_line no_files = (inr tt, no_files) /\
  main ascii_only ascii_only no_links every_line no_files =
    (print every_line Started;; process_dark_mode ascii_only ascii_only no_links every_line;;
     process_app_css ascii_only ascii_only no_links every_line;;
     print every_line Completed) no_files.
Proof.
  split; [reflexivity|].
  apply (missing_component_dir ascii_only ascii_only no_links every_line no_files).
  reflexivity.
Defined.

Lemma primary_rule_bare : primary_rule ∈ bare_rules ascii_only.
Proof.
  unfold bare_rules. apply list_elem_of_filter. split; [by vm_compute|].
  rewrite rules_first, rules_second. apply list_elem_of_further, list_elem_of_here.
Defined.

Lemma bare_token_boundary_witness :
  primary_rule ∈ bare_rules ascii_only /\
  sub ascii_only ascii_only primary_rule.1 primary_rule.2
      (txt "a { color: " ++ literal_of primary_rule.1 ++ txt "; }") =
    sub ascii_only ascii_only primary_rule.1 primary_rule.2 (txt "a { color: ") ++
    primary_rule.2 ++
    sub ascii_only ascii_only primary_rule.1 primary_rule.2 (txt "; }").
Proof.
  split; [exact primary_rule_bare|].
  apply (bare_token_boundary ascii_only ascii_only primary_rule (txt "a { color: ")
           (txt "; }") primary_rule_bare).
  reflexivity.
Defined.

(** A component directory with one style sheet and one other file, and an
    [App.css] with a colour of the table outside the spinner block. *)
Definition app_css_text : text := txt "a { color: #9333ea; }".

Definition two_components : world :=
  world_of [(component_dir, IsDir [txt "a.css"; txt "notes.txt"] true);
            (txt "src/components/a.css", plain (txt "a { color: #9333ea; }"));
            (app_css_file, plain app_css_text)].

Lemma two_components_sound q f t :
  fs two_components !! q = Some (IsFile f) -> cut f t = None.
Proof.
  unfold two_components, world_of. cbn [fs list_to_map foldr].
  intros H.
  apply lookup_insert_Some in H as [[_ H]|[_ H]]; [done|].
  apply lookup_insert_Some in H as [[_ H]|[_ H]]; [by injection H as <-|].
  apply lookup_insert_Some in H as [[_ H]|[_ H]]; [by injection H as <-|].
  by rewrite lookup_empty in H.
Qed.

Lemma second_run_changes_nothing_witness :
  (main ascii_only ascii_only no_links every_line two_components).1 = inr tt /\
  (forall q,
     forget_writes <$>
       fs (main ascii_only ascii_only no_links every_line
             (main ascii_only ascii_only no_links every_line two_components).2).2 !! q =
     forget_writes <$>
       fs (main ascii_only ascii_only no_links every_line two_components).2 !! q).
Proof.
  split; [vm_compute; reflexivity|].
  apply (second_run_changes_nothing ascii_only ascii_only no_links every_line two_components).
  - exact two_components_sound.
  - vm_compute. reflexivity.
Defined.

Lemma component_reports_witness :
  fs two_components !! no_links component_dir =
    Some (IsDir [txt "a.css"; txt "notes.txt"] true) /\
  exists rs,
    process_components ascii_only ascii_only no_links every_line two_components =
      (inr tt, (process_components ascii_only ascii_only no_links every_line
                  two_components).2) /\
    out (process_components ascii_only ascii_only no_links every_line two_components).2 =
      out two_components ++ rs /\
    Forall2 about (component_paths [txt "a.css"; txt "notes.txt"]) rs.
Proof.
  split; [vm_compute; reflexivity|].
  apply (component_reports ascii_only ascii_only no_links every_line two_components).
  - vm_compute. reflexivity.
  - reflexivity.
Defined.

Lemma app_css_gets_the_special_case_only_witness :
  fs two_components !! no_links app_css_file = Some (plain app_css_text) /\
  ((main ascii_only ascii_only no_links every_line two_components).1 = inr tt ->
   fs (main ascii_only ascii_only no_links every_line two_components).2
     !! no_links app_css_file =
     Some (IsFile (File (Some (sub ascii_only ascii_only spinner_regex spinner_replacement
                                 (universal_newlines app_css_text)))
                     true true (fun _ => None) 1))).
Proof.
  split; [vm_compute; reflexivity|].
  apply (app_css_gets_the_special_case_only ascii_only ascii_only no_links every_line
           two_components (File (Some app_css_text) true true (fun _ => None) 0)
           app_css_text);
    [vm_compute; reflexivity|reflexivity|reflexivity|reflexivity|].
  intros [H|(names & n & Hd & Hn & He & H)]; [vm_compute in H; discriminate|].
  vm_compute in Hd. injection Hd as <-.
  apply elem_of_cons in Hn as [->|Hn]; [vm_compute in H; discriminate|].
  apply elem_of_cons in Hn as [->|Hn]; [vm_compute in He; discriminate|].
  by apply elem_of_nil in Hn.
Defined.

Lemma separators_split_the_work_witness :
  subs ascii_only ascii_only rules (txt "color: #9333ea" ++ ch ";" :: txt " margin: 0") =
    subs ascii_only ascii_only rules (txt "color: #9333ea") ++
    ch ";" :: subs ascii_only ascii_only rules (txt " margin: 0") /\
  match_total ascii_only ascii_only rules
    (txt "color: #9333ea" ++ ch ";" :: txt " margin: 0") =
    (match_total ascii_only ascii_only rules (txt "color: #9333ea") +
     match_total ascii_only ascii_only rules (txt " margin: 0"))%nat.
Proof.
  apply (separators_split_the_work ascii_only ascii_only (ch ";")); reflexivity.
Defined.

Lemma text_without_colours_stays_witness :
  subs ascii_only ascii_only rules (txt "body { margin: 0; }") =
    txt "body { margin: 0; }" /\
  match_total ascii_only ascii_only rules (txt "body { margin: 0; }") = 0%nat /\
  sub ascii_only ascii_only spinner_regex spinner_replacement
    (txt "body { margin: 0; }") = txt "body { margin: 0; }" /\
  (forall p w f,
     fs w !! no_links p = Some (IsFile f) -> readable f = true ->
     data f = Some (txt "body { margin: 0; }") ->
     fix_colors_in_file ascii_only ascii_only no_links every_line p w =
       (inr false, say (Unchanged p) w)).
Proof.
  apply (text_without_colours_stays ascii_only ascii_only no_links every_line). reflexivity.
Defined.

(** A project in which [src/components] is a file. *)
Definition components_is_a_file : world :=
  world_of [(component_dir, plain (txt "not a directory"));
            (dark_mode_file, plain (txt "a { color: #9333ea; }"))].

Lemma component_path_is_a_file_witness :
  fs components_is_a_file !! no_links component_dir = Some (plain (txt "not a directory")) /\
  main ascii_only ascii_only no_links every_line components_is_a_file =
    (inl (NotADirectoryError component_dir), say Started components_is_a_file).
Proof.
  split; [vm_compute; reflexivity|].
  apply (component_path_is_a_file ascii_only ascii_only no_links every_line
           components_is_a_file
           (File (Some (txt "not a directory")) true true (fun _ => None) 0)).
  vm_compute. reflexivity.
Defined.
(** The shadow colour of the table, with a line break inside. *)
Definition shadow_rule : regex * text := rule_at 19.

Definition shadow_spaces : list text := [[]; [32]; [10; 32]; []].

Definition shadow_text : text :=
  txt "rgba(147, 51," ++ [10; 32] ++ txt "234,0.2)".

Lemma filled_patterns_are_replaced_witness :
  (forall pre post,
     sub ascii_only ascii_only shadow_rule.1 shadow_rule.2 (pre ++ shadow_text ++ post) =
       sub ascii_only ascii_only shadow_rule.1 shadow_rule.2 pre ++
       txt "var(--primary-shadow)" ++
       sub ascii_only ascii_only shadow_rule.1 shadow_rule.2 post /\
     findall ascii_only ascii_only shadow_rule.1 (pre ++ shadow_text ++ post) =
       findall ascii_only ascii_only shadow_rule.1 pre ++
       shadow_text :: findall ascii_only ascii_only shadow_rule.1 post) /\
  (forall s n, re_match ascii_only ascii_only shadow_rule.1 false false s = Some n ->
     exists ws', fill ascii_only shadow_rule.1 ws' = Some (take n s)).
Proof.
  apply (filled_patterns_are_replaced ascii_only ascii_only shadow_rule
           shadow_spaces shadow_text).
  - apply (list_elem_of_lookup_2 rules 19). vm_compute. reflexivity.
  - vm_compute. reflexivity.
Defined.

Lemma filled_colour_alone_witness :
  subs ascii_only ascii_only rules
    (txt "box-shadow: 0 4px 6px " ++ shadow_text ++ txt ";") =
    txt "box-shadow: 0 4px 6px " ++ txt "var(--primary-shadow)" ++ txt ";" /\
  match_total ascii_only ascii_only rules
    (txt "box-shadow: 0 4px 6px " ++ shadow_text ++ txt ";") = 1%nat.
Proof.
  apply (filled_colour_alone ascii_only ascii_only shadow_rule shadow_spaces shadow_text
           (txt "box-shadow: 0 4px 6px ") (txt ";")).
  - apply (list_elem_of_lookup_2 rules 19). vm_compute. reflexivity.
  - vm_compute. reflexivity.
  - vm_compute. reflexivity.
Defined.

(** A spinner block with two properties before the colour and one after. *)
Definition block_body : text := txt " width: 40px; height: 40px; ".
Definition block_gap : text := txt " margin: 0; ".
Definition block_rest : text := txt "} a { color: red; }".

Lemma spinner_block_rewritten_witness :
  sub ascii_only ascii_only spinner_regex spinner_replacement
      ([10] ++ (spinner_head ++ block_body ++ spinner_decl [32]) ++
       block_gap ++ block_rest) =
    [10] ++ spinner_replacement ++ block_gap ++
    sub ascii_only ascii_only spinner_regex spinner_replacement block_rest /\
  findall ascii_only ascii_only spinner_regex
      ([10] ++ (spinner_head ++ block_body ++ spinner_decl [32]) ++
       block_gap ++ block_rest) =
    (spinner_head ++ block_body ++ spinner_decl [32]) ::
    findall ascii_only ascii_only spinner_regex block_rest.
Proof.
  apply (spinner_block_rewritten ascii_only ascii_only [10] block_body [32]
           block_gap block_rest).
  - apply (bool_decide_unpack _). vm_compute. reflexivity.
  - discriminate.
  - apply (bool_decide_unpack _). vm_compute. reflexivity.
  - reflexivity.
  - apply (bool_decide_unpack _). vm_compute. reflexivity.
  - reflexivity.
Defined.

Lemma bare_colour_alone_witness :
  (next_word ascii_only (txt ";") = false ->
     subs ascii_only ascii_only rules
       (txt "color: " ++ literal_of primary_rule.1 ++ txt ";") =
       txt "color: " ++ primary_rule.2 ++ txt ";" /\
     match_total ascii_only ascii_only rules
       (txt "color: " ++ literal_of primary_rule.1 ++ txt ";") = 1%nat) /\
  (next_word ascii_only (txt ";") = true ->
     subs ascii_only ascii_only rules
       (txt "color: " ++ literal_of primary_rule.1 ++ txt ";") =
       txt "color: " ++ literal_of primary_rule.1 ++ txt ";" /\
     match_total ascii_only ascii_only rules
       (txt "color: " ++ literal_of primary_rule.1 ++ txt ";") = 0%nat).
Proof.
  apply (bare_colour_alone ascii_only ascii_only primary_rule (txt "color: ") (txt ";")).
  - exact primary_rule_bare.
  - reflexivity.
Defined.

Lemma processed_files_hold_the_rewritten_text_witness :
  fs two_components !! no_links (txt "src/components/a.css") = Some (plain app_css_text) /\
  (main ascii_only ascii_only no_links every_line two_components).1 = inr tt /\
  fs (main ascii_only ascii_only no_links every_line two_components).2
    !! no_links (txt "src/components/a.css") =
    Some (IsFile (result ascii_only ascii_only
                    (File (Some app_css_text) true true (fun _ => None) 0) app_css_text)).
Proof.
  split; [vm_compute; reflexivity|]. split; [vm_compute; reflexivity|].
  apply (processed_files_hold_the_rewritten_text ascii_only ascii_only no_links every_line
           two_components (txt "src/components/a.css")
           (File (Some app_css_text) true true (fun _ => None) 0) app_css_text).
  - right. exists [txt "a.css"; txt "notes.txt"], (txt "a.css").
    split; [vm_compute; reflexivity|]. split; [apply list_elem_of_here|].
    split; vm_compute; reflexivity.
  - vm_compute. discriminate.
  - vm_compute. reflexivity.
  - reflexivity.
  - reflexivity.
  - reflexivity.
  - reflexivity.
  - vm_compute. reflexivity.
Defined.

(** C4, as stated, fails: the letter [g] is no hex digit, and the token
    [#9333ea] followed by it is not matched (a word character follows, so
    there is no word boundary): the text stays as it is. *)
Lemma bare_token_before_letter :
  is_hex (ch "g") = false /\
  re_match ascii_only ascii_only primary_rule.1 false false (txt "#9333eag") = None /\
  sub ascii_only ascii_only primary_rule.1 primary_rule.2 (txt "#9333eag") =
    txt "#9333eag" /\
  subs ascii_only ascii_only rules (txt "#9333eag") = txt "#9333eag".
Proof. split_and!; vm_compute; reflexivity. Qed.

(** C1, at a failing input.  The block holds a property between the
    opening brace and the colour: the special case of [main] drops it, with
    the white space around it, and writes the block header, a newline, two
    blanks and the colour declaration. *)
Lemma spinner_rewrite_drops_properties :
  main ascii_only ascii_only no_links every_line
    (world_of [(app_css_file,
                plain (txt ".app-loading-spinner { width: 10px; color: #9333ea; }"))]) =
  (inr tt,
   World (list_to_map
            [(app_css_file,
              IsFile (File (Some (txt ".app-loading-spinner {" ++ [10] ++
                                  txt "  color: var(--primary); }")) true true
                        (fun _ => None) 1))])
         [Started; SpinnerFixed app_css_file; Completed]).
Proof. vm_compute. reflexivity. Qed.

(** The same special case does nothing when the colour is the first thing
    in the block, right behind the brace: the pattern asks for at least one
    character in between. *)
Lemma spinner_rewrite_needs_a_gap :
  (spinner_rule ≫= fun rule =>
     Some (sub ascii_only ascii_only rule.1 rule.2
             (txt ".app-loading-spinner {color: #9333ea; }"))) =
  Some (txt ".app-loading-spinner {color: #9333ea; }").
Proof. vm_compute. reflexivity. Qed.

(** C2, at a failing input.  The special-cased file exists and cannot be
    read: the error is not caught, [main] ends with it and the closing
    banner is never printed. *)
Lemma unreadable_app_css_ends_the_run :
  main ascii_only ascii_only no_links every_line
    (world_of [(app_css_file,
                IsFile (File (Some (txt "body { margin: 0; }")) false true
                          (fun _ => None) 0))]) =
  (inl (PermissionError app_css_file),
   World (list_to_map
            [(app_css_file,
              IsFile (File (Some (txt "body { margin: 0; }")) false true
                        (fun _ => None) 0))])
         [Started]).
Proof. vm_compute. reflexivity. Qed.

(** C3, at a failing input.  The special-cased file holds no spinner
    block: its text is not changed, and yet it is written (its write count
    goes from 0 to 1) and reported as fixed. *)
Lemma unchanged_app_css_is_written :
  main ascii_only ascii_only no_links every_line
    (world_of [(app_css_file, plain (txt "body { margin: 0; }"))]) =
  (inr tt,
   World (list_to_map
            [(app_css_file,
              IsFile (File (Some (txt "body { margin: 0; }")) true true
                        (fun _ => None) 1))])
         [Started; SpinnerFixed app_css_file; Completed]).
Proof. vm_compute. reflexivity. Qed.


(** C10, as stated, fails.  The file holds a colour of the table and the
    standard output takes no line: the file is rewritten, the line with
    the count is refused inside the [try], the handler prints the error
    line, that line is refused as well, and the exception of [print]
    leaves [fix_colors_in_file]. *)
Lemma refused_lines_leave_the_function :
  fix_colors_in_file ascii_only ascii_only no_links no_line dark_mode_file
    (world_of [(dark_mode_file, plain (txt "a { color: #9333ea; }"))]) =
  (inl UnicodeEncodeError,
   World (list_to_map
            [(dark_mode_file,
              IsFile (File (Some (txt "a { color: var(--primary); }")) true true
                        (fun _ => None) 1))])
         []).
Proof. vm_compute. reflexivity. Qed.

(** A device with room for [n] characters: a longer text is cut there. *)
Definition room (n : nat) (t : text) : option (option text) :=
  if (n <? length t)%nat then Some (Some (take n t)) else None.

Definition small_device : world :=
  World (list_to_map
           [(dark_mode_file,
             IsFile (File (Some (txt "a{color:#a855f7;border-color:#9333eaff}")) true true
                       (room 49) 0))])
        [].

Definition text_at (w : world) (p : list N) : option (option text) :=
  match fs w !! p with
  | Some (IsFile f) => Some (data f)
  | _ => None
  end.

(** A write that breaks off, and the call after it.  The file sits on a
    device with room for 49 characters and holds a colour of the table and
    an eight-digit colour, which no rule matches.  The first call writes
    the text of the rules, which is longer; the write breaks off behind
    the first seven characters of the eight-digit colour, and those are a
    colour of the table at the end of the text.  The second call finds it,
    writes again, and the text in the file changes a second time. *)
Lemma broken_write_is_rewritten :
  let w1 := (fix_colors_in_file ascii_only ascii_only no_links every_line dark_mode_file
               small_device).2 in
  let w2 := (fix_colors_in_file ascii_only ascii_only no_links every_line
               dark_mode_file w1).2 in
  text_at w1 dark_mode_file =
    Some (Some (txt "a{color:var(--primary-light);border-color:#9333ea")) /\
  text_at w2 dark_mode_file =
    Some (Some (txt "a{color:var(--primary-light);border-color:var(--p")) /\
  out w2 = [Failed dark_mode_file (OSError dark_mode_file);
            Failed dark_mode_file (OSError dark_mode_file)].
Proof. vm_compute. split_and!; reflexivity. Qed.
